(** * Random two-player zero-sum game trees and their backward-induction solver

    A shallow embedding of [randomgames.py]: the node classes ([Node],
    [ActionNode], [GameRootNode], [PayOffNode]) and the operations of
    [TwoPlayerGame] ([__init__], [generate], [branch], [solve], [valuemap]).

    Python objects are mutable; a tree of node objects is embedded as an
    inductive tree value and every operation returns the tree as it stands
    after the call, also when the call raises.  The [parent] attribute is
    only read by [Node.__init__] to compute [depth] and the [selected]
    attribute of a [PayOffNode] is never read: neither is carried. *)

From Stdlib Require Import QArith.QArith_base.
From stdpp Require Import base numbers option list gmap strings pretty.

Local Open Scope Z_scope.

(** ** Python values *)

(** A number stored in a node annotation: [np.nan] or an integer. *)
Inductive pynum : Type :=
| NaN
| Int (z : Z).

#[global] Instance pynum_eq_dec : EqDecision pynum.
Proof. solve_decision. Defined.

(** The exceptions the modelled code can raise. *)
Inductive exn : Type :=
| ValueError      (* np.argmax: attempt to get argmax of an empty sequence *)
| IndexError      (* tuple index out of range *)
| AttributeError  (* attribute missing on the object's class *)
| AssertionError. (* a failed [assert] *)

#[global] Instance exn_eq_dec : EqDecision exn.
Proof. solve_decision. Defined.

Inductive outcome (A : Type) : Type :=
| Ok (a : A)
| Raise (e : exn).

Arguments Ok {A} a.
Arguments Raise {A} e.

Definition outcome_map {A B} (f : A → B) (o : outcome A) : outcome B :=
  match o with
  | Ok a => Ok (f a)
  | Raise e => Raise e
  end.

(** [x[i]] on a tuple of length two: Python accepts the indices -2..1. *)
Definition tuple_get {A} (x : A * A) (i : Z) : option A :=
  if decide (i = 0 ∨ i = -2) then Some x.1
  else if decide (i = 1 ∨ i = -1) then Some x.2
  else None.

(** [[x[i] for x in xs]]: the first failing subscript raises. *)
Fixpoint column {A} (xs : list (A * A)) (i : Z) : option (list A) :=
  match xs with
  | [] => Some []
  | x :: xs' =>
      match tuple_get x i with
      | None => None
      | Some a =>
          match column xs' i with
          | None => None
          | Some l => Some (a :: l)
          end
      end
  end.

(** numpy's comparison inside [argmax]: a candidate replaces the running
    maximum when it is not [<=] to it, and the scan stops at the first nan. *)
Definition np_replaces (x best : pynum) : bool :=
  match best, x with
  | NaN, _ => false
  | Int _, NaN => true
  | Int b, Int a => bool_decide (b < a)
  end.

Fixpoint argmax_from (best_i : nat) (best : pynum) (i : nat) (xs : list pynum) : nat :=
  match xs with
  | [] => best_i
  | x :: xs' =>
      if np_replaces x best then argmax_from i x (S i) xs'
      else argmax_from best_i best (S i) xs'
  end.

(** [np.argmax(xs)]: index of the first occurrence of the maximum.
    The entries are compared as integers: this is numpy's comparison on
    the [int64] array it builds from a list of Python ints that all lie
    between [-2^63] and [2^63 - 1] (predicate [int64] below).  A list
    with larger entries is converted to another element type first, and
    the properties that depend on which index is chosen are stated for
    [int64] payoffs. *)
Definition np_argmax (xs : list pynum) : outcome nat :=
  match xs with
  | [] => Raise ValueError
  | x :: xs' => Ok (argmax_from 0 x 1 xs')
  end.

(** ** Nodes *)

Local Unset Elimination Schemes.

(** [ActionNode]: [nodeid], [depth], [player], [decision], [value],
    [children].  [PayOffNode]: [nodeid], [depth], [payoff]; its inherited
    [children] list stays empty. *)
Inductive node : Type :=
| ActionNode (nodeid depth player : Z) (decision : pynum)
    (value : pynum * pynum) (children : list node)
| PayOffNode (nodeid depth : Z) (payoff : Z * Z).

Section node_induction.
Variable P : node → Prop.
Hypothesis P_action : ∀ i d p dec v cs,
  Forall P cs → P (ActionNode i d p dec v cs).
Hypothesis P_payoff : ∀ i d pay, P (PayOffNode i d pay).

Fixpoint node_ind (n : node) : P n :=
  match n with
  | ActionNode i d p dec v cs =>
      P_action i d p dec v cs
        ((fix go (l : list node) : Forall P l :=
            match l with
            | [] => Forall_nil_2 P
            | c :: l' => Forall_cons_2 P c l' (node_ind c) (go l')
            end) cs)
  | PayOffNode i d pay => P_payoff i d pay
  end.
End node_induction.

Local Set Elimination Schemes.

Definition nodeid (n : node) : Z :=
  match n with
  | ActionNode i _ _ _ _ _ => i
  | PayOffNode i _ _ => i
  end.

Definition depth (n : node) : Z :=
  match n with
  | ActionNode _ d _ _ _ _ => d
  | PayOffNode _ d _ => d
  end.

Definition children (n : node) : list node :=
  match n with
  | ActionNode _ _ _ _ _ cs => cs
  | PayOffNode _ _ _ => []
  end.

Definition is_payoff (n : node) : bool :=
  match n with
  | ActionNode _ _ _ _ _ _ => false
  | PayOffNode _ _ _ => true
  end.

Definition payoff_pair (pay : Z * Z) : pynum * pynum := (Int pay.1, Int pay.2).

(** The pair the solver reads off a child: [child.payoff] for a
    [PayOffNode], [child_subgame.root.value] after solving otherwise. *)
Definition value_of (n : node) : pynum * pynum :=
  match n with
  | ActionNode _ _ _ _ v _ => v
  | PayOffNode _ _ pay => payoff_pair pay
  end.

(** ** [TwoPlayerGame.solve] *)

(** The [for i, child in enumerate(children)] loop.  [solve_sub] is the
    recursive [child_subgame.solve()]; [branch] builds [child_subgame]
    through the constructor, whose first statement is
    [Node.set_nodeid(1)], so the class counter [ctr] is 1 when the child
    is solved.  The children come back as mutated so far. *)
Section solve_children.
Variable solve_sub : node → Z → node * Z * outcome unit.

Fixpoint solve_children (cs : list node) (ctr : Z)
  : list node * Z * outcome (list (pynum * pynum)) :=
  match cs with
  | [] => ([], ctr, Ok [])
  | c :: rest =>
      match c with
      | PayOffNode _ _ pay =>
          let '(rest', ctr', r) := solve_children rest ctr in
          (c :: rest', ctr', outcome_map (cons (payoff_pair pay)) r)
      | ActionNode _ _ _ _ _ _ =>
          let '(c', ctr1, r) := solve_sub c 1 in
          match r with
          | Raise e => (c' :: rest, ctr1, Raise e)
          | Ok _ =>
              let '(rest', ctr2, r2) := solve_children rest ctr1 in
              (c' :: rest', ctr2, outcome_map (cons (value_of c')) r2)
          end
      end
  end.
End solve_children.

(** The two statements after the loop:
    [node.decision = np.argmax([x[player] for x in child_value])] and
    [node.value = child_value[node.decision]]. *)
Definition decide_node (player : Z) (child_value : list (pynum * pynum))
  : outcome (nat * (pynum * pynum)) :=
  match column child_value player with
  | None => Raise IndexError
  | Some col =>
      match np_argmax col with
      | Raise e => Raise e
      | Ok i =>
          match child_value !! i with
          | Some v => Ok (i, v)
          | None => Raise IndexError
          end
      end
  end.

(** The body of [solve] on the subtree under [self.root], threading the
    class counter [Node.nodeid]. *)
Fixpoint solve_node (n : node) (ctr : Z) : node * Z * outcome unit :=
  match n with
  | PayOffNode _ _ _ => (n, ctr, Ok ())
  | ActionNode i d p dec v cs =>
      let '(cs', ctr', r) := solve_children solve_node cs ctr in
      match r with
      | Raise e => (ActionNode i d p dec v cs', ctr', Raise e)
      | Ok child_value =>
          match decide_node p child_value with
          | Raise e => (ActionNode i d p dec v cs', ctr', Raise e)
          | Ok (k, val) =>
              (ActionNode i d p (Int (Z.of_nat k)) val cs', ctr', Ok ())
          end
      end
  end.

(** ** Node constructors *)

(** [Node.__init__] stores the class counter as the new node's id and
    increments it; [depth] is 0 for a node that is its own parent and
    [parent.depth + 1] otherwise. *)
Definition GameRootNode_init (ctr : Z) : node * Z :=
  (ActionNode ctr 0 0 NaN (NaN, NaN) [], ctr + 1).

Definition ActionNode_init (parent : node) (player : Z) (ctr : Z) : node * Z :=
  (ActionNode ctr (depth parent + 1) player NaN (NaN, NaN) [], ctr + 1).

Definition set_children (n : node) (cs : list node) : node :=
  match n with
  | ActionNode i d p dec v _ => ActionNode i d p dec v cs
  | PayOffNode i d pay => PayOffNode i d pay
  end.

(** [PayOffNode.__init__]: besides building the leaf it overwrites
    [parent.children] with the one-element list holding the new leaf.
    Returns the leaf, the parent as mutated, and the counter.  The
    parent is a decision node at every call: [reproduce_payoffs] passes
    its own node, and [PayOffNode_new] refuses a leaf, which the node
    type cannot give a child. *)
Definition PayOffNode_init (parent : node) (payoff : Z * Z) (ctr : Z)
  : node * node * Z :=
  let self := PayOffNode ctr (depth parent + 1) payoff in
  (self, set_children parent [self], ctr + 1).

(** ** Positions in a tree *)

(** A node object below a root is addressed by the child indices that
    lead to it. *)
Fixpoint get_node (t : node) (p : list nat) {struct p} : option node :=
  match p with
  | [] => Some t
  | i :: p' =>
      match children t !! i with
      | Some c => get_node c p'
      | None => None
      end
  end.

(** The tree after the object at position [p] has become [n']. *)
Fixpoint put_node (t : node) (p : list nat) (n' : node) {struct p} : node :=
  match p with
  | [] => n'
  | i :: p' =>
      match t with
      | ActionNode id d pl dec v cs =>
          ActionNode id d pl dec v (alter (λ c, put_node c p' n') i cs)
      | PayOffNode _ _ _ => t
      end
  end.

(** ** [TwoPlayerGame] *)

Record config : Type := Config {
  lam : Q;
  maxdepth : Z;
  minactions : Z;
  maxactions : Z;
  minpayoffs : Z;
  maxpayoffs : Z;
  ties : bool }.

(** The keyword defaults of [TwoPlayerGame.__init__]. *)
Definition default_config : config :=
  {| lam := 2%Q; maxdepth := 10;
     minactions := 0; maxactions := 99;
     minpayoffs := 2; maxpayoffs := 99;
     ties := false |}.

(** The process: the class attribute [Node.nodeid], the root objects
    created so far ([objects !! 0] is the one bound to the default
    argument [root=GameRootNode()]), and the number of random draws
    made. *)
Record World : Type := MkWorld {
  Node_nodeid : Z;
  objects : list node;
  draws : nat }.

(** A reference to a node object: a root object and a position below it. *)
Definition ref : Type := nat * list nat.

Definition default_root : ref := (0%nat, []).

Record TwoPlayerGame : Type := Game {
  root : ref;
  cfg : config;
  solved : bool;
  num_nodes : Z }.

Definition deref (w : World) (r : ref) : option node :=
  match objects w !! r.1 with
  | Some t => get_node t r.2
  | None => None
  end.

Definition assign (w : World) (r : ref) (n' : node) : list node :=
  alter (λ t, put_node t r.2 n') r.1 (objects w).

(** The state once the module is loaded: the class body sets
    [Node.nodeid = 0] and the default argument of
    [TwoPlayerGame.__init__] is evaluated, once. *)
Definition module_loaded : World :=
  let '(r, ctr) := GameRootNode_init 0 in
  {| Node_nodeid := ctr; objects := [r]; draws := 0 |}.

(** [GameRootNode()] evaluated by the caller. *)
Definition GameRootNode_new (w : World) : ref * World :=
  let '(r, ctr) := GameRootNode_init (Node_nodeid w) in
  ((length (objects w), []),
   {| Node_nodeid := ctr; objects := objects w ++ [r]; draws := draws w |}).

Definition set_nodeid (value : Z) (w : World) : World :=
  {| Node_nodeid := value; objects := objects w; draws := draws w |}.


(** [PayOffNode(parent, payoff)] evaluated by the caller on a decision
    node of the store ([len(payoff) == 2] holds by typing).  In the code
    a leaf given as [parent] would receive the new leaf as its child; a
    [PayOffNode] of this model has no child list, so that call is not
    represented ([None]). *)
Definition PayOffNode_new (parent : ref) (payoff : Z * Z) (w : World)
  : option (node * World) :=
  match deref w parent with
  | None => None
  | Some (PayOffNode _ _ _) => None
  | Some pn =>
      let '(self, pn', ctr) := PayOffNode_init pn payoff (Node_nodeid w) in
      Some (self, {| Node_nodeid := ctr; objects := assign w parent pn';
                     draws := draws w |})
  end.

(** [r.children = cs] on a decision node [r]; on a leaf it is not
    represented, as in [PayOffNode_new]. *)
Definition assign_children (r : ref) (cs : list node) (w : World)
  : option World :=
  match deref w r with
  | None => None
  | Some (PayOffNode _ _ _) => None
  | Some n =>
      Some {| Node_nodeid := Node_nodeid w;
              objects := assign w r (set_children n cs);
              draws := draws w |}
  end.

(** The statements of [TwoPlayerGame.__init__] up to [if generate:]. *)
Definition TwoPlayerGame_fields (r : ref) (c : config) (w : World)
  : TwoPlayerGame * World :=
  let w1 := set_nodeid 1 w in
  ({| root := r; cfg := c; solved := false; num_nodes := 1 |}, w1).

(** [branch]: [TwoPlayerGame(root=node, generate=False)], every other
    argument at its default; without generation the constructor ends
    after the field assignments. *)
Definition branch (self : TwoPlayerGame) (nd : ref) (w : World)
  : TwoPlayerGame * World :=
  TwoPlayerGame_fields nd default_config w.

(** ** The random source *)

(** [np.clip(x, lo, hi)], that is [minimum(hi, maximum(x, lo))]. *)
Definition np_clip (x lo hi : Z) : Z := Z.min hi (Z.max x lo).

(** [np.random.poisson(lam)] checks its argument before it draws and
    raises [ValueError] unless [0 <= lam <= POISSON_LAM_MAX]; numpy's
    bound [np.iinfo('l').max - np.sqrt(np.iinfo('l').max)*10] is the
    double 9223372006484770816.  [lam] stands for a finite float, given
    by its exact value. *)
Definition POISSON_LAM_MAX : Q := inject_Z 9223372006484770816.

Definition poisson_accepts (lam : Q) : bool :=
  Qle_bool 0 lam && Qle_bool lam POISSON_LAM_MAX.

Section generation.
(** The pseudo-random generator is an external collaborator.  The
    [k]-th draw of the process is [poisson lam k] when it is a call of
    [np.random.poisson(lam)] with an argument it accepts, and
    [choice k opts] when it is a call of [np.random.choice(opts)]. *)
Variable poisson : Q → nat → nat.
Variable choice : nat → list Z → Z.

(** ** [ActionNode.reproduce_actions] and [reproduce_payoffs] *)

(** [[ActionNode(self, next_player) for _ in range(n)]] *)
Fixpoint action_children (self : node) (next_player : Z) (n : nat) (ctr : Z)
  : list node * Z :=
  match n with
  | O => ([], ctr)
  | S n' =>
      let '(c, ctr1) := ActionNode_init self next_player ctr in
      let '(cs, ctr2) := action_children self next_player n' ctr1 in
      (c :: cs, ctr2)
  end.

(** Both methods belong to [ActionNode]; on a [PayOffNode] the
    attribute lookup fails. *)
Definition reproduce_actions (self : node) (lam : Q) (minactions maxactions : Z)
    (ctr : Z) (k : nat) : outcome (node * Z * nat) :=
  match self with
  | PayOffNode _ _ _ => Raise AttributeError
  | ActionNode _ _ player _ _ _ =>
      if poisson_accepts lam then
        let nchildren := np_clip (Z.of_nat (poisson lam k)) minactions maxactions in
        let next_player := (player + 1) `mod` 2 in
        let '(cs, ctr') :=
          action_children self next_player (Z.to_nat nchildren) ctr in
        Ok (set_children self cs, ctr', S k)
      else Raise ValueError
  end.

(** [[np.random.choice(opts) for _ in range(n)]] *)
Fixpoint draw_payoffs (opts : list Z) (n : nat) (k : nat) : list Z * nat :=
  match n with
  | O => ([], k)
  | S n' =>
      let v := choice k opts in
      let '(vs, k') := draw_payoffs opts n' (S k) in
      (v :: vs, k')
  end.

(** [[PayOffNode(self, (-v, v)) for v in payoffs0]], each constructor
    call mutating [self.children] on its way. *)
Fixpoint payoff_children (self : node) (payoffs0 : list Z) (ctr : Z)
  : list node * node * Z :=
  match payoffs0 with
  | [] => ([], self, ctr)
  | v :: vs =>
      let '(c, self1, ctr1) := PayOffNode_init self (- v, v) ctr in
      let '(cs, self2, ctr2) := payoff_children self1 vs ctr1 in
      (c :: cs, self2, ctr2)
  end.

Definition reproduce_payoffs (self : node) (lam : Q) (minpayoffs maxpayoffs : Z)
    (ties : bool) (ctr : Z) (k : nat) : outcome (node * Z * nat) :=
  match self with
  | PayOffNode _ _ _ => Raise AttributeError
  | ActionNode _ _ _ _ _ _ =>
      if poisson_accepts lam then
        let nchild := np_clip (Z.of_nat (poisson lam k)) minpayoffs maxpayoffs in
        let opts := if ties then [-1; 0; 1] else [-1; 1] in
        let '(payoffs0, k') := draw_payoffs opts (Z.to_nat nchild) (S k) in
        let '(cs, self', ctr') := payoff_children self payoffs0 ctr in
        Ok (set_children self' cs, ctr', k')
      else Raise ValueError
  end.

(** ** [TwoPlayerGame.generate] *)

(** The loop state: the tree under [self.root], the stack [nonpayoff]
    (positions, top of the stack first), the class counter, the draws
    made and [self.num_nodes]. *)
Record gen_state : Type := GenState {
  g_tree : node;
  g_nonpayoff : list (list nat);
  g_nodeid : Z;
  g_draws : nat;
  g_num_nodes : Z }.

(** The children's positions as [nonpayoff.append] leaves them: the
    last child on top. *)
Definition push_children (p : list nat) (n : nat) (stack : list (list nat))
  : list (list nat) :=
  rev (map (λ i, p ++ [i]) (seq 0 n)) ++ stack.

(** One turn of [while len(nonpayoff) > 0]. [None]: the position does
    not exist in the tree. *)
Definition generate_step (c : config) (p : list nat) (st : gen_state)
  : option (outcome gen_state) :=
  match get_node (g_tree st) p with
  | None => None
  | Some nd =>
      if decide (depth nd < maxdepth c - 1) then
        match reproduce_actions nd (lam c) (minactions c) (maxactions c)
                (g_nodeid st) (g_draws st) with
        | Raise e => Some (Raise e)
        | Ok (nd', ctr', k') =>
            let n := length (children nd') in
            Some (Ok {| g_tree := put_node (g_tree st) p nd';
                        g_nonpayoff := push_children p n (g_nonpayoff st);
                        g_nodeid := ctr';
                        g_draws := k';
                        g_num_nodes := g_num_nodes st + Z.of_nat n |})
        end
      else
        match reproduce_payoffs nd (lam c) (minpayoffs c) (maxpayoffs c) (ties c)
                (g_nodeid st) (g_draws st) with
        | Raise e => Some (Raise e)
        | Ok (nd', ctr', k') =>
            Some (Ok {| g_tree := put_node (g_tree st) p nd';
                        g_nonpayoff := g_nonpayoff st;
                        g_nodeid := ctr';
                        g_draws := k';
                        g_num_nodes :=
                          g_num_nodes st + Z.of_nat (length (children nd')) |})
        end
  end.

(** The loop, bounded by [fuel] turns; [None] when they do not suffice. *)
Fixpoint generate_loop (fuel : nat) (c : config) (st : gen_state)
  : option (outcome gen_state) :=
  match g_nonpayoff st with
  | [] => Some (Ok st)
  | p :: stack =>
      match fuel with
      | O => None
      | S fuel' =>
          match generate_step c p
                  {| g_tree := g_tree st; g_nonpayoff := stack;
                     g_nodeid := g_nodeid st; g_draws := g_draws st;
                     g_num_nodes := g_num_nodes st |} with
          | None => None
          | Some (Raise e) => Some (Raise e)
          | Some (Ok st') => generate_loop fuel' c st'
          end
      end
  end.

Definition generate (fuel : nat) (g : TwoPlayerGame) (w : World)
  : option (outcome (TwoPlayerGame * World)) :=
  match deref w (root g) with
  | None => None
  | Some t =>
      match generate_loop fuel (cfg g)
              {| g_tree := t; g_nonpayoff := [[]];
                 g_nodeid := Node_nodeid w; g_draws := draws w;
                 g_num_nodes := num_nodes g |} with
      | None => None
      | Some (Raise e) => Some (Raise e)
      | Some (Ok st) =>
          Some (Ok ({| root := root g; cfg := cfg g; solved := solved g;
                       num_nodes := g_num_nodes st |},
                    {| Node_nodeid := g_nodeid st;
                       objects := assign w (root g) (g_tree st);
                       draws := g_draws st |}))
      end
  end.

(** ** The loop, one open node at a time *)

(** The stack is last-in first-out, so once a node is popped the loop
    finishes everything below it before it touches the rest of the
    stack, the last child first.  [expand h] describes the subtree and
    the counters this leaves, for a node at most [h] levels above the
    depth bound; lemmas [loop_expand] and [generate_loop_result] prove the loop does
    exactly this. *)
Fixpoint expand_children
    (f : node → Z → nat → Z → option (node * Z * nat * Z))
    (cs : list node) (ctr : Z) (k : nat) (num : Z)
  : option (list node * Z * nat * Z) :=
  match cs with
  | [] => Some ([], ctr, k, num)
  | x :: rest =>
      match expand_children f rest ctr k num with
      | None => None
      | Some (rest', ctr1, k1, num1) =>
          match f x ctr1 k1 num1 with
          | None => None
          | Some (x', ctr2, k2, num2) => Some (x' :: rest', ctr2, k2, num2)
          end
      end
  end.

Fixpoint expand (h : nat) (c : config) (nd : node) (ctr : Z) (k : nat)
    (num : Z) : option (node * Z * nat * Z) :=
  if decide (depth nd < maxdepth c - 1) then
    match h with
    | O => None
    | S h' =>
        match reproduce_actions nd (lam c) (minactions c) (maxactions c) ctr k with
        | Raise _ => None
        | Ok (nd', ctr', k') =>
            let n := length (children nd') in
            match expand_children (expand h' c) (children nd') ctr' k'
                    (num + Z.of_nat n) with
            | None => None
            | Some (cs', ctr'', k'', num'') =>
                Some (set_children nd' cs', ctr'', k'', num'')
            end
        end
    end
  else
    match reproduce_payoffs nd (lam c) (minpayoffs c) (maxpayoffs c) (ties c)
            ctr k with
    | Raise _ => None
    | Ok (nd', ctr', k') =>
        Some (nd', ctr', k', num + Z.of_nat (length (children nd')))
    end.

(** ** [TwoPlayerGame.__init__] *)

Definition TwoPlayerGame_init (fuel : nat) (r : ref) (c : config)
    (gen : bool) (w : World) : option (outcome (TwoPlayerGame * World)) :=
  let '(self, w1) := TwoPlayerGame_fields r c w in
  if gen then generate fuel self w1 else Some (Ok (self, w1)).
End generation.

(** ** [TwoPlayerGame.solve] on a game object *)

Definition set_solved (self : TwoPlayerGame) (b : bool) : TwoPlayerGame :=
  {| root := root self; cfg := cfg self; solved := b;
     num_nodes := num_nodes self |}.

(** The tree under [self.root] is mutated in place, whether the call
    returns or raises; [self.solved = True] is the last statement. *)
Definition solve (self : TwoPlayerGame) (w : World)
  : option (TwoPlayerGame * World * outcome unit) :=
  match deref w (root self) with
  | None => None
  | Some nd =>
      let '(nd', ctr', r) := solve_node nd (Node_nodeid w) in
      let w' := {| Node_nodeid := ctr';
                   objects := assign w (root self) nd';
                   draws := draws w |} in
      match r with
      | Raise e => Some (self, w', Raise e)
      | Ok _ => Some (set_solved self true, w', Ok ())
      end
  end.

(** ** [TwoPlayerGame.valuemap] *)

(** Every node object of the subtree under [n], [n] first. *)
Fixpoint subnodes (n : node) : list node :=
  match n with
  | ActionNode _ _ _ _ _ cs => n :: concat (map subnodes cs)
  | PayOffNode _ _ _ => [n]
  end.

(** The entry written for [curr]: [curr.payoff[playerid]] or
    [curr.value[playerid]]. *)
Definition node_entry (curr : node) (playerid : Z) : option pynum :=
  match curr with
  | PayOffNode _ _ pay => Int <$> tuple_get pay playerid
  | ActionNode _ _ _ _ v _ => tuple_get v playerid
  end.

(** The [while len(to_visit) > 0] loop; [to_visit] is kept with the top
    of the stack first.  [None] when [fuel] turns do not suffice. *)
Fixpoint valuemap_loop (fuel : nat) (playerid : Z) (to_visit : list node)
    (valuemap : gmap Z pynum) : option (outcome (gmap Z pynum)) :=
  match to_visit with
  | [] => Some (Ok valuemap)
  | curr :: rest =>
      match fuel with
      | O => None
      | S fuel' =>
          let to_visit' := rev (children curr) ++ rest in
          match node_entry curr playerid with
          | None => Some (Raise IndexError)
          | Some x =>
              valuemap_loop fuel' playerid to_visit' (<[nodeid curr := x]> valuemap)
          end
      end
  end.

Definition valuemap (self : TwoPlayerGame) (w : World) (playerid : Z)
  : option (outcome (gmap Z pynum)) :=
  if solved self then
    match deref w (root self) with
    | None => None
    | Some curr =>
        match curr with
        | PayOffNode _ _ _ => Some (Raise AttributeError)
        | ActionNode i _ _ _ v cs =>
            match tuple_get v playerid with
            | None => Some (Raise IndexError)
            | Some x =>
                valuemap_loop (length (subnodes curr)) playerid (rev cs) (<[i := x]> ∅)
            end
        end
    end
  else Some (Raise AssertionError).

(** ** Vocabulary for the properties *)

(** The integers an [int64] array holds. *)
Definition int64 (z : Z) : Prop := - 2 ^ 63 ≤ z < 2 ^ 63.

Definition int64_leaf (n : node) : Prop :=
  match n with
  | PayOffNode _ _ pay => int64 pay.1 ∧ int64 pay.2
  | ActionNode _ _ _ _ _ _ => True
  end.

(** Every payoff of the tree is an [int64]. *)
Definition payoffs_int64 (t : node) : Prop :=
  Forall int64_leaf (subnodes t).

(** A decision node that has no child. *)
Definition degenerate (n : node) : bool :=
  match n with
  | ActionNode _ _ _ _ _ [] => true
  | _ => false
  end.

Definition every_decision_has_child (t : node) : Prop :=
  Forall (λ n, degenerate n = false) (subnodes t).

(** The acting player of a decision node is 0 or 1. *)
Definition binary_player (n : node) : bool :=
  match n with
  | ActionNode _ _ p _ _ _ => bool_decide (p = 0 ∨ p = 1)
  | PayOffNode _ _ _ => true
  end.

Definition players_binary (t : node) : Prop :=
  Forall (λ n, binary_player n = true) (subnodes t).

Definition int_pair (v : pynum * pynum) : Prop :=
  ∃ a b : Z, v = (Int a, Int b).

(** What a solved decision node stores: [decision] is the first index
    whose child value pair is greatest in the acting player's component,
    [value] is that child's value pair, and no child offers the acting
    player more. *)
Definition best_reply (n : node) : Prop :=
  match n with
  | PayOffNode _ _ _ => True
  | ActionNode _ _ p dec v cs =>
      ∃ (k : nat) (c : node) (m : Z),
        dec = Int (Z.of_nat k) ∧ cs !! k = Some c ∧ v = value_of c ∧
        tuple_get v p = Some (Int m) ∧
        ∀ (j : nat) (c' : node), cs !! j = Some c' →
          ∃ x : Z, tuple_get (value_of c') p = Some (Int x) ∧
                   x ≤ m ∧ ((j < k)%nat → x < m)
  end.

(** The subtree as [solve] leaves it, and how the call ends.  The class
    counter does not influence either (lemma [solve_node_counter]). *)
Definition after_solve (n : node) : node := (solve_node n 1).1.1.

Definition solve_outcome (n : node) : outcome unit := (solve_node n 1).2.

Definition has_degenerate (t : node) : Prop :=
  Exists (λ n, degenerate n = true) (subnodes t).

(** The scenario of a root handed two leaves by the caller:
    [g = TwoPlayerGame(generate=False)], [a = PayOffNode(g.root, (1, -1))],
    [b = PayOffNode(g.root, (-1, 1))], [g.root.children = [a, b]]. *)
Definition two_leaf_game : option (TwoPlayerGame * World) :=
  let '(g, w1) := TwoPlayerGame_fields default_root default_config module_loaded in
  match PayOffNode_new (root g) (1, -1) w1 with
  | None => None
  | Some (a, w2) =>
      match PayOffNode_new (root g) (-1, 1) w2 with
      | None => None
      | Some (b, w3) =>
          match assign_children (root g) [a; b] w3 with
          | None => None
          | Some w4 => Some (g, w4)
          end
      end
  end.

(** A game over the default root, not generated: its root has no child. *)
Definition childless_game : TwoPlayerGame * World :=
  TwoPlayerGame_fields default_root default_config module_loaded.

(** The same scenario without the final assignment: each constructor
    call has overwritten [g.root.children]. *)
Definition last_leaf_game : option (TwoPlayerGame * World) :=
  let '(g, w1) := TwoPlayerGame_fields default_root default_config module_loaded in
  match PayOffNode_new (root g) (1, -1) w1 with
  | None => None
  | Some (a, w2) =>
      match PayOffNode_new (root g) (-1, 1) w2 with
      | None => None
      | Some (b, w3) => Some (g, w3)
      end
  end.

(** The game and the process [two_leaf_game] ends in, and the process
    after [solve]. *)
Definition two_leaf_obj : TwoPlayerGame :=
  {| root := default_root; cfg := default_config; solved := false;
     num_nodes := 1 |}.

Definition two_leaf_leaves : list node :=
  [PayOffNode 1 1 (1, -1); PayOffNode 2 1 (-1, 1)].

Definition two_leaf_world : World :=
  {| Node_nodeid := 3;
     objects := [ActionNode 0 0 0 NaN (NaN, NaN) two_leaf_leaves];
     draws := 0 |}.

Definition two_leaf_solved : World :=
  {| Node_nodeid := 3;
     objects := [ActionNode 0 0 0 (Int 0) (Int 1, Int (-1)) two_leaf_leaves];
     draws := 0 |}.

(** A tree whose second subtree is a dead end: the first child of the
    root is a decision node over two leaves, the second has no child. *)
Definition dead_end_tree : node :=
  ActionNode 0 0 0 NaN (NaN, NaN)
    [ActionNode 1 1 1 NaN (NaN, NaN)
       [PayOffNode 3 2 (1, -1); PayOffNode 4 2 (-1, 1)];
     ActionNode 2 1 1 NaN (NaN, NaN) []].

Definition dead_end_world : World :=
  {| Node_nodeid := 5; objects := [dead_end_tree]; draws := 0 |}.

Definition dead_end_game : TwoPlayerGame :=
  {| root := default_root; cfg := default_config; solved := false;
     num_nodes := 5 |}.

(** The node objects strictly below [n]. *)
Definition descendants (n : node) : list node :=
  concat (subnodes <$> children n).

(** Two fixed random sources, for the examples. *)
Definition poisson_two : Q → nat → nat := λ _ _, 2%nat.

Definition poisson_zero : Q → nat → nat := λ _ _, 0%nat.

Definition choice_first : nat → list Z → Z := λ _ opts, hd 0 opts.

(** A leaf whose payoff pair is [(-v, v)] for one of the values
    [reproduce_payoffs] draws from. *)
Definition drawn_payoff (ties : bool) (n : node) : Prop :=
  match n with
  | PayOffNode _ _ pay =>
      ∃ v : Z, v ∈ (if ties then [-1; 0; 1] else [-1; 1] : list Z) ∧ pay = (- v, v)
  | ActionNode _ _ _ _ _ _ => True
  end.

(** The children of a decision node are all leaves, or all decision
    nodes of the other player; either way one level deeper. *)
Definition unmixed_alternating (n : node) : Prop :=
  match n with
  | PayOffNode _ _ _ => True
  | ActionNode _ d p _ _ cs =>
      Forall (λ x, ∃ i pay, x = PayOffNode i (d + 1) pay) cs ∨
      Forall (λ x, ∃ i dec v cs',
                x = ActionNode i (d + 1) ((p + 1) `mod` 2) dec v cs') cs
  end.

(** The random source returns one of the options it is given. *)
Definition choice_sound (choice : nat → list Z → Z) : Prop :=
  ∀ (k : nat) (opts : list Z), opts ≠ [] → choice k opts ∈ opts.

(** A configuration with depth bound 2, otherwise the defaults, and the
    game object a constructor call builds over the default root. *)
Definition small_config : config :=
  {| lam := 2%Q; maxdepth := 2; minactions := 0; maxactions := 99;
     minpayoffs := 2; maxpayoffs := 99; ties := false |}.

Definition small_game : TwoPlayerGame * World :=
  TwoPlayerGame_fields default_root small_config module_loaded.

(** What [generate] makes of [small_game] with two children at every
    draw and the first option at every choice. *)
Definition small_tree : node :=
  ActionNode 0 0 0 NaN (NaN, NaN)
    [ActionNode 1 1 1 NaN (NaN, NaN)
       [PayOffNode 5 2 (1, -1); PayOffNode 6 2 (1, -1)];
     ActionNode 2 1 1 NaN (NaN, NaN)
       [PayOffNode 3 2 (1, -1); PayOffNode 4 2 (1, -1)]].

Definition small_generated : TwoPlayerGame * World :=
  ({| root := default_root; cfg := small_config; solved := false;
      num_nodes := 7 |},
   {| Node_nodeid := 7; objects := [small_tree]; draws := 7 |}).

(** Depth bound 1 and exactly one payoff branch: the root and one leaf. *)
Definition one_leaf_config : config :=
  {| lam := 2%Q; maxdepth := 1; minactions := 0; maxactions := 99;
     minpayoffs := 1; maxpayoffs := 1; ties := false |}.

(** A second construction over the default root, after [small_generated]. *)
Definition one_leaf_generated : TwoPlayerGame * World :=
  ({| root := default_root; cfg := one_leaf_config; solved := false;
      num_nodes := 2 |},
   {| Node_nodeid := 2;
      objects := [ActionNode 0 0 0 NaN (NaN, NaN) [PayOffNode 1 1 (1, -1)]];
      draws := 9 |}).

(** [one_leaf_generated] after [solve]. *)
Definition one_leaf_solved : TwoPlayerGame * World :=
  ({| root := default_root; cfg := one_leaf_config; solved := true;
      num_nodes := 2 |},
   {| Node_nodeid := 2;
      objects := [ActionNode 0 0 0 (Int 0) (Int 1, Int (-1))
                    [PayOffNode 1 1 (1, -1)]];
      draws := 9 |}).

(** The same two-node game built over a root of the caller's:
    [r = GameRootNode()] in a fresh process, then
    [TwoPlayerGame(root=r, maxdepth=1, minpayoffs=1, maxpayoffs=1)] and
    [solve()]. *)
Definition own_root_solved
  : option (TwoPlayerGame * World * outcome unit) :=
  let '(r, w) := GameRootNode_new module_loaded in
  match TwoPlayerGame_init poisson_two choice_first 8 r one_leaf_config true w with
  | Some (Ok (g, w1)) => solve g w1
  | _ => None
  end.

Definition own_root_tree : node :=
  ActionNode 1 0 0 (Int 0) (Int 1, Int (-1)) [PayOffNode 1 1 (1, -1)].

(** The tree without its annotations. *)
Fixpoint erase (n : node) : node :=
  match n with
  | ActionNode i d p _ _ cs => ActionNode i d p NaN (NaN, NaN) (map erase cs)
  | PayOffNode _ _ _ => n
  end.

(** * The printers *)

(** ** Text *)

Definition newline : string := String (Ascii.ascii_of_nat 10) "".

(** [s * n]: [n] copies of [s], none when [n <= 0]. *)
Definition str_repeat (s : string) (n : Z) : string :=
  Nat.iter (Z.to_nat n) (λ acc, s +:+ acc) ""%string.

(** [str] of a number held in an annotation. *)
Definition format_num (x : pynum) : string :=
  match x with
  | NaN => "nan"
  | Int z => pretty z
  end.

(** What the printers can raise: the exceptions of [exn], and
    [TypeError]: [np.isnan] of a Python int numpy cannot hold in a
    64-bit array element, or a list subscripted with a float
    ([np.nan]). *)
Inductive print_exn : Type :=
| Of_exn (e : exn)
| TypeError.

(** [np.isnan(x)] for [np.nan] or an integer.  numpy takes an integer as
    an [int64], or as a [uint64] when it is too large for that; an
    integer outside both becomes an object, for which [isnan] is not
    defined. *)
Definition np_isnan (x : pynum) : print_exn + bool :=
  match x with
  | NaN => inr true
  | Int z => if bool_decide (- 2 ^ 63 ≤ z < 2 ^ 64) then inr false
             else inl TypeError
  end.

(** [ActionNode.__repr__]; [np.isnan] is asked of [decision], then of
    [value[0]]. *)
Definition ActionNode_repr (nodeid player : Z) (decision : pynum)
    (value : pynum * pynum) : print_exn + string :=
  match np_isnan decision with
  | inl e => inl e
  | inr decision_nan =>
      let decision_str :=
        if decision_nan : bool then ""
        else "selected: " +:+ format_num decision in
      match np_isnan value.1 with
      | inl e => inl e
      | inr value_nan =>
          let value_str :=
            if value_nan : bool then ""
            else "value: (" +:+ format_num value.1 +:+ ", "
                 +:+ format_num value.2 +:+ ")" in
          inr ("Action(id: " +:+ pretty nodeid +:+ ", player: "
               +:+ pretty player +:+ ", " +:+ decision_str +:+ ", "
               +:+ value_str +:+ ")")
      end
  end.

(** [PayOffNode.__repr__] *)
Definition PayOffNode_repr (nodeid : Z) (payoff : Z * Z) : string :=
  "PayOff(id: " +:+ pretty nodeid +:+ ", value: (" +:+ pretty payoff.1 +:+ ", "
  +:+ pretty payoff.2 +:+ "))".

(** [str(node)] *)
Definition node_repr (n : node) : print_exn + string :=
  match n with
  | ActionNode i _ p dec v _ => ActionNode_repr i p dec v
  | PayOffNode i _ pay => inr (PayOffNode_repr i pay)
  end.

(** [TwoPlayerGame.__repr__] *)
Definition TwoPlayerGame_repr (self : TwoPlayerGame) : string :=
  "Tree with " +:+ pretty (num_nodes self) +:+ " nodes".

(** ** [TwoPlayerGame.__str__] *)

(** [indent * node.depth + str(node) + '\n'] *)
Definition node_line (indent : string) (n : node) : print_exn + string :=
  match node_repr n with
  | inl e => inl e
  | inr r => inr (str_repeat indent (depth n) +:+ r +:+ newline)
  end.

(** The line [__str__] emits for the root of a (branch) game. *)
Definition str_line (n : node) : print_exn + string := node_line ":-" n.

(** [for child in children: strout += self.branch(child).__str__()];
    every [branch] resets the class counter. *)
Section str_children.
Variable str_sub : node → Z → (print_exn + string) * Z.

Fixpoint str_children (cs : list node) (strout : string) (ctr : Z)
  : (print_exn + string) * Z :=
  match cs with
  | [] => (inr strout, ctr)
  | child :: rest =>
      match str_sub child 1 with
      | (inl e, ctr1) => (inl e, ctr1)
      | (inr s, ctr1) => str_children rest (strout +:+ s) ctr1
      end
  end.
End str_children.

(** [__str__] on the subtree under [self.root], threading the class
    counter; an exception leaves the counter where it was. *)
Fixpoint str_node (n : node) (ctr : Z) : (print_exn + string) * Z :=
  match n with
  | PayOffNode _ _ _ => (str_line n, ctr)
  | ActionNode _ _ _ _ _ cs =>
      match str_line n with
      | inl e => (inl e, ctr)
      | inr strout => str_children str_node cs strout ctr
      end
  end.

Definition TwoPlayerGame_str (self : TwoPlayerGame) (w : World)
  : option ((print_exn + string) * World) :=
  match deref w (root self) with
  | None => None
  | Some nd =>
      let '(s, ctr) := str_node nd (Node_nodeid w) in
      Some (s, set_nodeid ctr w)
  end.

(** ** [TwoPlayerGame.print_solution_path] *)

(** [l[z]] for an integer [z]: counted from the end when negative. *)
Definition py_index (len : nat) (z : Z) : option nat :=
  if decide (0 ≤ z) then
    if decide (z < Z.of_nat len) then Some (Z.to_nat z) else None
  else
    if decide (0 ≤ Z.of_nat len + z) then Some (Z.to_nat (Z.of_nat len + z))
    else None.

(** The loop goes on in the child at index [k]. *)
Section at_child.
Context {A : Type}.
Variable go : node → A.
Variable index_error : A.

Fixpoint at_child (cs : list node) (k : nat) : A :=
  match cs with
  | [] => index_error
  | c :: rest =>
      match k with
      | O => go c
      | S k' => at_child rest k'
      end
  end.
End at_child.

(** [while not isinstance(node, PayOffNode)]: the text so far and the
    node reached. *)
Fixpoint solution_path_loop (n : node) (s : string)
  : print_exn + (string * node) :=
  match n with
  | PayOffNode _ _ _ => inr (s, n)
  | ActionNode _ _ _ dec _ cs =>
      match dec with
      | NaN => inl TypeError
      | Int z =>
          match py_index (length cs) z with
          | None => inl (Of_exn IndexError)
          | Some k =>
              at_child
                (λ c s, match node_line ":-" c with
                        | inl e => inl e
                        | inr l => solution_path_loop c (s +:+ l)
                        end)
                (λ _, inl (Of_exn IndexError)) cs k s
          end
      end
  end.

(** The last line: who wins at the leaf reached. *)
Definition verdict (payoff : Z * Z) : string :=
  if decide (payoff.2 < payoff.1) then "Player 0 wins"
  else if decide (payoff.1 < payoff.2) then "Player 1 wins"
  else "Player 0 and 1 draw".

(** The text [print_solution_path] prints. *)
Definition print_solution_path (self : TwoPlayerGame) (w : World)
  : option (print_exn + string) :=
  if solved self then
    match deref w (root self) with
    | None => None
    | Some nd =>
        match node_line "  " nd with
        | inl e => Some (inl e)
        | inr s =>
            match solution_path_loop nd s with
            | inl e => Some (inl e)
            | inr (s', PayOffNode _ _ pay) => Some (inr (s' +:+ verdict pay))
            | inr (_, ActionNode _ _ _ _ _ _) =>
                Some (inl (Of_exn AttributeError))
            end
        end
    end
  else Some (inl (Of_exn AssertionError)).

(** * Vocabulary for further properties *)

(** The acting player is a valid subscript of a pair (-2, -1, 0 or 1). *)
Definition indexable_player (n : node) : bool :=
  match n with
  | ActionNode _ _ p _ _ _ => bool_decide (-2 ≤ p ≤ 1)
  | PayOffNode _ _ _ => true
  end.

Definition players_indexable (t : node) : Prop :=
  Forall (λ n, indexable_player n = true) (subnodes t).

(** Some child of [n] is a decision node. *)
Definition has_decision_child (n : node) : bool :=
  existsb (λ c, negb (is_payoff c)) (children n).

Definition zero_sum_leaf (n : node) : Prop :=
  match n with
  | PayOffNode _ _ pay => pay.1 = - pay.2
  | ActionNode _ _ _ _ _ _ => True
  end.

(** A decision node stores a zero-sum pair that one of its children
    offers; no child offers player 0 more when player 0 acts (subscript
    0 or -2), none offers player 0 less when player 1 acts. *)
Definition minimax_node (n : node) : Prop :=
  match n with
  | PayOffNode _ _ _ => True
  | ActionNode _ _ p _ v cs =>
      ∃ a : Z, v = (Int a, Int (- a)) ∧
        (∃ c, c ∈ cs ∧ value_of c = v) ∧
        ∀ c, c ∈ cs →
          ∃ x : Z, value_of c = (Int x, Int (- x)) ∧
                   if decide (p = 0 ∨ p = -2) then x ≤ a else a ≤ x
  end.

(** The annotations [np.isnan] accepts. *)
Definition isnan_accepts (x : pynum) : bool :=
  match x with
  | NaN => true
  | Int z => bool_decide (- 2 ^ 63 ≤ z < 2 ^ 64)
  end.

(** A node whose [repr] does not raise. *)
Definition printable (n : node) : bool :=
  match n with
  | ActionNode _ _ _ dec v _ => isnan_accepts dec && isnan_accepts v.1
  | PayOffNode _ _ _ => true
  end.

(** The annotations that are [np.nan] or an [int64], and the nodes
    that hold no other. *)
Definition int64_num (x : pynum) : bool :=
  match x with
  | NaN => true
  | Int z => bool_decide (- 2 ^ 63 ≤ z < 2 ^ 63)
  end.

Definition printable64 (n : node) : bool :=
  match n with
  | ActionNode _ _ _ dec v _ => int64_num dec && int64_num v.1
  | PayOffNode _ _ _ => true
  end.

(** The lines [ls], one after the other. *)
Definition join_lines (ls : list string) : string :=
  foldr (λ l acc, l +:+ acc) ""%string ls.

(** No child list is longer than a Python list can be
    ([sys.maxsize] items). *)
Definition lists_fit (t : node) : Prop :=
  Forall (λ n, Z.of_nat (length (children n)) < 2 ^ 63) (subnodes t).

(** The game and the process [own_root_solved] ends in. *)
Definition own_root_game : TwoPlayerGame :=
  {| root := (1%nat, []); cfg := one_leaf_config; solved := true;
     num_nodes := 2 |}.

Definition own_root_world : World :=
  {| Node_nodeid := 2;
     objects := [ActionNode 0 0 0 NaN (NaN, NaN) []; own_root_tree];
     draws := 2 |}.

(** * What a generation pass leaves *)

(** A node the solver has not written to. *)
Definition unannotated (n : node) : Prop :=
  match n with
  | ActionNode _ _ _ dec v _ => dec = NaN ∧ v = (NaN, NaN)
  | PayOffNode _ _ _ => True
  end.

(** [range(np.clip(x, lo, hi))] for some drawn [x]. *)
Definition clamped_count (lo hi : Z) (n : nat) : Prop :=
  ∃ x : nat, n = Z.to_nat (np_clip (Z.of_nat x) lo hi).

(** A node as [generate] leaves it under configuration [c]: above the
    depth bound its children are the decision nodes of the other player
    that [reproduce_actions] created, from the bound on they are the
    leaves of [reproduce_payoffs]; either way one level deeper, and as
    many as a clamped draw. *)
Definition generated_node (c : config) (n : node) : Prop :=
  match n with
  | PayOffNode _ _ _ => True
  | ActionNode _ d p _ _ cs =>
      if decide (d < maxdepth c - 1) then
        clamped_count (minactions c) (maxactions c) (length cs) ∧
        Forall (λ x, ∃ i cs', x = ActionNode i (d + 1) ((p + 1) `mod` 2)
                                  NaN (NaN, NaN) cs') cs
      else
        clamped_count (minpayoffs c) (maxpayoffs c) (length cs) ∧
        Forall (λ x, ∃ i v, x = PayOffNode i (d + 1) (- v, v)) cs
  end.

(** The branching bounds of a configuration are [int64]s, so that
    [np.clip] compares them with the draw inside one integer type. *)
Definition bounds_int64 (c : config) : Prop :=
  int64 (minactions c) ∧ int64 (maxactions c) ∧
  int64 (minpayoffs c) ∧ int64 (maxpayoffs c).

(** The number of children [np.clip] allows between [lo] and [hi]: when
    the bounds are crossed the upper one is taken. *)
Definition clamped_range (lo hi : Z) (n : nat) : Prop :=
  (lo ≤ hi → Z.max 0 lo ≤ Z.of_nat n ≤ Z.max 0 hi) ∧
  (hi < lo → Z.of_nat n = Z.max 0 hi).

(** A configuration that asks for at least one branch everywhere, and
    the game generated from it over the default root with two children
    at every draw and the first option at every choice. *)
Definition branching_config : config :=
  {| lam := 2%Q; maxdepth := 2; minactions := 1; maxactions := 99;
     minpayoffs := 1; maxpayoffs := 99; ties := false |}.

Definition branching_game : TwoPlayerGame * World :=
  TwoPlayerGame_fields default_root branching_config module_loaded.

Definition branching_generated : TwoPlayerGame * World :=
  ({| root := default_root; cfg := branching_config; solved := false;
      num_nodes := 7 |},
   {| Node_nodeid := 7; objects := [small_tree]; draws := 7 |}).

(** The process after a second game has been constructed over the
    default root of the solved [one_leaf_solved]:
    [TwoPlayerGame(maxdepth=2, minactions=1, minpayoffs=1)]. *)
Definition regenerated_world : World :=
  {| Node_nodeid := 7;
     objects := [ActionNode 0 0 0 (Int 0) (Int 1, Int (-1)) (children small_tree)];
     draws := 16 |}.

(** [branching_generated] after a second call of [generate] on the same
    game. *)
Definition regenerated_tree : node :=
  ActionNode 0 0 0 NaN (NaN, NaN)
    [ActionNode 7 1 1 NaN (NaN, NaN)
       [PayOffNode 11 2 (1, -1); PayOffNode 12 2 (1, -1)];
     ActionNode 8 1 1 NaN (NaN, NaN)
       [PayOffNode 9 2 (1, -1); PayOffNode 10 2 (1, -1)]].

Definition branching_regenerated : TwoPlayerGame * World :=
  ({| root := default_root; cfg := branching_config; solved := false;
      num_nodes := 13 |},
   {| Node_nodeid := 13; objects := [regenerated_tree]; draws := 14 |}).

(** The game and the process before [own_root_game] is solved. *)
Definition own_root_generated : TwoPlayerGame * World :=
  ({| root := (1%nat, []); cfg := one_leaf_config; solved := false;
      num_nodes := 2 |},
   {| Node_nodeid := 2;
      objects := [ActionNode 0 0 0 NaN (NaN, NaN) [];
                  ActionNode 1 0 0 NaN (NaN, NaN) [PayOffNode 1 1 (1, -1)]];
      draws := 2 |}).

(** * Properties *)

(** ** [np.argmax] on integers *)

Lemma argmax_from_ints (zs : list Z) : ∀ (best_i i : nat) (b : Z),
  (best_i < i)%nat →
  ∃ (k : nat) (m : Z),
    argmax_from best_i (Int b) i (Int <$> zs) = k ∧
    b ≤ m ∧ Forall (λ z, z ≤ m) zs ∧
    ((k = best_i ∧ m = b) ∨
     (∃ j, k = (i + j)%nat ∧ zs !! j = Some m ∧ b < m ∧
           ∀ j' z, (j' < j)%nat → zs !! j' = Some z → z < m)).
Proof.
  induction zs as [|z zs IH]; intros best_i i b Hlt; simpl.
  - exists best_i, b. split_and!; [done | lia | constructor | by left].
  - case_bool_decide as Hz.
    + destruct (IH i (S i) z ltac:(lia)) as (k & m & Hk & Hm & Hall & Hcase).
      exists k, m. split_and!; [done | lia | |].
      { constructor; [lia | done]. }
      right. destruct Hcase as [[-> ->] | (j & -> & Hj & Hzm & Hfirst)].
      * exists 0%nat. split_and!; [lia | done | done |]. intros; lia.
      * exists (S j). split_and!; [lia | done | lia |].
        intros [|j'] z' Hj' Hz'; simpl in Hz'.
        -- inversion Hz'; subst. lia.
        -- eapply Hfirst; [|done]. lia.
    + destruct (IH best_i (S i) b ltac:(lia)) as (k & m & Hk & Hm & Hall & Hcase).
      exists k, m. split_and!; [done | done | |].
      { constructor; [lia | done]. }
      destruct Hcase as [[-> ->] | (j & -> & Hj & Hbm & Hfirst)].
      * by left.
      * right. exists (S j). split_and!; [lia | done | done |].
        intros [|j'] z' Hj' Hz'; simpl in Hz'.
        -- inversion Hz'; subst. lia.
        -- eapply Hfirst; [|done]. lia.
Qed.

(** On a non-empty list of integers [np.argmax] returns the first index
    holding the maximum. *)
Lemma np_argmax_ints (zs : list Z) :
  zs ≠ [] →
  ∃ (k : nat) (m : Z),
    np_argmax (Int <$> zs) = Ok k ∧ zs !! k = Some m ∧
    Forall (λ z, z ≤ m) zs ∧
    ∀ j z, (j < k)%nat → zs !! j = Some z → z < m.
Proof.
  destruct zs as [|b zs]; [done | intros _]. simpl.
  destruct (argmax_from_ints zs 0 1 b ltac:(lia)) as (k & m & Hk & Hm & Hall & Hcase).
  exists k, m. split_and!; [f_equal; exact Hk | | |].
  - destruct Hcase as [[-> ->] | (j & -> & Hj & _)]; done.
  - constructor; done.
  - destruct Hcase as [[-> ->] | (j & -> & Hj & Hbm & Hfirst)]; [intros; lia |].
    intros [|j'] z Hj' Hz; simpl in Hz.
    + inversion Hz; subst. done.
    + eapply Hfirst; [|done]. lia.
Qed.

(** ** The solver *)

Lemma outcome_map_Ok {A B} (f : A → B) (o : outcome A) (b : B) :
  outcome_map f o = Ok b → ∃ a, o = Ok a ∧ b = f a.
Proof. destruct o; simpl; intros H; inversion H; eauto. Qed.

(** The loop over the children, when it ends normally: the collected
    pairs are those of the children as they stand, child by child. *)
Lemma solve_children_Ok (Q : node → Prop) (cs : list node) :
  Forall (λ c, ∀ ctr c' ctr', solve_node c ctr = (c', ctr', Ok ()) → Q c') cs →
  ∀ ctr cs' ctr' vals,
    solve_children solve_node cs ctr = (cs', ctr', Ok vals) →
    vals = value_of <$> cs' ∧ Forall Q cs' ∧ length cs' = length cs.
Proof.
  induction 1 as [|c cs Hc _ IH]; intros ctr cs' ctr' vals Hs; simpl in Hs.
  - inversion Hs; subst. by split_and!.
  - destruct c as [i d p dec v gs | i d pay].
    + destruct (solve_node (ActionNode i d p dec v gs) 1) as [[c1 ctr1] r1] eqn:E1.
      destruct r1 as [[]|e]; [|by inversion Hs].
      destruct (solve_children solve_node cs ctr1) as [[rest' ctr2] r2] eqn:E2.
      inversion Hs as [[Hcs Hctr Hr]]; subst.
      apply outcome_map_Ok in Hr as (vs & -> & ->).
      destruct (IH _ _ _ _ E2) as (-> & HQ & Hlen).
      split_and!; [done | | simpl; lia].
      constructor; [by eapply Hc | done].
    + destruct (solve_children solve_node cs ctr) as [[rest' ctr2] r2] eqn:E2.
      inversion Hs as [[Hcs Hctr Hr]]; subst.
      apply outcome_map_Ok in Hr as (vs & -> & ->).
      destruct (IH _ _ _ _ E2) as (-> & HQ & Hlen).
      split_and!; [done | | simpl; lia].
      constructor; [by eapply (Hc ctr) | done].
Qed.

Lemma tuple_get_int_pair (v : pynum * pynum) (p : Z) (x : pynum) :
  int_pair v → tuple_get v p = Some x → ∃ z, x = Int z.
Proof.
  intros (a & b & ->). unfold tuple_get.
  repeat case_decide; intros [= <-]; eauto.
Qed.

Lemma column_ints (vals : list (pynum * pynum)) (p : Z) (col : list pynum) :
  Forall int_pair vals → column vals p = Some col →
  ∃ zs : list Z, col = Int <$> zs ∧
    ∀ j v, vals !! j = Some v →
      ∃ x, zs !! j = Some x ∧ tuple_get v p = Some (Int x).
Proof.
  intros Hall. revert col.
  induction Hall as [|v vals Hv _ IH]; intros col Hcol; simpl in Hcol.
  - inversion Hcol; subst. exists []. split; [done | intros j v Hj; done].
  - destruct (tuple_get v p) as [x|] eqn:Hx; [|done].
    destruct (column vals p) as [l|] eqn:Hl; [|done].
    inversion Hcol; subst.
    destruct (tuple_get_int_pair _ _ _ Hv Hx) as (z & ->).
    destruct (IH _ eq_refl) as (zs & -> & Hzs).
    exists (z :: zs). split; [done |].
    intros [|j] v' Hj; simpl in Hj.
    + inversion Hj; subst. eauto.
    + by apply Hzs.
Qed.

Lemma column_length {A} (vals : list (A * A)) (p : Z) (col : list A) :
  column vals p = Some col → length col = length vals.
Proof.
  revert col. induction vals as [|v vals IH]; intros col Hcol; simpl in Hcol.
  - by inversion Hcol.
  - destruct (tuple_get v p); [|done]. destruct (column vals p); [|done].
    inversion Hcol; subst. simpl. by rewrite (IH _ eq_refl).
Qed.

Lemma column_binary {A} (vals : list (A * A)) (p : Z) :
  p = 0 ∨ p = 1 → is_Some (column vals p).
Proof.
  intros Hp. induction vals as [|v vals [l Hl]]; simpl; [by eexists |].
  assert (is_Some (tuple_get v p)) as [x ->].
  { unfold tuple_get. repeat case_decide; by eauto || lia. }
  rewrite Hl. by eexists.
Qed.

(** What [decide_node] stores when the argmax succeeds on integer pairs. *)
Lemma decide_node_Ok (p : Z) (vals : list (pynum * pynum)) (k : nat)
    (val : pynum * pynum) :
  Forall int_pair vals → decide_node p vals = Ok (k, val) →
  vals !! k = Some val ∧
  ∃ m : Z, tuple_get val p = Some (Int m) ∧
    ∀ j v, vals !! j = Some v →
      ∃ x, tuple_get v p = Some (Int x) ∧ x ≤ m ∧ ((j < k)%nat → x < m).
Proof.
  intros Hall Hd. unfold decide_node in Hd.
  destruct (column vals p) as [col|] eqn:Hcol; [|done].
  destruct (column_ints _ _ _ Hall Hcol) as (zs & -> & Hzs).
  destruct (np_argmax (Int <$> zs)) as [i|e] eqn:Hi; [|done].
  destruct (vals !! i) as [v|] eqn:Hv; [|done].
  inversion Hd; subst. split; [done |].
  assert (zs ≠ []) as Hne.
  { intros ->. done. }
  destruct (np_argmax_ints zs Hne) as (k' & m & Hk' & Hm & Hmax & Hfirst).
  rewrite Hi in Hk'. inversion Hk'; subst k'.
  exists m. destruct (Hzs _ _ Hv) as (x & Hx & Hget).
  rewrite Hm in Hx. inversion Hx; subst x. split; [done |].
  intros j v Hj. destruct (Hzs _ _ Hj) as (x & Hx' & Hget').
  exists x. split_and!; [done | |].
  - rewrite Forall_forall in Hmax. apply Hmax.
    by eapply list_elem_of_lookup_2.
  - intros Hlt. by eapply Hfirst.
Qed.

Lemma subnodes_action i d p dec v cs :
  subnodes (ActionNode i d p dec v cs) =
  ActionNode i d p dec v cs :: concat (subnodes <$> cs).
Proof. done. Qed.

(** When [solve] returns on a subtree, its root holds an integer pair
    and every decision node in it is a best reply. *)
Lemma solve_node_Ok (t : node) : ∀ ctr t' ctr',
  solve_node t ctr = (t', ctr', Ok ()) →
  int_pair (value_of t') ∧ Forall best_reply (subnodes t').
Proof.
  induction t as [i d p dec v cs IH | i d pay] using node_ind;
    intros ctr t' ctr' Hs; simpl in Hs.
  - destruct (solve_children solve_node cs ctr) as [[cs' ctr1] r] eqn:Ecs.
    destruct r as [vals|e]; [|by inversion Hs].
    destruct (solve_children_Ok _ _ IH _ _ _ _ Ecs) as (-> & HQ & Hlen).
    destruct (decide_node p (value_of <$> cs')) as [[k val]|e] eqn:Ed;
      [|by inversion Hs].
    inversion Hs; subst. clear Hs.
    assert (Forall int_pair (value_of <$> cs')) as Hints.
    { rewrite Forall_fmap. eapply Forall_impl; [exact HQ |]. by intros c [? _]. }
    destruct (decide_node_Ok _ _ _ _ Hints Ed) as (Hk & m & Hm & Hbest).
    rewrite list_lookup_fmap in Hk.
    destruct (cs' !! k) as [c|] eqn:Hc; [|done]. inversion Hk; subst val.
    split.
    + simpl. rewrite Forall_forall in Hints. apply Hints.
      apply list_elem_of_fmap. exists c. split; [done |].
      by eapply list_elem_of_lookup_2.
    + rewrite subnodes_action. constructor.
      * exists k, c, m. split_and!; [done | done | done | done |].
        intros j c' Hj. apply (Hbest j (value_of c')).
        by rewrite list_lookup_fmap, Hj.
      * apply Forall_concat. rewrite Forall_fmap.
        eapply Forall_impl; [exact HQ |]. by intros c0 [_ ?].
  - inversion Hs; subst. split; [by eexists _, _ | by repeat constructor].
Qed.

Lemma Forall_subnodes_action (P : node → Prop) i d p dec v cs :
  Forall P (subnodes (ActionNode i d p dec v cs)) ↔
  P (ActionNode i d p dec v cs) ∧ Forall (λ c, Forall P (subnodes c)) cs.
Proof.
  rewrite subnodes_action, Forall_cons.
  split; intros [H1 H2]; (split; [done |]).
  - clear H1. induction cs as [|c cs IH]; [constructor |].
    change (Forall P (subnodes c ++ concat (subnodes <$> cs))) in H2.
    apply Forall_app in H2 as [? ?]. constructor; eauto.
  - apply Forall_concat. by rewrite Forall_fmap.
Qed.

(** The tree and the way the call ends do not depend on the counter. *)
Lemma solve_children_counter (cs : list node) :
  Forall (λ c, ∀ c1 c2, (solve_node c c1).1.1 = (solve_node c c2).1.1 ∧
                        (solve_node c c1).2 = (solve_node c c2).2) cs →
  ∀ c1 c2,
    (solve_children solve_node cs c1).1.1 = (solve_children solve_node cs c2).1.1 ∧
    (solve_children solve_node cs c1).2 = (solve_children solve_node cs c2).2.
Proof.
  induction 1 as [|c cs Hc _ IH]; intros c1 c2; [done |].
  destruct c as [i d p dec v gs | i d pay]; simpl.
  - destruct (solve_node (ActionNode i d p dec v gs) 1) as [[c' k1] r1].
    destruct r1 as [[]|e]; [|done].
    clear IH. destruct (solve_children solve_node cs k1) as [[r2 k2] o2].
    done.
  - specialize (IH c1 c2).
    destruct (solve_children solve_node cs c1) as [[r1 k1] o1].
    destruct (solve_children solve_node cs c2) as [[r2 k2] o2].
    simpl in *. destruct IH as [-> ->]. done.
Qed.

Lemma solve_node_counter (t : node) (c1 c2 : Z) :
  (solve_node t c1).1.1 = (solve_node t c2).1.1 ∧
  (solve_node t c1).2 = (solve_node t c2).2.
Proof.
  revert c1 c2.
  induction t as [i d p dec v cs IH | i d pay] using node_ind; intros c1 c2;
    [|done].
  simpl. destruct (solve_children_counter cs IH c1 c2) as [H1 H2].
  destruct (solve_children solve_node cs c1) as [[r1 k1] o1].
  destruct (solve_children solve_node cs c2) as [[r2 k2] o2].
  simpl in *. subst r2 o2.
  destruct o1 as [vals|e]; [|done].
  destruct (decide_node p vals) as [[k val]|e]; done.
Qed.

Lemma solve_node_unfold (t : node) (ctr : Z) :
  ∃ ctr', solve_node t ctr = (after_solve t, ctr', solve_outcome t).
Proof.
  unfold after_solve, solve_outcome.
  destruct (solve_node_counter t ctr 1) as [<- <-].
  destruct (solve_node t ctr) as [[t' ctr'] r]. by exists ctr'.
Qed.

Lemma after_solve_payoff i d pay :
  after_solve (PayOffNode i d pay) = PayOffNode i d pay.
Proof. done. Qed.

Lemma solve_outcome_payoff i d pay : solve_outcome (PayOffNode i d pay) = Ok ().
Proof. done. Qed.

(** The loop over the children when every child's [solve] returns. *)
Lemma solve_children_all_Ok (cs : list node) (ctr : Z) :
  Forall (λ c, solve_outcome c = Ok ()) cs →
  ∃ ctr', solve_children solve_node cs ctr =
          (after_solve <$> cs, ctr', Ok (value_of <$> (after_solve <$> cs))).
Proof.
  intros Hall. revert ctr.
  induction Hall as [|c cs Hc _ IH]; intros ctr; [by exists ctr |].
  destruct c as [i d p dec v gs | i d pay]; cbn [solve_children fmap list_fmap].
  - destruct (solve_node_unfold (ActionNode i d p dec v gs) 1) as (k1 & ->).
    rewrite Hc. destruct (IH k1) as (k2 & ->). by exists k2.
  - destruct (IH ctr) as (k2 & ->). by exists k2.
Qed.

(** The loop over the children when a child's [solve] raises: the
    children before it are solved, the one that raised is left as far as
    it got, the ones after it are untouched. *)
Lemma solve_children_first_Raise (pre : list node) (c : node) (post : list node)
    (e : exn) (ctr : Z) :
  Forall (λ x, solve_outcome x = Ok ()) pre → solve_outcome c = Raise e →
  ∃ ctr', solve_children solve_node (pre ++ c :: post) ctr =
          ((after_solve <$> pre) ++ after_solve c :: post, ctr', Raise e).
Proof.
  intros Hall Hc. revert ctr.
  induction Hall as [|x pre Hx _ IH]; intros ctr.
  - destruct c as [i d p dec v gs | i d pay]; [|done].
    cbn [solve_children fmap list_fmap app].
    destruct (solve_node_unfold (ActionNode i d p dec v gs) 1) as (k1 & ->).
    rewrite Hc. by exists k1.
  - destruct x as [i d p dec v gs | i d pay];
      cbn [solve_children fmap list_fmap app].
    + destruct (solve_node_unfold (ActionNode i d p dec v gs) 1) as (k1 & ->).
      rewrite Hx. destruct (IH k1) as (k2 & ->). by exists k2.
    + destruct (IH ctr) as (k2 & ->). by exists k2.
Qed.

(** Either every child's [solve] returns or there is a first that raises. *)
Lemma children_outcomes (cs : list node) :
  Forall (λ c, solve_outcome c = Ok ()) cs ∨
  ∃ pre c post e, cs = pre ++ c :: post ∧
    Forall (λ x, solve_outcome x = Ok ()) pre ∧ solve_outcome c = Raise e.
Proof.
  induction cs as [|c cs IH]; [by left |].
  destruct (solve_outcome c) as [[]|e] eqn:Hc.
  - destruct IH as [IH | (pre & x & post & e & -> & Hpre & Hx)].
    + left. by constructor.
    + right. exists (c :: pre), x, post, e. split_and!; [done | by constructor | done].
  - right. exists [], c, cs, e. by split_and!.
Qed.

(** [solve] on a decision node, by cases on its children. *)
Lemma solve_action_children_Ok i d p dec v cs :
  Forall (λ c, solve_outcome c = Ok ()) cs →
  let cs' := after_solve <$> cs in
  after_solve (ActionNode i d p dec v cs) =
    match decide_node p (value_of <$> cs') with
    | Ok (k, val) => ActionNode i d p (Int (Z.of_nat k)) val cs'
    | Raise _ => ActionNode i d p dec v cs'
    end ∧
  solve_outcome (ActionNode i d p dec v cs) =
    match decide_node p (value_of <$> cs') with
    | Ok _ => Ok ()
    | Raise e => Raise e
    end.
Proof.
  intros Hall cs'. unfold after_solve at 1, solve_outcome at 1. simpl.
  destruct (solve_children_all_Ok cs 1 Hall) as (k & ->). fold cs'.
  by destruct (decide_node p (value_of <$> cs')) as [[? ?]|?].
Qed.

Lemma solve_action_child_Raise i d p dec v pre c post e :
  Forall (λ x, solve_outcome x = Ok ()) pre → solve_outcome c = Raise e →
  after_solve (ActionNode i d p dec v (pre ++ c :: post)) =
    ActionNode i d p dec v ((after_solve <$> pre) ++ after_solve c :: post) ∧
  solve_outcome (ActionNode i d p dec v (pre ++ c :: post)) = Raise e.
Proof.
  intros Hall Hc. unfold after_solve at 1, solve_outcome at 1. simpl.
  by destruct (solve_children_first_Raise pre c post e 1 Hall Hc) as (k & ->).
Qed.

Lemma solve_Ok_best_reply (t : node) :
  solve_outcome t = Ok () →
  int_pair (value_of (after_solve t)) ∧ Forall best_reply (subnodes (after_solve t)).
Proof.
  intros Hok. destruct (solve_node_unfold t 1) as (k & H).
  rewrite Hok in H. by eapply solve_node_Ok.
Qed.

Lemma decide_node_nil (p : Z) : decide_node p [] = Raise ValueError.
Proof. done. Qed.

Lemma decide_node_binary (p : Z) (vals : list (pynum * pynum)) :
  Forall int_pair vals → p = 0 ∨ p = 1 → vals ≠ [] →
  ∃ k val, decide_node p vals = Ok (k, val).
Proof.
  intros Hall Hp Hne. unfold decide_node.
  destruct (column_binary vals p Hp) as [col Hcol]. rewrite Hcol.
  destruct (column_ints _ _ _ Hall Hcol) as (zs & -> & Hzs).
  assert (zs ≠ []) as Hzne.
  { intros ->. apply column_length in Hcol. by destruct vals. }
  destruct (np_argmax_ints zs Hzne) as (k & m & -> & Hm & _).
  assert (is_Some (vals !! k)) as [val ->]; [|by eauto].
  apply lookup_lt_is_Some. apply column_length in Hcol.
  rewrite <- Hcol, length_fmap. by eapply lookup_lt_Some.
Qed.

Lemma children_int_pairs (cs : list node) :
  Forall (λ c, solve_outcome c = Ok ()) cs →
  Forall int_pair (value_of <$> (after_solve <$> cs)).
Proof.
  intros Hall. rewrite !Forall_fmap.
  eapply Forall_impl; [exact Hall |].
  intros c Hc. by apply solve_Ok_best_reply.
Qed.


(** [solve] returns only on trees without a childless decision node. *)
Lemma solve_Ok_has_child (t : node) :
  solve_outcome t = Ok () → every_decision_has_child t.
Proof.
  unfold every_decision_has_child.
  induction t as [i d p dec v cs IH | i d pay] using node_ind;
    [|by repeat constructor].
  intros Hok. rewrite Forall_subnodes_action.
  destruct (children_outcomes cs) as [Hall | (pre & c & post & e & -> & Hpre & Hc)].
  - destruct (solve_action_children_Ok i d p dec v cs Hall) as [_ Hout].
    rewrite Hok in Hout. split.
    + destruct cs; [by rewrite decide_node_nil in Hout | done].
    + rewrite Forall_forall in IH, Hall. apply Forall_forall.
      intros c Hc. by apply IH; [| apply Hall].
  - destruct (solve_action_child_Raise i d p dec v pre c post e Hpre Hc) as [_ Hout].
    by rewrite Hok in Hout.
Qed.

(** With acting players 0 or 1 the only exception [solve] can raise is
    the one of [np.argmax] on an empty sequence. *)
Lemma solve_Raise_binary (t : node) (e : exn) :
  players_binary t → solve_outcome t = Raise e → e = ValueError.
Proof.
  unfold players_binary.
  induction t as [i d p dec v cs IH | i d pay] using node_ind; [|done].
  rewrite Forall_subnodes_action. intros [Hp Hps] Hr.
  destruct (children_outcomes cs) as [Hall | (pre & c & post & e' & -> & Hpre & Hc)].
  - destruct (solve_action_children_Ok i d p dec v cs Hall) as [_ Hout].
    rewrite Hr in Hout. destruct cs as [|c cs].
    + rewrite decide_node_nil in Hout. by inversion Hout.
    + destruct (decide_node_binary p (value_of <$> (after_solve <$> c :: cs)))
        as (k & val & Hd); [by apply children_int_pairs | | done |].
      * simpl in Hp. by apply bool_decide_eq_true in Hp.
      * by rewrite Hd in Hout.
  - destruct (solve_action_child_Raise i d p dec v pre c post e' Hpre Hc) as [_ Hout].
    rewrite Hr in Hout. inversion Hout; subst e'.
    assert (c ∈ pre ++ c :: post) as Hin by set_solver.
    rewrite Forall_forall in IH, Hps. by apply (IH c Hin); [apply Hps |].
Qed.

Lemma has_degenerate_not_every (t : node) :
  has_degenerate t ↔ ¬ every_decision_has_child t.
Proof.
  unfold has_degenerate, every_decision_has_child. split.
  - rewrite Exists_exists, Forall_forall. intros (n & Hin & Hd) Hall.
    specialize (Hall n Hin). congruence.
  - intros H. apply not_Forall_Exists in H; [|solve_decision].
    eapply Exists_impl; [exact H |]. intros n Hn. simpl in Hn.
    by destruct (degenerate n).
Qed.

(** [solve] annotates and does nothing else: ids, depths, players,
    payoffs and child lists are as before, whether it returns or raises. *)
Lemma after_solve_erase (t : node) : erase (after_solve t) = erase t.
Proof.
  induction t as [i d p dec v cs IH | i d pay] using node_ind; [|done].
  assert (∀ l, Forall (λ c, erase (after_solve c) = erase c) l →
               map erase (after_solve <$> l) = map erase l) as Hmap.
  { induction 1 as [|x l Hx _ IHl]; [done |].
    rewrite fmap_cons. simpl. by rewrite Hx, IHl. }
  destruct (children_outcomes cs) as [Hall | (pre & c & post & e & -> & Hpre & Hc)].
  - destruct (solve_action_children_Ok i d p dec v cs Hall) as [-> _].
    destruct (decide_node p (value_of <$> (after_solve <$> cs))) as [[k val]|e];
      simpl; by rewrite (Hmap cs IH).
  - destruct (solve_action_child_Raise i d p dec v pre c post e Hpre Hc) as [-> _].
    apply Forall_app in IH as [IHpre IHc]. apply Forall_cons in IHc as [IHc _].
    simpl. rewrite !map_app. simpl. by rewrite (Hmap pre IHpre), IHc.
Qed.

(** ** Positions and the store *)

Lemma get_put_node (p : list nat) : ∀ (t n n' : node),
  get_node t p = Some n → get_node (put_node t p n') p = Some n'.
Proof.
  induction p as [|i p IH]; intros t n n' Hget; [reflexivity |].
  simpl in Hget. destruct (children t !! i) as [c|] eqn:Hc; [|done].
  destruct t as [id d pl dec v cs | id d pay]; [|done]. simpl in Hc |- *.
  rewrite list_lookup_alter_eq, Hc. simpl. by eapply IH.
Qed.

Lemma put_get_node (p : list nat) : ∀ (t n : node),
  get_node t p = Some n → put_node t p n = t.
Proof.
  induction p as [|i p IH]; intros t n Hget; simpl in Hget.
  - by inversion Hget.
  - destruct (children t !! i) as [c|] eqn:Hc; [|done].
    destruct t as [id d pl dec v cs | id d pay]; [|done]. simpl in Hc |- *.
    f_equal. apply list_eq. intros j.
    destruct (decide (i = j)) as [<-|Hne].
    + rewrite list_lookup_alter_eq, Hc. simpl. f_equal. by apply IH.
    + by rewrite list_lookup_alter_ne.
Qed.

Lemma deref_assign (w : World) (r : ref) (t t' : node) (ctr : Z) (k : nat) :
  deref w r = Some t →
  deref {| Node_nodeid := ctr; objects := assign w r t'; draws := k |} r = Some t'.
Proof.
  unfold deref, assign. simpl. intros Hd.
  destruct (objects w !! r.1) as [o|] eqn:Ho; [|done].
  rewrite list_lookup_alter_eq, Ho. simpl. by eapply get_put_node.
Qed.

Lemma assign_same (w : World) (r : ref) (t : node) :
  deref w r = Some t → assign w r t = objects w.
Proof.
  unfold deref, assign. intros Hd.
  destruct (objects w !! r.1) as [o|] eqn:Ho; [|done].
  apply list_eq. intros j. destruct (decide (r.1 = j)) as [<-|Hne].
  - rewrite list_lookup_alter_eq, Ho. simpl. f_equal. by apply put_get_node.
  - by rewrite list_lookup_alter_ne.
Qed.

(** [solve] on a game object in terms of the tree under its root. *)
Lemma solve_game (g : TwoPlayerGame) (w : World) (t : node) :
  deref w (root g) = Some t →
  ∃ ctr', solve g w =
    Some (match solve_outcome t with Ok _ => set_solved g true | Raise _ => g end,
          {| Node_nodeid := ctr'; objects := assign w (root g) (after_solve t);
             draws := draws w |},
          solve_outcome t).
Proof.
  intros Hd. unfold solve. rewrite Hd.
  destruct (solve_node_unfold t (Node_nodeid w)) as (ctr' & ->).
  exists ctr'. by destruct (solve_outcome t) as [[]|e].
Qed.

Lemma solve_Some_deref (g g' : TwoPlayerGame) (w w' : World) (r : outcome unit) :
  solve g w = Some (g', w', r) → ∃ t, deref w (root g) = Some t.
Proof.
  unfold solve. destruct (deref w (root g)) as [t|]; [by eauto | done].
Qed.

(** Solving a solved subtree changes nothing. *)
Lemma after_solve_idempotent (t : node) :
  solve_outcome t = Ok () →
  after_solve (after_solve t) = after_solve t ∧
  solve_outcome (after_solve t) = Ok ().
Proof.
  induction t as [i d p dec v cs IH | i d pay] using node_ind; [|done].
  intros Hok.
  destruct (children_outcomes cs) as [Hall | (pre & c & post & e & -> & Hpre & Hc)].
  - destruct (solve_action_children_Ok i d p dec v cs Hall) as [Ht Hout].
    rewrite Hok in Hout. rewrite Ht.
    destruct (decide_node p (value_of <$> (after_solve <$> cs)))
      as [[k val]|e] eqn:Hd; [|done].
    assert (Forall (λ c, solve_outcome c = Ok ()) (after_solve <$> cs)) as Hall'.
    { rewrite Forall_fmap. rewrite Forall_forall in IH, Hall.
      apply Forall_forall. intros c Hc. by apply IH; [| apply Hall]. }
    assert (after_solve <$> (after_solve <$> cs) = after_solve <$> cs) as Hfix.
    { rewrite <- list_fmap_compose. apply list_fmap_ext.
      intros j c Hj. simpl. rewrite Forall_forall in IH, Hall.
      assert (c ∈ cs) as Hin by (by eapply list_elem_of_lookup_2).
      by apply IH; [| apply Hall]. }
    destruct (solve_action_children_Ok i d p (Int (Z.of_nat k)) val _ Hall')
      as [Ht' Hout'].
    rewrite Hfix, Hd in Ht', Hout'. done.
  - destruct (solve_action_child_Raise i d p dec v pre c post e Hpre Hc) as [_ Hout].
    by rewrite Hok in Hout.
Qed.



(** C3, as stated, fails: on a root without children [solve] ends in the
    [ValueError] that [np.argmax] raises on an empty sequence; the code
    has no error of its own for the case. *)
Lemma solve_childless_argmax_error :
  ∃ t w', deref childless_game.2 (root childless_game.1) = Some t ∧
    has_degenerate t ∧
    solve childless_game.1 childless_game.2 = Some (childless_game.1, w', Raise ValueError).
Proof.
  eexists _, _. split; [reflexivity |]. split; [|reflexivity].
  by apply Exists_cons_hd.
Qed.

Lemma subnodes_erase (t : node) : subnodes (erase t) = erase <$> subnodes t.
Proof.
  induction t as [i d p dec v cs IH | i d pay] using node_ind; [|done].
  cbn [erase subnodes]. rewrite fmap_cons. f_equal.
  induction IH as [|x cs Hx _ IHcs]; [done |].
  cbn [map concat]. by rewrite fmap_app, Hx, IHcs.
Qed.

Lemma subnodes_after_solve_erase (P : list node) :
  erase <$> concat (subnodes <$> (after_solve <$> P))
  = erase <$> concat (subnodes <$> P).
Proof.
  induction P as [|x P IH]; [done |].
  rewrite !fmap_cons, !concat_cons, !fmap_app, IH. f_equal.
  by rewrite <- !subnodes_erase, after_solve_erase.
Qed.

(** With acting players 0 or 1 the exception arises at the first
    childless decision node of the solver's depth-first order
    ([subnodes]): this node and everything after it in that order are
    as before the call, and the nodes before it are the same nodes,
    annotations apart. *)
Lemma solve_raise_first_childless (t : node) (e : exn) :
  players_binary t → solve_outcome t = Raise e →
  ∃ pre c post pre',
    subnodes t = pre ++ c :: post ∧ degenerate c = true ∧
    Forall (λ n, degenerate n = false) pre ∧
    subnodes (after_solve t) = pre' ++ c :: post ∧
    erase <$> pre' = erase <$> pre.
Proof.
  unfold players_binary.
  induction t as [i d p dec v cs IH | i d pay] using node_ind; [|done].
  rewrite Forall_subnodes_action. intros [Hp Hps] Hr.
  destruct (children_outcomes cs) as [Hall | (P & c0 & Q & e' & -> & HP & Hc)].
  - destruct (solve_action_children_Ok i d p dec v cs Hall) as [Haft Hout].
    rewrite Hr in Hout. destruct cs as [|c cs].
    + simpl in Haft. exists [], (ActionNode i d p dec v []), [], [].
      rewrite Haft. by split_and!.
    + destruct (decide_node_binary p (value_of <$> (after_solve <$> c :: cs)))
        as (k & val & Hd); [by apply children_int_pairs | | done |].
      * simpl in Hp. by apply bool_decide_eq_true in Hp.
      * by rewrite Hd in Hout.
  - destruct (solve_action_child_Raise i d p dec v P c0 Q e' HP Hc) as [Haft Hout].
    rewrite Hr in Hout. inversion Hout; subst e'. clear Hout.
    assert (c0 ∈ P ++ c0 :: Q) as Hin by (apply elem_of_app; right; by left).
    rewrite Forall_forall in IH, Hps.
    destruct (IH c0 Hin (Hps c0 Hin) Hc)
      as (pre0 & c & post0 & pre0' & Hsub & Hdeg & Hpre & Hsub' & Her).
    exists (ActionNode i d p dec v (P ++ c0 :: Q) :: concat (subnodes <$> P) ++ pre0),
           c, (post0 ++ concat (subnodes <$> Q)),
           (after_solve (ActionNode i d p dec v (P ++ c0 :: Q))
              :: concat (subnodes <$> (after_solve <$> P)) ++ pre0').
    split_and!.
    + rewrite subnodes_action, fmap_app, fmap_cons, concat_app, concat_cons, Hsub.
      cbn [app]. f_equal. by rewrite <- !app_assoc.
    + exact Hdeg.
    + constructor; [by destruct P |]. apply Forall_app. split; [|exact Hpre].
      apply Forall_concat. rewrite Forall_fmap.
      eapply Forall_impl; [exact HP |]. intros x Hx.
      by apply solve_Ok_has_child.
    + rewrite Haft at 1. rewrite subnodes_action, fmap_app, fmap_cons, concat_app,
        concat_cons, Hsub'.
      rewrite <- Haft. cbn [app]. f_equal. by rewrite <- !app_assoc.
    + rewrite !fmap_cons, !fmap_app, Her, subnodes_after_solve_erase.
      by rewrite after_solve_erase.
Qed.

(** C3, amended. On a game whose tree has a decision node without
    children [solve] does not return: it raises and leaves the game
    object as it was.  With acting players 0 or 1 the exception is the
    [ValueError] of [np.argmax] on an empty sequence, raised at the
    first childless decision node of the solver's depth-first order:
    in the tree the call leaves, that node and every node after it in
    this order are exactly as before the call, and the nodes before it
    are the same nodes, annotations apart. *)
Theorem solve_degenerate_raises (g : TwoPlayerGame) (w : World) (t : node) :
  deref w (root g) = Some t → has_degenerate t →
  ∃ e w', solve g w = Some (g, w', Raise e) ∧
    (players_binary t →
     e = ValueError ∧
     ∃ pre c post pre' t',
       subnodes t = pre ++ c :: post ∧ degenerate c = true ∧
       Forall (λ n, degenerate n = false) pre ∧
       deref w' (root g) = Some t' ∧
       subnodes t' = pre' ++ c :: post ∧ erase <$> pre' = erase <$> pre).
Proof.
  intros Hd Hdeg. destruct (solve_game g w t Hd) as (ctr' & Hs).
  destruct (solve_outcome t) as [[]|e] eqn:Hout.
  - apply has_degenerate_not_every in Hdeg. destruct Hdeg.
    by apply solve_Ok_has_child.
  - eexists e, _. split; [exact Hs |].
    intros Hp. split; [by eapply solve_Raise_binary |].
    destruct (solve_raise_first_childless t e Hp Hout)
      as (pre & c & post & pre' & Hsub & Hc & Hpre & Hsub' & Her).
    exists pre, c, post, pre', (after_solve t).
    split_and!; [done | done | done | | done | done].
    by eapply deref_assign.
Qed.

Lemma solve_degenerate_raises_witness :
  ∃ e w', solve dead_end_game dead_end_world
            = Some (dead_end_game, w', Raise e) ∧
    (players_binary dead_end_tree →
     e = ValueError ∧
     ∃ pre c post pre' t',
       subnodes dead_end_tree = pre ++ c :: post ∧ degenerate c = true ∧
       Forall (λ n, degenerate n = false) pre ∧
       deref w' (root dead_end_game) = Some t' ∧
       subnodes t' = pre' ++ c :: post ∧ erase <$> pre' = erase <$> pre).
Proof.
  apply (solve_degenerate_raises dead_end_game dead_end_world dead_end_tree);
    [reflexivity |].
  unfold has_degenerate. simpl.
  do 4 apply Exists_cons_tl. by apply Exists_cons_hd.
Defined.

(** C6. A root with acting player 0 that holds exactly the two payoff
    leaves (1,-1) and (-1,1): [solve] stores decision 0 and value (1,-1). *)
Theorem solve_two_leaves (g : TwoPlayerGame) (w : World)
    (i d : Z) (dec : pynum) (v : pynum * pynum) (i1 d1 i2 d2 : Z) :
  let leaves := [PayOffNode i1 d1 (1, -1); PayOffNode i2 d2 (-1, 1)] in
  deref w (root g) = Some (ActionNode i d 0 dec v leaves) →
  ∃ w', solve g w = Some (set_solved g true, w', Ok ()) ∧
        deref w' (root g) =
          Some (ActionNode i d 0 (Int 0) (Int 1, Int (-1)) leaves).
Proof.
  intros leaves Hd. destruct (solve_game g w _ Hd) as (ctr' & Hs).
  change (solve_outcome (ActionNode i d 0 dec v leaves)) with (Ok ()) in Hs.
  eexists. split; [exact Hs |]. simpl. by eapply deref_assign.
Qed.

Lemma solve_two_leaves_witness :
  two_leaf_game = Some (two_leaf_obj, two_leaf_world) ∧
  ∃ w', solve two_leaf_obj two_leaf_world
          = Some (set_solved two_leaf_obj true, w', Ok ()) ∧
        deref w' (root two_leaf_obj) =
          Some (ActionNode 0 0 0 (Int 0) (Int 1, Int (-1)) two_leaf_leaves).
Proof.
  split; [reflexivity |].
  apply (solve_two_leaves two_leaf_obj two_leaf_world 0 0 NaN (NaN, NaN) 1 1 2 1).
  reflexivity.
Defined.

(** Constructing the two leaves is not enough to hand them both to the
    root: [PayOffNode.__init__] makes the new leaf the parent's only
    child, so without the assignment of [two_leaf_game] the root holds
    the second leaf alone and [solve] stores its pair. *)
Example solve_last_leaf :
  ∃ g w w', last_leaf_game = Some (g, w) ∧
    deref w (root g) =
      Some (ActionNode 0 0 0 NaN (NaN, NaN) [PayOffNode 2 1 (-1, 1)]) ∧
    solve g w = Some (set_solved g true, w', Ok ()) ∧
    deref w' (root g) =
      Some (ActionNode 0 0 0 (Int 0) (Int (-1), Int 1) [PayOffNode 2 1 (-1, 1)]).
Proof. eexists _, _, _. by split_and!. Qed.

(** C9. When [solve] has returned on a game, a second call returns as
    well and leaves every node object as the first call left it: the
    same decision index and the same value pair at every decision node. *)
Theorem solve_twice (g g1 : TwoPlayerGame) (w w1 : World) :
  solve g w = Some (g1, w1, Ok ()) →
  ∃ w2, solve g1 w1 = Some (g1, w2, Ok ()) ∧ objects w2 = objects w1.
Proof.
  intros Hs. destruct (solve_Some_deref _ _ _ _ _ Hs) as (t & Hd).
  destruct (solve_game g w t Hd) as (ctr' & Hs'). rewrite Hs' in Hs.
  injection Hs as Hg Hw Hr. rewrite Hr in Hg. subst g1 w1.
  destruct (after_solve_idempotent t Hr) as [Hfix Hok].
  assert (deref {| Node_nodeid := ctr';
                   objects := assign w (root g) (after_solve t);
                   draws := draws w |} (root (set_solved g true))
          = Some (after_solve t)) as Hd1.
  { simpl. by eapply deref_assign. }
  destruct (solve_game _ _ _ Hd1) as (ctr2 & Hs2).
  rewrite Hok, Hfix in Hs2. eexists. split; [exact Hs2 |].
  simpl. by apply (assign_same _ _ _ Hd1).
Qed.

Lemma solve_twice_witness :
  ∃ w2, solve (set_solved two_leaf_obj true) two_leaf_solved
          = Some (set_solved two_leaf_obj true, w2, Ok ()) ∧
        objects w2 = objects two_leaf_solved.
Proof.
  apply (solve_twice two_leaf_obj (set_solved two_leaf_obj true)
           two_leaf_world two_leaf_solved).
  reflexivity.
Defined.



(** The state the failed call leaves the dead-end tree in. *)
Example dead_end_after_solve :
  after_solve dead_end_tree =
    ActionNode 0 0 0 NaN (NaN, NaN)
      [ActionNode 1 1 1 (Int 1) (Int (-1), Int 1)
         [PayOffNode 3 2 (1, -1); PayOffNode 4 2 (-1, 1)];
       ActionNode 2 1 1 NaN (NaN, NaN) []].
Proof. reflexivity. Qed.

Lemma get_node_app (p q : list nat) : ∀ t : node,
  get_node t (p ++ q) =
  match get_node t p with Some n => get_node n q | None => None end.
Proof.
  induction p as [|i p IH]; intros t; [done |].
  simpl. destruct (children t !! i) as [c|]; [apply IH | done].
Qed.

Lemma put_node_app (p q : list nat) : ∀ (t n x : node),
  get_node t p = Some n →
  put_node t (p ++ q) x = put_node t p (put_node n q x).
Proof.
  induction p as [|i p IH]; intros t n x Hget; simpl in Hget.
  - by inversion Hget.
  - destruct (children t !! i) as [c|] eqn:Hc; [|done].
    destruct t as [id d pl dec v cs | id d pay]; [|done]. simpl in Hc |- *.
    f_equal. apply list_alter_ext; [|done].
    intros c' Hc'. rewrite Hc in Hc'. inversion Hc'; subst c'. by apply IH.
Qed.

Lemma put_put_node (p : list nat) : ∀ (t a b : node),
  put_node (put_node t p a) p b = put_node t p b.
Proof.
  induction p as [|i p IH]; intros t a b; [done |].
  destruct t as [id d pl dec v cs | id d pay]; [|done]. simpl.
  f_equal. rewrite list_alter_alter_eq. apply list_alter_ext; [|done].
  intros c _. simpl. apply IH.
Qed.

Lemma put_node_child i d p dec v (pre : list node) (x x' : node) (post : list node) :
  put_node (ActionNode i d p dec v (pre ++ x :: post)) [length pre] x' =
  ActionNode i d p dec v (pre ++ x' :: post).
Proof.
  simpl. f_equal.
  replace (length pre) with (length pre + 0)%nat by lia.
  by rewrite alter_app_r.
Qed.

(** ** The generation loop *)

Section generation_facts.
Variable poisson : Q → nat → nat.
Variable choice : nat → list Z → Z.

Lemma reproduce_actions_Ok nd l lo hi ctr k nd' ctr' k' :
  reproduce_actions poisson nd l lo hi ctr k = Ok (nd', ctr', k') →
  ∃ i d p dec v cs cs',
    nd = ActionNode i d p dec v cs ∧ nd' = ActionNode i d p dec v cs' ∧
    action_children nd ((p + 1) `mod` 2)
      (Z.to_nat (np_clip (Z.of_nat (poisson l k)) lo hi)) ctr = (cs', ctr') ∧
    k' = S k.
Proof.
  destruct nd as [i d p dec v cs | i d pay]; [|done]. simpl.
  destruct (poisson_accepts l); [|done].
  destruct (action_children _ _ _ _) as [cs' c'] eqn:E.
  intros [= <- <- <-]. by eexists i, d, p, dec, v, cs, cs'.
Qed.

(** What the loop does with the positions of the children [cs] of the
    node at [q], given that [f] describes it for each of them. *)
Lemma children_loop (c : config)
    (f : node → Z → nat → Z → option (node * Z * nat * Z)) :
  (∀ nd T q stk ctr k num nd' ctr' k' num',
     get_node T q = Some nd →
     f nd ctr k num = Some (nd', ctr', k', num') →
     ∃ f0, ∀ fu,
       generate_loop poisson choice (f0 + fu) c (GenState T (q :: stk) ctr k num) =
       generate_loop poisson choice fu c
         (GenState (put_node T q nd') stk ctr' k' num')) →
  ∀ cs pre T q stk i d pl dec v ctr k num cs' ctr' k' num',
    get_node T q = Some (ActionNode i d pl dec v (pre ++ cs)) →
    expand_children f cs ctr k num = Some (cs', ctr', k', num') →
    ∃ f0, ∀ fu,
      generate_loop poisson choice (f0 + fu) c
        (GenState T
           (rev ((λ j, q ++ [j]) <$> seq (length pre) (length cs)) ++ stk)
           ctr k num) =
      generate_loop poisson choice fu c
        (GenState (put_node T q (ActionNode i d pl dec v (pre ++ cs')))
           stk ctr' k' num').
Proof.
  intros Hf cs.
  induction cs as [|x rest IH];
    intros pre T q stk i d pl dec v ctr k num cs' ctr' k' num' Hget Hexp;
    simpl in Hexp.
  - inversion Hexp; subst. exists 0%nat. intros fu. simpl.
    by rewrite (put_get_node _ _ _ Hget).
  - destruct (expand_children f rest ctr k num)
      as [[[[rest' ctr1] k1] num1]|] eqn:Erest; [|done].
    destruct (f x ctr1 k1 num1) as [[[[x' ctr2] k2] num2]|] eqn:Ex; [|done].
    inversion Hexp; subst. clear Hexp.
    assert (get_node T q = Some (ActionNode i d pl dec v ((pre ++ [x]) ++ rest)))
      as Hget' by (by rewrite <- app_assoc).
    destruct (IH (pre ++ [x]) T q ((q ++ [length pre]) :: stk)
                i d pl dec v _ _ _ _ _ _ _ Hget' Erest) as (f1 & H1).
    set (T1 := put_node T q (ActionNode i d pl dec v ((pre ++ [x]) ++ rest'))) in *.
    assert (get_node T1 q = Some (ActionNode i d pl dec v (pre ++ x :: rest')))
      as Hget1.
    { unfold T1. rewrite <- app_assoc. by eapply get_put_node. }
    assert (get_node T1 (q ++ [length pre]) = Some x) as Hx.
    { rewrite get_node_app, Hget1. simpl.
      by rewrite (list_lookup_middle pre rest' x (length pre) eq_refl). }
    destruct (Hf x T1 (q ++ [length pre]) stk _ _ _ _ _ _ _ Hx Ex) as (f2 & H2).
    exists (f1 + f2)%nat. intros fu.
    replace (f1 + f2 + fu)%nat with (f1 + (f2 + fu))%nat by lia.
    cbn [length seq fmap list_fmap rev].
    rewrite length_app in H1. cbn [length] in H1.
    replace (length pre + 1)%nat with (S (length pre)) in H1 by lia.
    rewrite <- app_assoc. cbn [app]. rewrite H1, H2.
    f_equal. f_equal.
    rewrite (put_node_app _ _ _ _ _ Hget1), put_node_child.
    unfold T1. by rewrite put_put_node.
Qed.

(** The loop, started on a position [q], leaves below it what [expand]
    describes and then goes on with the rest of the stack. *)
Lemma loop_expand (c : config) (h : nat) :
  ∀ nd T q stk ctr k num nd' ctr' k' num',
    get_node T q = Some nd →
    expand poisson choice h c nd ctr k num = Some (nd', ctr', k', num') →
    ∃ f0, ∀ fu,
      generate_loop poisson choice (f0 + fu) c (GenState T (q :: stk) ctr k num) =
      generate_loop poisson choice fu c
        (GenState (put_node T q nd') stk ctr' k' num').
Proof.
  induction h as [|h IH]; intros nd T q stk ctr k num nd' ctr' k' num' Hget Hexp;
    simpl in Hexp; case_decide as Hdepth.
  - done.
  - destruct (reproduce_payoffs _ _ _ _ _ _ _ _ _) as [[[nd1 ctr1] k1]|e] eqn:Hp;
      [|done].
    inversion Hexp; subst. exists 1%nat. intros fu.
    cbn [Nat.add generate_loop g_nonpayoff g_tree g_nodeid g_draws g_num_nodes].
    unfold generate_step. cbn [g_tree g_nodeid g_draws g_num_nodes g_nonpayoff].
    rewrite Hget. rewrite decide_False by done. by rewrite Hp.
  - destruct (reproduce_actions _ _ _ _ _ _ _) as [[[nd1 ctr1] k1]|e] eqn:Ha;
      [|done].
    destruct (expand_children _ _ _ _ _) as [[[[cs' ctr2] k2] num2]|] eqn:Ecs;
      [|done].
    inversion Hexp; subst. clear Hexp.
    destruct (reproduce_actions_Ok _ _ _ _ _ _ _ _ _ Ha)
      as (i & d & p & dec & v & cs & cs1 & -> & -> & _ & _).
    simpl in Ecs.
    set (T1 := put_node T q (ActionNode i d p dec v cs1)).
    assert (get_node T1 q = Some (ActionNode i d p dec v ([] ++ cs1))) as Hget1.
    { unfold T1. by eapply get_put_node. }
    destruct (children_loop c _ IH cs1 [] T1 q stk i d p dec v
                _ _ _ _ _ _ _ Hget1 Ecs) as (f1 & H1).
    exists (S f1). intros fu.
    cbn [Nat.add generate_loop g_nonpayoff g_tree g_nodeid g_draws g_num_nodes].
    unfold generate_step. cbn [g_tree g_nodeid g_draws g_num_nodes g_nonpayoff].
    rewrite Hget. rewrite decide_True by done. rewrite Ha.
    unfold push_children. cbn [children length app] in H1 |- *.
    fold T1. rewrite H1. unfold T1. by rewrite put_put_node.
  - destruct (reproduce_payoffs _ _ _ _ _ _ _ _ _) as [[[nd1 ctr1] k1]|e] eqn:Hp;
      [|done].
    inversion Hexp; subst. exists 1%nat. intros fu.
    cbn [Nat.add generate_loop g_nonpayoff g_tree g_nodeid g_draws g_num_nodes].
    unfold generate_step. cbn [g_tree g_nodeid g_draws g_num_nodes g_nonpayoff].
    rewrite Hget. rewrite decide_False by done. by rewrite Hp.
Qed.

Lemma generate_loop_mono (c : config) (f : nat) :
  ∀ f' st r, generate_loop poisson choice f c st = Some r → (f ≤ f')%nat →
             generate_loop poisson choice f' c st = Some r.
Proof.
  induction f as [|f IH]; intros f' st r Hr Hle.
  - destruct st as [T [|q stk] ctr k num]; [|done].
    destruct f'; exact Hr.
  - destruct f' as [|f']; [lia |].
    destruct st as [T [|q stk] ctr k num]; [exact Hr |].
    cbn [generate_loop g_nonpayoff] in Hr |- *.
    destruct (generate_step _ _ _ _ _) as [[st'|e]|]; [| exact Hr | done].
    apply IH; [exact Hr | lia].
Qed.
End generation_facts.

(** ** The nodes one reproduction step creates *)

Lemma action_children_eq (self : node) (np : Z) (n : nat) : ∀ ctr : Z,
  action_children self np n ctr =
  ((λ j : nat, ActionNode (ctr + Z.of_nat j) (depth self + 1) np NaN (NaN, NaN) [])
     <$> seq 0 n,
   ctr + Z.of_nat n).
Proof.
  induction n as [|n IH]; intros ctr.
  - simpl. f_equal. lia.
  - cbn [action_children ActionNode_init]. rewrite IH.
    cbn [seq fmap list_fmap]. f_equal; [|lia]. f_equal.
    + f_equal. lia.
    + rewrite <- fmap_S_seq, <- list_fmap_compose.
      apply list_fmap_ext. intros _ j _. simpl. f_equal. lia.
Qed.

Lemma draw_payoffs_eq (choice : nat → list Z → Z) (opts : list Z) (n : nat) :
  ∀ k : nat,
    draw_payoffs choice opts n k =
    ((λ j : nat, choice (k + j)%nat opts) <$> seq 0 n, (k + n)%nat).
Proof.
  induction n as [|n IH]; intros k.
  - simpl. f_equal. lia.
  - cbn [draw_payoffs]. rewrite IH. cbn [seq fmap list_fmap].
    f_equal; [|lia]. f_equal.
    + f_equal. lia.
    + rewrite <- fmap_S_seq, <- list_fmap_compose.
      apply list_fmap_ext. intros _ j _. simpl. f_equal. lia.
Qed.

Lemma set_children_twice (n : node) (cs cs' : list node) :
  set_children (set_children n cs) cs' = set_children n cs'.
Proof. by destruct n. Qed.

Lemma depth_set_children (n : node) (cs : list node) :
  depth (set_children n cs) = depth n.
Proof. by destruct n. Qed.

(** The leaves [reproduce_payoffs] creates; the one-element child lists
    the constructors write into [self] on the way are overwritten by the
    final assignment. *)
Lemma payoff_children_eq (vs : list Z) : ∀ (self : node) (ctr : Z),
  ∃ self',
    payoff_children self vs ctr =
    (imap (λ j v, PayOffNode (ctr + Z.of_nat j) (depth self + 1) (- v, v)) vs,
     self', ctr + Z.of_nat (length vs)) ∧
    ∀ cs, set_children self' cs = set_children self cs.
Proof.
  induction vs as [|v vs IH]; intros self ctr.
  - exists self. split; [|done]. simpl. do 2 f_equal. lia.
  - cbn [payoff_children PayOffNode_init].
    destruct (IH (set_children self [PayOffNode ctr (depth self + 1) (- v, v)])
                (ctr + 1)) as (self' & -> & Hself).
    exists self'. split.
    + cbn [imap length]. f_equal; [|lia]. f_equal. f_equal.
      * f_equal. lia.
      * rewrite depth_set_children. apply imap_ext.
        intros j x _. simpl. f_equal. lia.
    + intros cs. by rewrite Hself, set_children_twice.
Qed.

Section expand_facts.
Variable poisson : Q → nat → nat.
Variable choice : nat → list Z → Z.

Lemma reproduce_actions_eq i d p dec v cs l lo hi ctr k :
  let n := Z.to_nat (np_clip (Z.of_nat (poisson l k)) lo hi) in
  reproduce_actions poisson (ActionNode i d p dec v cs) l lo hi ctr k =
  if poisson_accepts l then
    Ok (ActionNode i d p dec v
          ((λ j : nat, ActionNode (ctr + Z.of_nat j) (d + 1) ((p + 1) `mod` 2)
                         NaN (NaN, NaN) []) <$> seq 0 n),
        ctr + Z.of_nat n, S k)
  else Raise ValueError.
Proof. intros n. unfold reproduce_actions. by rewrite action_children_eq. Qed.

Lemma reproduce_payoffs_eq i d p dec v cs l lo hi (ts : bool) ctr k :
  let n := Z.to_nat (np_clip (Z.of_nat (poisson l k)) lo hi) in
  let opts : list Z := if ts then [-1; 0; 1] else [-1; 1] in
  let vs := (λ j : nat, choice (S k + j)%nat opts) <$> seq 0 n in
  reproduce_payoffs poisson choice (ActionNode i d p dec v cs) l lo hi ts ctr k =
  if poisson_accepts l then
    Ok (ActionNode i d p dec v
          (imap (λ j x, PayOffNode (ctr + Z.of_nat j) (d + 1) (- x, x)) vs),
        ctr + Z.of_nat n, (S k + n)%nat)
  else Raise ValueError.
Proof.
  intros n opts vs. unfold reproduce_payoffs.
  destruct (poisson_accepts l); [|done]. rewrite draw_payoffs_eq.
  fold n opts vs.
  destruct (payoff_children_eq vs (ActionNode i d p dec v cs) ctr)
    as (self' & -> & Hself).
  rewrite Hself. simpl. do 3 f_equal. unfold vs. by rewrite length_fmap, length_seq.
Qed.

Lemma expand_children_total
    (f : node → Z → nat → Z → option (node * Z * nat * Z)) (cs : list node) :
  Forall (λ x, ∀ ctr k num, is_Some (f x ctr k num)) cs →
  ∀ ctr k num, is_Some (expand_children f cs ctr k num).
Proof.
  induction 1 as [|x rest Hx _ IH]; intros ctr k num; [by eexists |].
  simpl. destruct (IH ctr k num) as [[[[rest' c1] k1] n1] ->].
  destruct (Hx c1 k1 n1) as [[[[x' c2] k2] n2] ->]. by eexists.
Qed.

(** [expand] is defined on a decision node once [h] covers the levels
    left above the depth bound. *)
Lemma expand_enough (c : config) (h : nat) :
  poisson_accepts (lam c) = true →
  ∀ i d p dec v cs ctr k num,
    maxdepth c - 1 - d ≤ Z.of_nat h →
    is_Some (expand poisson choice h c (ActionNode i d p dec v cs) ctr k num).
Proof.
  intros Hlam.
  induction h as [|h IH]; intros i d p dec v cs ctr k num Hh;
    cbn [expand depth]; case_decide as Hd.
  - lia.
  - rewrite reproduce_payoffs_eq, Hlam. by eexists.
  - rewrite reproduce_actions_eq, Hlam. cbn [children].
    match goal with |- context [expand_children ?f ?l ?a ?b ?n] =>
      destruct (expand_children_total f l) with (ctr := a) (k := b) (num := n)
        as [[[[cs' c2] k2] n2] ->] end; [|by eexists].
    rewrite Forall_fmap. apply Forall_forall. intros j _ ctr1 k1 num1. simpl.
    apply IH. lia.
  - rewrite reproduce_payoffs_eq, Hlam. by eexists.
Qed.

(** The loop over a decision node ends, and ends in what [expand] says. *)
(** With an argument [np.random.poisson] rejects, the first turn of
    the loop raises its [ValueError]. *)
Lemma generate_loop_rejected (c : config) (fuel : nat) i d p dec v cs ctr k num :
  poisson_accepts (lam c) = false →
  generate_loop poisson choice (S fuel) c
    (GenState (ActionNode i d p dec v cs) [[]] ctr k num)
  = Some (Raise ValueError).
Proof.
  intros Hlam.
  cbn [generate_loop g_nonpayoff g_tree g_nodeid g_draws g_num_nodes].
  unfold generate_step.
  cbn [get_node g_tree g_nodeid g_draws g_num_nodes g_nonpayoff depth].
  case_decide.
  - by rewrite reproduce_actions_eq, Hlam.
  - by rewrite reproduce_payoffs_eq, Hlam.
Qed.

Lemma generate_loop_accepted (c : config) (fuel : nat) i d p dec v cs ctr k num st :
  generate_loop poisson choice fuel c
    (GenState (ActionNode i d p dec v cs) [[]] ctr k num) = Some (Ok st) →
  poisson_accepts (lam c) = true.
Proof.
  intros Hl. destruct fuel as [|fuel]; [done |].
  destruct (poisson_accepts (lam c)) eqn:Hlam; [done |].
  by rewrite generate_loop_rejected in Hl.
Qed.

Lemma generate_loop_terminates (c : config) i d p dec v cs ctr k num :
  poisson_accepts (lam c) = true →
  ∃ fuel h t' ctr' k' num',
    expand poisson choice h c (ActionNode i d p dec v cs) ctr k num
      = Some (t', ctr', k', num') ∧
    generate_loop poisson choice fuel c
      (GenState (ActionNode i d p dec v cs) [[]] ctr k num)
      = Some (Ok (GenState t' [] ctr' k' num')).
Proof.
  intros Hlam. set (h := Z.to_nat (maxdepth c - 1 - d)).
  destruct (expand_enough c h Hlam i d p dec v cs ctr k num)
    as [[[[t' c'] k'] n'] He]; [lia |].
  destruct (loop_expand poisson choice c h _ (ActionNode i d p dec v cs) [] []
              _ _ _ _ _ _ _ eq_refl He) as (f0 & Hf).
  exists f0, h, t', c', k', n'. split; [done |].
  specialize (Hf 0%nat). rewrite Nat.add_0_r in Hf. rewrite Hf. done.
Qed.

Lemma generate_loop_result (c : config) (fuel : nat) (t : node) ctr k num st :
  generate_loop poisson choice fuel c (GenState t [[]] ctr k num) = Some (Ok st) →
  ∃ h i d p dec v cs,
    t = ActionNode i d p dec v cs ∧
    expand poisson choice h c t ctr k num
      = Some (g_tree st, g_nodeid st, g_draws st, g_num_nodes st) ∧
    g_nonpayoff st = [].
Proof.
  intros Hl. destruct t as [i d p dec v cs | i d pay].
  - destruct (generate_loop_terminates c i d p dec v cs ctr k num
                (generate_loop_accepted _ _ _ _ _ _ _ _ _ _ _ _ Hl))
      as (f0 & h & t' & c' & k' & n' & He & Hf).
    exists h, i, d, p, dec, v, cs. split; [done |].
    apply generate_loop_mono with (f' := (fuel `max` f0)%nat) in Hl; [|lia].
    apply generate_loop_mono with (f' := (fuel `max` f0)%nat) in Hf; [|lia].
    rewrite Hl in Hf. inversion Hf; subst. done.
  - destruct fuel as [|fuel]; [done |]. exfalso.
    cbn [generate_loop g_nonpayoff] in Hl. unfold generate_step in Hl.
    cbn in Hl. by case_decide.
Qed.
End expand_facts.

Lemma subnodes_descendants (n : node) : subnodes n = n :: descendants n.
Proof. by destruct n. Qed.

Lemma subnodes_ids_split (cs : list node) :
  nodeid <$> concat (subnodes <$> cs) ≡ₚ
  (nodeid <$> cs) ++ (nodeid <$> concat (descendants <$> cs)).
Proof.
  induction cs as [|x cs IH]; [done |].
  rewrite !fmap_cons, !concat_cons, !fmap_app, subnodes_descendants, fmap_cons.
  rewrite IH. cbn [app]. f_equiv.
  rewrite !app_assoc. f_equiv. apply Permutation_app_comm.
Qed.

Lemma payoff_leaves_ids (d : Z) (vs : list Z) : ∀ ctr : Z,
  nodeid <$> concat (subnodes <$>
    imap (λ j x, PayOffNode (ctr + Z.of_nat j) d (- x, x)) vs)
  = seqZ ctr (Z.of_nat (length vs)).
Proof.
  induction vs as [|x vs IH]; intros ctr; [done |].
  rewrite imap_cons, fmap_cons, concat_cons. cbn [subnodes app].
  rewrite fmap_cons. cbn [nodeid length].
  rewrite seqZ_cons by lia. f_equal; [lia |].
  replace (Z.pred (Z.of_nat (S (length vs)))) with (Z.of_nat (length vs)) by lia.
  rewrite <- (IH (Z.succ ctr)). do 3 f_equal.
  apply imap_ext. intros j y _. simpl. f_equal. lia.
Qed.

Lemma action_children_ids (ctr d np : Z) (n : nat) :
  nodeid <$> ((λ j : nat, ActionNode (ctr + Z.of_nat j) d np NaN (NaN, NaN) [])
                <$> seq 0 n)
  = seqZ ctr (Z.of_nat n).
Proof.
  unfold seqZ. rewrite Nat2Z.id, <- list_fmap_compose.
  apply list_fmap_ext. intros _ j _. simpl. lia.
Qed.

Section expand_ids.
Variable poisson : Q → nat → nat.
Variable choice : nat → list Z → Z.

Lemma expand_children_ids
    (f : node → Z → nat → Z → option (node * Z * nat * Z)) (cs : list node) :
  Forall (λ x, ∀ ctr k num x' ctr' k' num',
            f x ctr k num = Some (x', ctr', k', num') →
            nodeid x' = nodeid x ∧ ctr ≤ ctr' ∧ num' = num + (ctr' - ctr) ∧
            nodeid <$> descendants x' ≡ₚ seqZ ctr (ctr' - ctr)) cs →
  ∀ ctr k num cs' ctr' k' num',
    expand_children f cs ctr k num = Some (cs', ctr', k', num') →
    nodeid <$> cs' = nodeid <$> cs ∧ ctr ≤ ctr' ∧ num' = num + (ctr' - ctr) ∧
    nodeid <$> concat (descendants <$> cs') ≡ₚ seqZ ctr (ctr' - ctr).
Proof.
  induction 1 as [|x rest Hx _ IH]; intros ctr k num cs' ctr' k' num' He;
    simpl in He.
  - inversion He; subst. split_and!; [done | lia | lia |].
    by rewrite Z.sub_diag.
  - destruct (expand_children f rest ctr k num)
      as [[[[rest' c1] k1] n1]|] eqn:Er; [|done].
    destruct (f x c1 k1 n1) as [[[[x' c2] k2] n2]|] eqn:Ex; [|done].
    inversion He; subst. clear He.
    destruct (IH _ _ _ _ _ _ _ Er) as (Hids & Hle & Hnum & Hperm).
    destruct (Hx _ _ _ _ _ _ _ Ex) as (Hid & Hle' & Hnum' & Hperm').
    split_and!; [| lia | lia |].
    + by rewrite !fmap_cons, Hid, Hids.
    + rewrite fmap_cons, concat_cons, fmap_app. rewrite Hperm, Hperm'.
      replace (ctr' - ctr) with ((c1 - ctr) + (ctr' - c1)) by lia.
      rewrite seqZ_app by lia. replace (ctr + (c1 - ctr)) with c1 by lia.
      apply Permutation_app_comm.
Qed.

(** The nodes [expand] creates below a decision node carry exactly the
    ids from the counter at the start up to the counter at the end,
    and [num_nodes] grows by their number. *)
Lemma expand_ids (c : config) (h : nat) :
  ∀ i d p dec v cs ctr k num t' ctr' k' num',
    expand poisson choice h c (ActionNode i d p dec v cs) ctr k num
      = Some (t', ctr', k', num') →
    (∃ cs', t' = ActionNode i d p dec v cs') ∧
    ctr ≤ ctr' ∧ num' = num + (ctr' - ctr) ∧
    nodeid <$> descendants t' ≡ₚ seqZ ctr (ctr' - ctr).
Proof.
  assert (∀ i d p dec v cs l lo hi ts ctr k num t' ctr' k' num',
    match reproduce_payoffs poisson choice (ActionNode i d p dec v cs)
            l lo hi ts ctr k with
    | Raise _ => None
    | Ok (nd', ctr', k') =>
        Some (nd', ctr', k', num + Z.of_nat (length (children nd')))
    end = Some (t', ctr', k', num') →
    (∃ cs', t' = ActionNode i d p dec v cs') ∧
    ctr ≤ ctr' ∧ num' = num + (ctr' - ctr) ∧
    nodeid <$> descendants t' ≡ₚ seqZ ctr (ctr' - ctr)) as Hpay.
  { intros i d p dec v cs l lo hi ts ctr k num t' ctr' k' num' He.
    rewrite reproduce_payoffs_eq in He.
    destruct (poisson_accepts _); [|done]. inversion He; subst. clear He.
    set (n := Z.to_nat (np_clip (Z.of_nat (poisson l k)) lo hi)).
    cbn [children]. rewrite length_imap, length_fmap, length_seq.
    split_and!; [by eexists | lia | lia |].
    unfold descendants. cbn [children]. rewrite payoff_leaves_ids.
    rewrite length_fmap, length_seq.
    by replace (ctr + Z.of_nat n - ctr) with (Z.of_nat n) by lia. }
  induction h as [|h IH]; intros i d p dec v cs ctr k num t' ctr' k' num' He;
    cbn [expand depth] in He; case_decide as Hd.
  - done.
  - by eapply Hpay.
  - rewrite reproduce_actions_eq in He.
    destruct (poisson_accepts _); [|done]. cbn [children] in He.
    set (n := Z.to_nat (np_clip (Z.of_nat (poisson (lam c) k))
                          (minactions c) (maxactions c))) in *.
    destruct (expand_children _ _ _ _ _) as [[[[cs' c2] k2] n2]|] eqn:Ecs;
      [|done].
    inversion He; subst. clear He.
    apply expand_children_ids in Ecs.
    + destruct Ecs as (Hids & Hle & Hnum & Hperm).
      rewrite length_fmap, length_seq in Hnum.
      split_and!; [by eexists | lia | lia |].
      unfold descendants. cbn [set_children children].
      rewrite subnodes_ids_split, Hids, action_children_ids, Hperm.
      replace (ctr' - ctr) with (Z.of_nat n + (ctr' - (ctr + Z.of_nat n))) by lia.
      by rewrite seqZ_app by lia.
    + rewrite Forall_fmap. apply Forall_forall.
      intros j _ ctr1 k1 num1 x' ctr1' k1' num1' Hx. simpl in Hx.
      destruct (IH _ _ _ _ _ _ _ _ _ _ _ _ _ Hx) as ((cs1 & ->) & ? & ? & ?).
      by split_and!.
  - by eapply Hpay.
Qed.
End expand_ids.

Section expand_hereditary.
Variable poisson : Q → nat → nat.
Variable choice : nat → list Z → Z.

Lemma expand_children_Forall
    (f : node → Z → nat → Z → option (node * Z * nat * Z))
    (R : node → Prop) (cs : list node) :
  Forall (λ x, ∀ ctr k num x' ctr' k' num',
            f x ctr k num = Some (x', ctr', k', num') → R x') cs →
  ∀ ctr k num cs' ctr' k' num',
    expand_children f cs ctr k num = Some (cs', ctr', k', num') →
    Forall R cs'.
Proof.
  induction 1 as [|x rest Hx _ IH]; intros ctr k num cs' ctr' k' num' He;
    simpl in He.
  - inversion He; subst. constructor.
  - destruct (expand_children f rest ctr k num)
      as [[[[rest' c1] k1] n1]|] eqn:Er; [|done].
    destruct (f x c1 k1 n1) as [[[[x' c2] k2] n2]|] eqn:Ex; [|done].
    inversion He; subst. constructor; [by eapply Hx | by eapply IH].
Qed.

Lemma expand_children_length
    (f : node → Z → nat → Z → option (node * Z * nat * Z)) (cs : list node) :
  ∀ ctr k num cs' ctr' k' num',
    expand_children f cs ctr k num = Some (cs', ctr', k', num') →
    length cs' = length cs.
Proof.
  induction cs as [|x rest IH]; intros ctr k num cs' ctr' k' num' He;
    simpl in He.
  - by inversion He.
  - destruct (expand_children f rest ctr k num)
      as [[[[rest' c1] k1] n1]|] eqn:Er; [|done].
    destruct (f x c1 k1 n1) as [[[[x' c2] k2] n2]|] eqn:Ex; [|done].
    inversion He; subst. simpl. f_equal. by eapply IH.
Qed.

(** A property of generated subtrees follows from two facts: it holds
    of a decision node that has just received its payoff leaves, and
    it passes from the children, decision nodes of the next depth and
    of the other player, to their parent. *)
Lemma expand_hereditary (c : config) (G : node → Prop) :
  (∀ i d p dec v cs ctr k nd' ctr' k',
     ¬ d < maxdepth c - 1 →
     reproduce_payoffs poisson choice (ActionNode i d p dec v cs)
       (lam c) (minpayoffs c) (maxpayoffs c) (ties c) ctr k = Ok (nd', ctr', k') →
     G nd') →
  (∀ i d p dec v cs' k,
     d < maxdepth c - 1 →
     length cs' = Z.to_nat (np_clip (Z.of_nat (poisson (lam c) k))
                              (minactions c) (maxactions c)) →
     Forall (λ x, G x ∧ ∃ i' dec' v' cs'',
               x = ActionNode i' (d + 1) ((p + 1) `mod` 2) dec' v' cs'') cs' →
     G (ActionNode i d p dec v cs')) →
  ∀ h i d p dec v cs ctr k num t' ctr' k' num',
    expand poisson choice h c (ActionNode i d p dec v cs) ctr k num
      = Some (t', ctr', k', num') →
    G t' ∧ ∃ cs', t' = ActionNode i d p dec v cs'.
Proof.
  intros Hleaf Hnode.
  assert (∀ i d p dec v cs ctr k num t' ctr' k' num',
    ¬ d < maxdepth c - 1 →
    match reproduce_payoffs poisson choice (ActionNode i d p dec v cs)
            (lam c) (minpayoffs c) (maxpayoffs c) (ties c) ctr k with
    | Raise _ => None
    | Ok (nd', ctr', k') =>
        Some (nd', ctr', k', num + Z.of_nat (length (children nd')))
    end = Some (t', ctr', k', num') →
    G t' ∧ ∃ cs', t' = ActionNode i d p dec v cs') as Hpay.
  { intros i d p dec v cs ctr k num t' ctr' k' num' Hd He.
    destruct (reproduce_payoffs _ _ _ _ _ _ _ _ _) as [[[nd1 c1] k1]|e] eqn:Hp;
      [|done].
    inversion He; subst. split; [by eapply Hleaf |].
    rewrite reproduce_payoffs_eq in Hp.
    destruct (poisson_accepts _); [|done]. inversion Hp. by eexists. }
  induction h as [|h IH]; intros i d p dec v cs ctr k num t' ctr' k' num' He;
    cbn [expand depth] in He; case_decide as Hd.
  - done.
  - by eapply Hpay.
  - rewrite reproduce_actions_eq in He.
    destruct (poisson_accepts _); [|done]. cbn [children] in He.
    destruct (expand_children _ _ _ _ _) as [[[[cs' c2] k2] n2]|] eqn:Ecs;
      [|done].
    inversion He; subst. clear He. cbn [set_children].
    split; [|by eexists]. apply (Hnode _ _ _ _ _ _ k); [done | |].
    { rewrite (expand_children_length _ _ _ _ _ _ _ _ _ Ecs).
      by rewrite length_fmap, length_seq. }
    eapply expand_children_Forall; [|exact Ecs].
    rewrite Forall_fmap. apply Forall_forall.
    intros j _ ctr1 k1 num1 x' ctr1' k1' num1' Hx. simpl in Hx.
    destruct (IH _ _ _ _ _ _ _ _ _ _ _ _ _ Hx) as (HG & cs1 & ->).
    split; [done | by eexists _, _, _, _].
  - by eapply Hpay.
Qed.
End expand_hereditary.

(** ** Generation on a game object *)

Section generate_facts.
Variable poisson : Q → nat → nat.
Variable choice : nat → list Z → Z.

(** When [generate] returns, the tree under the root is the one
    [expand] describes and the game's other fields are as before. *)
Lemma generate_Ok (fuel : nat) (g g' : TwoPlayerGame) (w w' : World) :
  generate poisson choice fuel g w = Some (Ok (g', w')) →
  ∃ h i d p dec v cs t',
    deref w (root g) = Some (ActionNode i d p dec v cs) ∧
    expand poisson choice h (cfg g) (ActionNode i d p dec v cs)
      (Node_nodeid w) (draws w) (num_nodes g)
      = Some (t', Node_nodeid w', draws w', num_nodes g') ∧
    deref w' (root g') = Some t' ∧
    root g' = root g ∧ cfg g' = cfg g ∧ solved g' = solved g ∧
    objects w' = assign w (root g) t'.
Proof.
  unfold generate. intros Hg.
  destruct (deref w (root g)) as [t|] eqn:Hd; [|done].
  destruct (generate_loop _ _ _ _ _) as [[st|e]|] eqn:Hl; [|done|done].
  inversion Hg; subst. clear Hg.
  destruct (generate_loop_result _ _ _ _ _ _ _ _ _ Hl)
    as (h & i & d & p & dec & v & cs & -> & He & _).
  exists h, i, d, p, dec, v, cs, (g_tree st).
  split_and!; [done | done | | done | done | done | done].
  simpl. by eapply deref_assign.
Qed.

(** [generate] returns on every game rooted at a decision node. *)
Lemma generate_returns (g : TwoPlayerGame) (w : World) i d p dec v cs :
  poisson_accepts (lam (cfg g)) = true →
  deref w (root g) = Some (ActionNode i d p dec v cs) →
  ∃ fuel g' w', generate poisson choice fuel g w = Some (Ok (g', w')).
Proof.
  intros Hlam Hd.
  destruct (generate_loop_terminates poisson choice (cfg g) i d p dec v cs
              (Node_nodeid w) (draws w) (num_nodes g) Hlam)
    as (fuel & h & t' & c' & k' & n' & _ & Hl).
  exists fuel. unfold generate. rewrite Hd, Hl. by eexists _, _.
Qed.

Lemma drawn_payoff_leaves (ts : bool) (d ctr : Z) (vs : list Z) :
  Forall (λ v, v ∈ (if ts then [-1; 0; 1] else [-1; 1] : list Z)) vs →
  Forall (drawn_payoff ts)
    (concat (subnodes <$>
       imap (λ j x, PayOffNode (ctr + Z.of_nat j) d (- x, x)) vs)).
Proof.
  intros Hvs. revert ctr.
  induction Hvs as [|v vs Hv _ IH]; intros ctr; [constructor |].
  rewrite imap_cons, fmap_cons, concat_cons. cbn [subnodes app].
  constructor; [by exists v |].
  specialize (IH (ctr + 1)).
  erewrite imap_ext; [exact IH |]. intros j x _. simpl. f_equal. lia.
Qed.

(** Every leaf [expand] creates carries a drawn payoff pair. *)
Lemma expand_drawn_payoffs (c : config) :
  choice_sound choice →
  ∀ h i d p dec v cs ctr k num t' ctr' k' num',
    expand poisson choice h c (ActionNode i d p dec v cs) ctr k num
      = Some (t', ctr', k', num') →
    Forall (drawn_payoff (ties c)) (descendants t').
Proof.
  intros Hchoice h i d p dec v cs ctr k num t' ctr' k' num' He.
  eapply (expand_hereditary poisson choice c
            (λ t, Forall (drawn_payoff (ties c)) (descendants t))) in He;
    [by destruct He | |].
  - intros i0 d0 p0 dec0 v0 cs0 ctr0 k0 nd' ctr0' k0' _ Hp.
    rewrite reproduce_payoffs_eq in Hp.
    destruct (poisson_accepts _); [|done]. inversion Hp; subst. clear Hp.
    unfold descendants. cbn [children]. apply drawn_payoff_leaves.
    rewrite Forall_fmap. apply Forall_forall. intros j _. simpl.
    apply Hchoice. by destruct (ties c).
  - intros i0 d0 p0 dec0 v0 cs' k0 _ _ Hcs. unfold descendants. cbn [children].
    apply Forall_concat. rewrite Forall_fmap.
    eapply Forall_impl; [exact Hcs |].
    intros x (Hx & i' & dec' & v' & cs'' & ->).
    unfold compose. rewrite subnodes_descendants. by constructor.
Qed.
End generate_facts.

Lemma choice_first_sound : choice_sound choice_first.
Proof. intros k [|x opts] Hne; [done |]. simpl. by left. Defined.

Lemma small_game_generated :
  generate poisson_two choice_first 8 small_game.1 small_game.2
  = Some (Ok small_generated).
Proof. reflexivity. Defined.

(** C8. Every leaf of a generated tree carries the pair [(-v, v)] for a
    [v] among the options of the draw, [-1, 0, 1] with ties and [-1, 1]
    without; so its two components are opposite, and without ties
    neither is 0.  (That the draw is uniform is a property of the random
    source, which is a parameter here.) *)
Theorem generated_payoffs_zero_sum (poisson : Q → nat → nat)
    (choice : nat → list Z → Z) (fuel : nat) (g g' : TwoPlayerGame)
    (w w' : World) (t' : node) :
  choice_sound choice →
  generate poisson choice fuel g w = Some (Ok (g', w')) →
  deref w' (root g') = Some t' →
  ∀ i d pay, PayOffNode i d pay ∈ subnodes t' →
    (∃ v : Z, v ∈ (if ties (cfg g) then [-1; 0; 1] else [-1; 1] : list Z) ∧
              pay = (- v, v)) ∧
    pay.1 = - pay.2 ∧
    (ties (cfg g) = false → pay.1 ≠ 0 ∧ pay.2 ≠ 0).
Proof.
  intros Hchoice Hg Hd i d pay Hin.
  destruct (generate_Ok _ _ _ _ _ _ _ Hg)
    as (h & i0 & d0 & p0 & dec0 & v0 & cs0 & t0 & _ & He & Hd' & _).
  rewrite Hd in Hd'. inversion Hd'; subst t0. clear Hd'.
  pose proof (expand_drawn_payoffs _ _ _ Hchoice _ _ _ _ _ _ _ _ _ _ _ _ _ _ He)
    as Hall.
  assert (∃ cs', t' = ActionNode i0 d0 p0 dec0 v0 cs') as (cs' & ->).
  { by eapply (expand_ids poisson choice). }
  rewrite subnodes_descendants in Hin. apply elem_of_cons in Hin as [Hin|Hin];
    [done |].
  rewrite Forall_forall in Hall. destruct (Hall _ Hin) as (v & Hv & ->).
  split_and!; [by exists v | simpl; lia |].
  intros Hties. rewrite Hties in Hv. simpl.
  apply elem_of_cons in Hv as [->|Hv]; [lia |].
  apply elem_of_cons in Hv as [->|Hv]; [lia |]. by apply elem_of_nil in Hv.
Qed.

Lemma generated_payoffs_zero_sum_witness :
  choice_sound choice_first ∧
  ∀ i d pay, PayOffNode i d pay ∈ subnodes small_tree →
    (∃ v : Z, v ∈ ([-1; 1] : list Z) ∧ pay = (- v, v)) ∧
    pay.1 = - pay.2 ∧
    (false = false → pay.1 ≠ 0 ∧ pay.2 ≠ 0).
Proof.
  split; [exact choice_first_sound |].
  exact (generated_payoffs_zero_sum poisson_two choice_first 8
           small_game.1 small_generated.1 small_game.2 small_generated.2
           small_tree choice_first_sound small_game_generated eq_refl).
Defined.

Lemma assign_assign (w : World) (r : ref) (x n : node) (ctr : Z) (k : nat) :
  assign {| Node_nodeid := ctr; objects := assign w r x; draws := k |} r n
  = assign w r n.
Proof.
  unfold assign. simpl. rewrite list_alter_alter_eq.
  apply list_alter_ext; [|done]. intros t _. simpl. apply put_put_node.
Qed.

Section construction.
Variable poisson : Q → nat → nat.
Variable choice : nat → list Z → Z.

(** The first turn of the loop overwrites the root's child list: what
    the root held before does not matter. *)
Lemma generate_loop_old_children (fuel : nat) (c : config)
    i d p dec v (cs cs0 : list node) ctr k num :
  generate_loop poisson choice fuel c
    (GenState (ActionNode i d p dec v cs) [[]] ctr k num) =
  generate_loop poisson choice fuel c
    (GenState (ActionNode i d p dec v cs0) [[]] ctr k num).
Proof.
  destruct fuel as [|fuel]; [done |].
  cbn [generate_loop g_nonpayoff g_tree g_nodeid g_draws g_num_nodes].
  unfold generate_step.
  cbn [get_node g_tree g_nodeid g_draws g_num_nodes g_nonpayoff depth].
  case_decide.
  - by rewrite !reproduce_actions_eq.
  - by rewrite !reproduce_payoffs_eq.
Qed.

Lemma TwoPlayerGame_init_generate (fuel : nat) (r : ref) (c : config) (w : World) :
  TwoPlayerGame_init poisson choice fuel r c true w =
  generate poisson choice fuel
    {| root := r; cfg := c; solved := false; num_nodes := 1 |} (set_nodeid 1 w).
Proof. done. Qed.

(** C4. Two games constructed without a root argument hold the same
    root object, the one the default argument was bound to when the
    module was loaded.  The second construction generates over that
    object: afterwards both games see the tree of the second
    generation, and nothing of what the root held before enters it
    (the construction ends in the same game and process whatever
    children the root had). *)
Theorem default_root_shared (fuel1 fuel2 : nat) (c1 c2 : config)
    (w0 w1 w2 : World) (g1 g2 : TwoPlayerGame) :
  TwoPlayerGame_init poisson choice fuel1 default_root c1 true w0
    = Some (Ok (g1, w1)) →
  TwoPlayerGame_init poisson choice fuel2 default_root c2 true w1
    = Some (Ok (g2, w2)) →
  root g1 = default_root ∧ root g2 = default_root ∧
  (∃ t1 t2, deref w1 (root g1) = Some t1 ∧
            deref w2 (root g1) = Some t2 ∧ deref w2 (root g2) = Some t2 ∧
            nodeid <$> descendants t2 ≡ₚ seqZ 1 (Node_nodeid w2 - 1) ∧
            ∀ cs0,
              TwoPlayerGame_init poisson choice fuel2 default_root c2 true
                {| Node_nodeid := Node_nodeid w1;
                   objects := assign w1 default_root (set_children t1 cs0);
                   draws := draws w1 |}
              = Some (Ok (g2, w2))).
Proof.
  rewrite !TwoPlayerGame_init_generate. intros H1 H2.
  destruct (generate_Ok _ _ _ _ _ _ _ H1)
    as (h1 & i1 & d1 & p1 & dec1 & v1 & cs1 & t1 & _ & _ & Hd1 & Hr1 & _).
  destruct (generate_Ok _ _ _ _ _ _ _ H2)
    as (h2 & i2 & d2 & p2 & dec2 & v2 & cs2 & t2 & Hd2 & He2 & Hd2' & Hr2 & _).
  simpl in Hr1, Hr2, Hd2, He2. rewrite Hr1. rewrite Hr2 in *.
  split_and!; [done | done |].
  exists t1, t2. rewrite Hr1 in Hd1.
  assert (deref w1 default_root = Some (ActionNode i2 d2 p2 dec2 v2 cs2)) as Hd2w.
  { exact Hd2. }
  rewrite Hd1 in Hd2w. inversion Hd2w; subst t1. clear Hd2w.
  split_and!; [done | done | done | |].
  - by eapply (expand_ids poisson choice).
  - intros cs0. rewrite TwoPlayerGame_init_generate.
    unfold generate in H2 |- *. cbn [root cfg num_nodes solved] in *.
    assert (deref (set_nodeid 1 w1) default_root
            = Some (ActionNode i2 d2 p2 dec2 v2 cs2)) as Hdw by exact Hd2.
    rewrite Hdw in H2.
    unfold set_nodeid in *. cbn [Node_nodeid objects draws] in *.
    erewrite (deref_assign _ _ _ _ _ _ Hd1). cbn [set_children].
    rewrite (generate_loop_old_children _ _ _ _ _ _ _ cs0 cs2).
    destruct (generate_loop _ _ _ _ _) as [[st|e]|]; [|done|done].
    rewrite <- H2. do 4 f_equal. simpl.
    apply (assign_assign w1 default_root).
Qed.
End construction.

Lemma small_game_constructed :
  TwoPlayerGame_init poisson_two choice_first 8 default_root small_config true
    module_loaded = Some (Ok small_generated).
Proof. reflexivity. Defined.

Lemma one_leaf_game_constructed :
  TwoPlayerGame_init poisson_two choice_first 8 default_root one_leaf_config true
    small_generated.2 = Some (Ok one_leaf_generated).
Proof. reflexivity. Defined.

Lemma default_root_shared_witness :
  root small_generated.1 = default_root ∧
  root one_leaf_generated.1 = default_root ∧
  (∃ t1 t2, deref small_generated.2 (root small_generated.1) = Some t1 ∧
     deref one_leaf_generated.2 (root small_generated.1) = Some t2 ∧
     deref one_leaf_generated.2 (root one_leaf_generated.1) = Some t2 ∧
     nodeid <$> descendants t2 ≡ₚ seqZ 1 (Node_nodeid one_leaf_generated.2 - 1) ∧
     ∀ cs0,
       TwoPlayerGame_init poisson_two choice_first 8 default_root one_leaf_config
         true
         {| Node_nodeid := Node_nodeid small_generated.2;
            objects := assign small_generated.2 default_root (set_children t1 cs0);
            draws := draws small_generated.2 |}
       = Some (Ok one_leaf_generated)).
Proof.
  exact (default_root_shared poisson_two choice_first 8 8 small_config
           one_leaf_config module_loaded small_generated.2 one_leaf_generated.2
           small_generated.1 one_leaf_generated.1
           small_game_constructed one_leaf_game_constructed).
Defined.

(** C5, as stated, fails: [branch] builds its view through the same
    constructor, whose first statement resets the class counter. *)
Lemma branch_resets_nodeid :
  Node_nodeid dead_end_world = 5 ∧
  Node_nodeid (branch dead_end_game (0%nat, [0%nat]) dead_end_world).2 = 1 ∧
  Node_nodeid (branch dead_end_game (0%nat, [0%nat]) dead_end_world).2
    ≠ Node_nodeid dead_end_world.
Proof. by split_and!. Qed.

(** C5, amended. The class counter is reset to 1 by every construction
    of a game, the branch views included.  In a construction that
    generates, the nodes created by the run receive the ids 1, 2, ... up
    to the final counter, each once, so they are pairwise distinct, and
    [num_nodes] ends equal to the counter; the next game starts from 1
    again. *)
Theorem nodeid_reset_and_fresh (poisson : Q → nat → nat)
    (choice : nat → list Z → Z) (fuel : nat) (r : ref) (c : config)
    (w w' : World) (g' : TwoPlayerGame) (t' : node) :
  TwoPlayerGame_init poisson choice fuel r c true w = Some (Ok (g', w')) →
  deref w' (root g') = Some t' →
  Node_nodeid (TwoPlayerGame_fields r c w).2 = 1 ∧
  (∀ self nd w0, Node_nodeid (branch self nd w0).2 = 1) ∧
  nodeid <$> descendants t' ≡ₚ seqZ 1 (Node_nodeid w' - 1) ∧
  NoDup (nodeid <$> descendants t') ∧
  num_nodes g' = Node_nodeid w'.
Proof.
  rewrite TwoPlayerGame_init_generate. intros Hg Hd.
  destruct (generate_Ok _ _ _ _ _ _ _ Hg)
    as (h & i & d & p & dec & v & cs & t0 & _ & He & Hd' & _).
  rewrite Hd in Hd'. inversion Hd'; subst t0. clear Hd'. simpl in He.
  destruct (expand_ids _ _ _ _ _ _ _ _ _ _ _ _ _ _ _ _ _ He)
    as (_ & Hle & Hnum & Hperm).
  split_and!; [done | done | done | | lia].
  rewrite Hperm. apply NoDup_seqZ.
Qed.

Lemma nodeid_reset_and_fresh_witness :
  Node_nodeid (TwoPlayerGame_fields default_root small_config module_loaded).2 = 1 ∧
  (∀ self nd w0, Node_nodeid (branch self nd w0).2 = 1) ∧
  nodeid <$> descendants small_tree ≡ₚ seqZ 1 (Node_nodeid small_generated.2 - 1) ∧
  NoDup (nodeid <$> descendants small_tree) ∧
  num_nodes small_generated.1 = Node_nodeid small_generated.2.
Proof.
  exact (nodeid_reset_and_fresh poisson_two choice_first 8 default_root
           small_config module_loaded small_generated.2 small_generated.1
           small_tree small_game_constructed eq_refl).
Defined.

(** ** The value map *)

Lemma concat_subnodes_Permutation (l1 l2 : list node) :
  l1 ≡ₚ l2 → concat (subnodes <$> l1) ≡ₚ concat (subnodes <$> l2).
Proof.
  induction 1 as [|x l1 l2 _ IH|x y l|l1 l2 l3 _ IH1 _ IH2].
  - done.
  - rewrite !fmap_cons, !concat_cons. by f_equiv.
  - rewrite !fmap_cons, !concat_cons, !app_assoc. f_equiv.
    apply Permutation_app_comm.
  - by etrans.
Qed.

Lemma to_visit_push (curr : node) (rest : list node) :
  concat (subnodes <$> (rev (children curr) ++ rest)) ≡ₚ
  descendants curr ++ concat (subnodes <$> rest).
Proof.
  rewrite fmap_app, concat_app. f_equiv. unfold descendants.
  apply concat_subnodes_Permutation. symmetry. apply Permutation_rev.
Qed.

Lemma node_entry_binary (n : node) (p : Z) :
  p = 0 ∨ p = 1 → is_Some (node_entry n p).
Proof.
  intros Hp. destruct n as [i d pl dec v cs | i d pay]; simpl; unfold tuple_get;
    repeat case_decide; by eauto || lia.
Qed.

(** The loop ends within as many turns as there are nodes to visit; it
    leaves every key outside the visited ids as it was, and under each
    visited id the entry of a visited node having that id. *)
Lemma valuemap_loop_spec (p : Z) :
  p = 0 ∨ p = 1 →
  ∀ (fuel : nat) (to_visit : list node) (vm : gmap Z pynum),
    (length (concat (subnodes <$> to_visit)) ≤ fuel)%nat →
    ∃ m, valuemap_loop fuel p to_visit vm = Some (Ok m) ∧
      (∀ n, n ∈ concat (subnodes <$> to_visit) →
         ∃ n', n' ∈ concat (subnodes <$> to_visit) ∧ nodeid n' = nodeid n ∧
               m !! nodeid n = node_entry n' p) ∧
      (∀ k, k ∉ nodeid <$> concat (subnodes <$> to_visit) → m !! k = vm !! k).
Proof.
  intros Hp fuel.
  induction fuel as [|fuel IH]; intros to_visit vm Hlen.
  - destruct to_visit as [|curr rest].
    + exists vm. split_and!; [done | | done]. intros n Hn. by apply elem_of_nil in Hn.
    + rewrite fmap_cons, concat_cons, subnodes_descendants in Hlen.
      simpl in Hlen. lia.
  - destruct to_visit as [|curr rest].
    + exists vm. split_and!; [done | | done]. intros n Hn. by apply elem_of_nil in Hn.
    + cbn [valuemap_loop].
      destruct (node_entry_binary curr p Hp) as [x Hx]. rewrite Hx.
      pose proof (to_visit_push curr rest) as Hperm.
      assert (concat (subnodes <$> curr :: rest) =
              curr :: (descendants curr ++ concat (subnodes <$> rest))) as Hnodes.
      { by rewrite fmap_cons, concat_cons, subnodes_descendants. }
      rewrite Hnodes in Hlen |- *.
      destruct (IH (rev (children curr) ++ rest) (<[nodeid curr := x]> vm))
        as (m & Hm & Hin & Hout).
      { rewrite Hperm. simpl in Hlen. lia. }
      exists m. split; [exact Hm |]. split.
      * intros n Hn. apply elem_of_cons in Hn as [->|Hn].
        -- destruct (decide (nodeid curr ∈
                       nodeid <$> concat (subnodes <$> (rev (children curr) ++ rest))))
             as [Hid|Hid].
           ++ apply list_elem_of_fmap in Hid as (n0 & Hid0 & Hn0).
              destruct (Hin n0 Hn0) as (n' & Hn' & Hidn' & Hmn').
              exists n'. rewrite Hperm in Hn'.
              split_and!; [by right | congruence | by rewrite Hid0].
           ++ exists curr. split_and!; [by left | done |].
              by rewrite (Hout _ Hid), lookup_insert_eq.
        -- rewrite <- Hperm in Hn.
           destruct (Hin n Hn) as (n' & Hn' & Hidn' & Hmn').
           exists n'. rewrite Hperm in Hn'. split_and!; [by right | done | done].
      * intros k Hk. rewrite fmap_cons in Hk. apply not_elem_of_cons in Hk as [Hk1 Hk2].
        rewrite Hout; [by rewrite lookup_insert_ne |].
        by rewrite Hperm.
Qed.

Lemma NoDup_fmap_elem_inj {A B} (f : A → B) (l : list A) (x y : A) :
  NoDup (f <$> l) → x ∈ l → y ∈ l → f x = f y → x = y.
Proof.
  intros Hnd Hx Hy Hf.
  apply list_elem_of_lookup in Hx as [i Hi]. apply list_elem_of_lookup in Hy as [j Hj].
  assert (i = j) as ->; [|congruence].
  eapply (NoDup_lookup _ _ _ (f x) Hnd); rewrite list_lookup_fmap.
  - by rewrite Hi.
  - by rewrite Hj, Hf.
Qed.

(** C7, as stated, fails: in the two-node game built over a root the
    caller created, root and leaf both carry id 1 (the root took it
    before the constructor reset the counter), and the value map of the
    solved game has one entry for two nodes. *)
Lemma valuemap_own_root_one_entry :
  ∃ g w m, own_root_solved = Some (g, w, Ok ()) ∧ solved g = true ∧
    deref w (root g) = Some own_root_tree ∧
    length (subnodes own_root_tree) = 2%nat ∧
    valuemap g w 0 = Some (Ok m) ∧ size m = 1%nat.
Proof.
  eexists _, _, _. split; [reflexivity |]. split; [reflexivity |].
  split; [reflexivity |]. split; [reflexivity |]. split; [reflexivity |].
  vm_compute. reflexivity.
Qed.

(** C7, amended. For a solved game rooted at a decision node whose
    nodes carry pairwise distinct ids, [valuemap(p)] with [p] 0 or 1
    returns a mapping with exactly one entry per node of the subtree
    under the root, keyed by the node's id: component [p] of the payoff
    pair for a payoff node, component [p] of the stored value pair for a
    decision node ([node_entry]). *)
Theorem valuemap_one_entry_per_node (g : TwoPlayerGame) (w : World) (t : node)
    (p : Z) :
  solved g = true → deref w (root g) = Some t → is_payoff t = false →
  p = 0 ∨ p = 1 → NoDup (nodeid <$> subnodes t) →
  ∃ m : gmap Z pynum,
    valuemap g w p = Some (Ok m) ∧
    (∀ n, n ∈ subnodes t → is_Some (node_entry n p) ∧
                           m !! nodeid n = node_entry n p) ∧
    dom m = list_to_set (nodeid <$> subnodes t) ∧
    size m = length (subnodes t).
Proof.
  intros Hsolved Hd Hroot Hp Hnd.
  destruct t as [i d pl dec v cs | i d pay]; [|done]. clear Hroot.
  unfold valuemap. rewrite Hsolved, Hd.
  destruct (node_entry_binary (ActionNode i d pl dec v cs) p Hp) as [x Hx].
  simpl in Hx. rewrite Hx.
  assert (concat (subnodes <$> rev cs) ≡ₚ descendants (ActionNode i d pl dec v cs))
    as Hperm.
  { apply concat_subnodes_Permutation. symmetry. apply Permutation_rev. }
  destruct (valuemap_loop_spec p Hp (length (subnodes (ActionNode i d pl dec v cs)))
              (rev cs) (<[i := x]> ∅)) as (m & Hm & Hin & Hout).
  { rewrite Hperm, subnodes_descendants. simpl. lia. }
  exists m. split; [exact Hm |].
  rewrite subnodes_descendants in Hnd |- *. rewrite fmap_cons in Hnd.
  apply NoDup_cons in Hnd as [Hi Hnd]. cbn [nodeid] in Hi.
  assert (∀ n, n ∈ ActionNode i d pl dec v cs :: descendants (ActionNode i d pl dec v cs) →
               m !! nodeid n = node_entry n p) as Hentries.
  { intros n Hn. apply elem_of_cons in Hn as [->|Hn].
    - simpl. rewrite Hout; [by rewrite lookup_insert_eq |]. by rewrite Hperm.
    - rewrite <- Hperm in Hn. destruct (Hin n Hn) as (n' & Hn' & Hid & Hmn).
      rewrite Hmn. f_equal. rewrite Hperm in Hn, Hn'.
      by eapply (NoDup_fmap_elem_inj nodeid). }
  assert (dom m = list_to_set
                    (nodeid <$> ActionNode i d pl dec v cs
                                :: descendants (ActionNode i d pl dec v cs))) as Hdom.
  { apply set_eq. intros k. rewrite elem_of_dom, elem_of_list_to_set. split.
    - intros Hk.
      destruct (decide (k ∈ nodeid <$> descendants (ActionNode i d pl dec v cs)))
        as [Hkd|Hkd]; [rewrite fmap_cons; by right |].
      rewrite Hout in Hk; [|by rewrite Hperm].
      destruct (decide (k = i)) as [->|Hne]; [rewrite fmap_cons; by left |].
      rewrite lookup_insert_ne, lookup_empty in Hk by done. by destruct Hk.
    - intros Hk. apply list_elem_of_fmap in Hk as (n & -> & Hn).
      rewrite (Hentries n Hn). by apply node_entry_binary. }
  split_and!.
  - intros n Hn. split; [by apply node_entry_binary | by apply Hentries].
  - exact Hdom.
  - rewrite <- size_dom, Hdom, size_list_to_set, length_fmap; [done |].
    rewrite fmap_cons. by apply NoDup_cons.
Qed.

Lemma one_leaf_game_solved :
  solve one_leaf_generated.1 one_leaf_generated.2
  = Some (one_leaf_solved.1, one_leaf_solved.2, Ok ()).
Proof. reflexivity. Defined.

Lemma valuemap_one_entry_per_node_witness :
  solved one_leaf_solved.1 = true ∧
  NoDup (nodeid <$> subnodes
           (ActionNode 0 0 0 (Int 0) (Int 1, Int (-1)) [PayOffNode 1 1 (1, -1)])) ∧
  ∃ m : gmap Z pynum,
    valuemap one_leaf_solved.1 one_leaf_solved.2 0 = Some (Ok m) ∧
    (∀ n, n ∈ subnodes
            (ActionNode 0 0 0 (Int 0) (Int 1, Int (-1)) [PayOffNode 1 1 (1, -1)]) →
          is_Some (node_entry n 0) ∧ m !! nodeid n = node_entry n 0) ∧
    dom m = list_to_set
              (nodeid <$> subnodes
                 (ActionNode 0 0 0 (Int 0) (Int 1, Int (-1))
                    [PayOffNode 1 1 (1, -1)])) ∧
    size m = 2%nat.
Proof.
  assert (NoDup (nodeid <$> subnodes
            (ActionNode 0 0 0 (Int 0) (Int 1, Int (-1)) [PayOffNode 1 1 (1, -1)])))
    as Hnd.
  { by apply (bool_decide_unpack _). }
  split; [reflexivity |]. split; [exact Hnd |].
  exact (valuemap_one_entry_per_node one_leaf_solved.1 one_leaf_solved.2
           (ActionNode 0 0 0 (Int 0) (Int 1, Int (-1)) [PayOffNode 1 1 (1, -1)])
           0 eq_refl eq_refl eq_refl (or_introl eq_refl) Hnd).
Defined.

(** ** The shape of generated trees *)

Section shape.
Variable poisson : Q → nat → nat.
Variable choice : nat → list Z → Z.

Lemma payoff_leaves_shape (d ctr : Z) (vs : list Z) :
  Forall (λ x, ∃ i pay, x = PayOffNode i d pay)
    (imap (λ j x, PayOffNode (ctr + Z.of_nat j) d (- x, x)) vs) ∧
  Forall unmixed_alternating
    (concat (subnodes <$>
       imap (λ j x, PayOffNode (ctr + Z.of_nat j) d (- x, x)) vs)).
Proof.
  revert ctr. induction vs as [|v vs IH]; intros ctr; [by split; constructor |].
  rewrite imap_cons, fmap_cons, concat_cons. cbn [subnodes app].
  destruct (IH (ctr + 1)) as [IH1 IH2].
  erewrite imap_ext in IH1, IH2.
  - split; (constructor; [| eassumption]); [by eexists _, _ | done].
  - intros j x _. simpl. f_equal. lia.
  - intros j x _. simpl. f_equal. lia.
Qed.

(** In a generated tree the children of every decision node are all
    payoff leaves or all decision nodes of the other player. *)
Lemma generated_unmixed_alternating (fuel : nat) (g g' : TwoPlayerGame)
    (w w' : World) (t' : node) :
  generate poisson choice fuel g w = Some (Ok (g', w')) →
  deref w' (root g') = Some t' →
  Forall unmixed_alternating (subnodes t').
Proof.
  intros Hg Hd.
  destruct (generate_Ok _ _ _ _ _ _ _ Hg)
    as (h & i & d & p & dec & v & cs & t0 & _ & He & Hd' & _).
  rewrite Hd in Hd'. inversion Hd'; subst t0. clear Hd'.
  eapply (expand_hereditary poisson choice (cfg g)
            (λ t, Forall unmixed_alternating (subnodes t))) in He;
    [by destruct He | |].
  - intros i0 d0 p0 dec0 v0 cs0 ctr0 k0 nd' ctr0' k0' _ Hp.
    rewrite reproduce_payoffs_eq in Hp.
    destruct (poisson_accepts _); [|done]. inversion Hp; subst. clear Hp.
    rewrite subnodes_descendants. unfold descendants. cbn [children].
    match goal with |- context [imap _ ?vs] =>
      destruct (payoff_leaves_shape (d0 + 1) ctr0 vs) as [H1 H2] end.
    constructor; [by left | done].
  - intros i0 d0 p0 dec0 v0 cs' k0 _ _ Hcs.
    rewrite subnodes_descendants. unfold descendants. cbn [children].
    constructor.
    + right. eapply Forall_impl; [exact Hcs |]. by intros x [_ ?].
    + apply Forall_concat. rewrite Forall_fmap.
      eapply Forall_impl; [exact Hcs |]. by intros x [? _].
Qed.

(** With every branching factor clamped to at least 1 a generated tree
    has a child under every decision node: its leaves are payoff
    nodes. *)
Lemma generated_leaves_payoff (fuel : nat) (g g' : TwoPlayerGame)
    (w w' : World) (t' : node) :
  1 ≤ minactions (cfg g) → 1 ≤ maxactions (cfg g) →
  1 ≤ minpayoffs (cfg g) → 1 ≤ maxpayoffs (cfg g) →
  generate poisson choice fuel g w = Some (Ok (g', w')) →
  deref w' (root g') = Some t' →
  every_decision_has_child t'.
Proof.
  intros Hmina Hmaxa Hminp Hmaxp Hg Hd.
  destruct (generate_Ok _ _ _ _ _ _ _ Hg)
    as (h & i & d & p & dec & v & cs & t0 & _ & He & Hd' & _).
  rewrite Hd in Hd'. inversion Hd'; subst t0. clear Hd'.
  eapply (expand_hereditary poisson choice (cfg g) every_decision_has_child) in He;
    [by destruct He | |]; unfold every_decision_has_child.
  - intros i0 d0 p0 dec0 v0 cs0 ctr0 k0 nd' ctr0' k0' _ Hp.
    rewrite reproduce_payoffs_eq in Hp.
    destruct (poisson_accepts _); [|done]. inversion Hp; subst. clear Hp.
    rewrite subnodes_descendants. unfold descendants. cbn [children].
    set (n := Z.to_nat (np_clip (Z.of_nat (poisson (lam (cfg g)) k0))
                          (minpayoffs (cfg g)) (maxpayoffs (cfg g)))).
    assert (1 ≤ n)%nat as Hn by (unfold n, np_clip; lia).
    constructor.
    + destruct n as [|n]; [lia | done].
    + match goal with |- context [imap _ ?l] => generalize l end.
      intros vs. clear. revert ctr0. induction vs as [|x vs IH]; intros ctr0; [constructor |].
      rewrite imap_cons, fmap_cons, concat_cons. cbn [subnodes app].
      constructor; [done |].
      specialize (IH (ctr0 + 1)). erewrite imap_ext; [exact IH |].
      intros j y _. simpl. f_equal. lia.
  - intros i0 d0 p0 dec0 v0 cs' k0 _ Hlen Hcs.
    rewrite subnodes_descendants. unfold descendants. cbn [children].
    constructor.
    + destruct cs' as [|x cs']; [|done]. simpl in Hlen.
      unfold np_clip in Hlen. lia.
    + apply Forall_concat. rewrite Forall_fmap.
      eapply Forall_impl; [exact Hcs |]. by intros x [? _].
Qed.
End shape.

(** C2 fails on the code: with the default [minactions=0] a branching
    draw of 0 leaves a decision node without children, a leaf that is
    not a payoff node ([generate]'s own comment asks for payoff nodes to
    be attached when there are no children).  Here the first draw of a
    default game is 0. *)
Theorem generate_leaves_decision_leaf :
  ∃ g w t,
    TwoPlayerGame_init poisson_zero choice_first 1 default_root default_config
      true module_loaded = Some (Ok (g, w)) ∧
    deref w (root g) = Some t ∧
    t = ActionNode 0 0 0 NaN (NaN, NaN) [] ∧
    children t = [] ∧ is_payoff t = false ∧ ¬ every_decision_has_child t.
Proof.
  eexists _, _, _. split; [reflexivity |]. split; [reflexivity |].
  split_and!; [done | done | done |].
  intros H. by inversion H.
Qed.

(** * Further properties *)

(** ** When [solve] returns *)

Lemma tuple_get_indexable {A} (x : A * A) (p : Z) :
  is_Some (tuple_get x p) ↔ -2 ≤ p ≤ 1.
Proof.
  unfold tuple_get. repeat case_decide; split; intros Hx;
    try lia; try (by eexists); by destruct Hx.
Qed.

Lemma column_indexable {A} (vals : list (A * A)) (p : Z) :
  -2 ≤ p ≤ 1 → is_Some (column vals p).
Proof.
  intros Hp. induction vals as [|v vals [l Hl]]; simpl; [by eexists |].
  destruct (proj2 (tuple_get_indexable v p) Hp) as [x ->].
  rewrite Hl. by eexists.
Qed.

Lemma column_Some_indexable {A} (vals : list (A * A)) (p : Z) :
  vals ≠ [] → is_Some (column vals p) → -2 ≤ p ≤ 1.
Proof.
  destruct vals as [|v vals]; [done |]. intros _ [l Hl]. simpl in Hl.
  apply (tuple_get_indexable v p).
  destruct (tuple_get v p); [by eexists | done].
Qed.

Lemma decide_node_indexable (p : Z) (vals : list (pynum * pynum)) :
  Forall int_pair vals → -2 ≤ p ≤ 1 → vals ≠ [] →
  ∃ k val, decide_node p vals = Ok (k, val).
Proof.
  intros Hall Hp Hne. unfold decide_node.
  destruct (column_indexable vals p Hp) as [col Hcol]. rewrite Hcol.
  destruct (column_ints _ _ _ Hall Hcol) as (zs & -> & Hzs).
  assert (zs ≠ []) as Hzne.
  { intros ->. apply column_length in Hcol. by destruct vals. }
  destruct (np_argmax_ints zs Hzne) as (k & m & -> & Hm & _).
  assert (is_Some (vals !! k)) as [val ->]; [|by eauto].
  apply lookup_lt_is_Some. apply column_length in Hcol.
  rewrite <- Hcol, length_fmap. by eapply lookup_lt_Some.
Qed.

Lemma decide_node_Ok_indexable (p : Z) (vals : list (pynum * pynum)) k val :
  decide_node p vals = Ok (k, val) → vals ≠ [] ∧ -2 ≤ p ≤ 1.
Proof.
  unfold decide_node. intros Hd.
  destruct (column vals p) as [col|] eqn:Hcol; [|done].
  destruct vals as [|v vals]; [by inversion Hcol; subst |].
  split; [done |]. eapply column_Some_indexable; [|by rewrite Hcol]. done.
Qed.

Lemma solve_total_indexable (t : node) :
  every_decision_has_child t → players_indexable t → solve_outcome t = Ok ().
Proof.
  unfold every_decision_has_child, players_indexable.
  induction t as [i d p dec v cs IH | i d pay] using node_ind; [|done].
  rewrite !Forall_subnodes_action. intros [Hroot Hcs] [Hp Hps].
  assert (Forall (λ c, solve_outcome c = Ok ()) cs) as Hok.
  { rewrite Forall_forall in IH, Hcs, Hps. apply Forall_forall.
    intros c Hc. by apply IH; [| apply Hcs | apply Hps]. }
  destruct (solve_action_children_Ok i d p dec v cs Hok) as [_ ->].
  destruct (decide_node_indexable p (value_of <$> (after_solve <$> cs)))
    as (k & val & ->); [by apply children_int_pairs | | | done].
  - simpl in Hp. by apply bool_decide_eq_true in Hp.
  - destruct cs; done.
Qed.

Lemma solve_Ok_indexable (t : node) :
  solve_outcome t = Ok () → players_indexable t.
Proof.
  unfold players_indexable.
  induction t as [i d p dec v cs IH | i d pay] using node_ind;
    [|by repeat constructor].
  intros Hok. rewrite Forall_subnodes_action.
  destruct (children_outcomes cs) as [Hall | (pre & c & post & e & -> & Hpre & Hc)].
  - destruct (solve_action_children_Ok i d p dec v cs Hall) as [_ Hout].
    rewrite Hok in Hout. split.
    + destruct (decide_node p (value_of <$> (after_solve <$> cs)))
        as [[k val]|e] eqn:Hd; [|done].
      apply decide_node_Ok_indexable in Hd as [_ Hp].
      simpl. by apply bool_decide_eq_true.
    + rewrite Forall_forall in IH, Hall. apply Forall_forall.
      intros c Hc. by apply IH; [| apply Hall].
  - destruct (solve_action_child_Raise i d p dec v pre c post e Hpre Hc) as [_ Hout].
    by rewrite Hok in Hout.
Qed.

(** X1. [solve] returns exactly on the trees in which every decision
    node has a child and an acting player that is a valid subscript of a
    pair (-2, -1, 0 or 1); on every other tree it raises. *)
Theorem solve_returns_iff (g : TwoPlayerGame) (w : World) (t : node) :
  deref w (root g) = Some t →
  (∃ w', solve g w = Some (set_solved g true, w', Ok ())) ↔
  every_decision_has_child t ∧ players_indexable t.
Proof.
  intros Hd. destruct (solve_game g w t Hd) as (ctr' & Hs). split.
  - intros (w' & Hs'). rewrite Hs in Hs'. injection Hs' as _ _ Hr.
    split; [by apply solve_Ok_has_child | by apply solve_Ok_indexable].
  - intros [Hc Hp]. rewrite (solve_total_indexable t Hc Hp) in Hs. eauto.
Qed.

Lemma solve_returns_iff_witness :
  (∃ w', solve two_leaf_obj two_leaf_world
           = Some (set_solved two_leaf_obj true, w', Ok ())) ↔
  every_decision_has_child (ActionNode 0 0 0 NaN (NaN, NaN) two_leaf_leaves) ∧
  players_indexable (ActionNode 0 0 0 NaN (NaN, NaN) two_leaf_leaves).
Proof.
  exact (solve_returns_iff two_leaf_obj two_leaf_world
           (ActionNode 0 0 0 NaN (NaN, NaN) two_leaf_leaves) eq_refl).
Defined.

(** ** What [solve] leaves alone *)

Lemma erase_put_node (p : list nat) : ∀ (t n n' : node),
  get_node t p = Some n → erase n' = erase n →
  erase (put_node t p n') = erase t.
Proof.
  induction p as [|i p IH]; intros t n n' Hget He; simpl in Hget.
  - inversion Hget; subst. exact He.
  - destruct (children t !! i) as [c|] eqn:Hc; [|done].
    destruct t as [id d pl dec v cs | id d pay]; [|done]. simpl in Hc |- *.
    f_equal. change (erase <$> alter (λ c0, put_node c0 p n') i cs = erase <$> cs).
    apply list_eq. intros j. rewrite !list_lookup_fmap.
    destruct (decide (i = j)) as [<-|Hne].
    + rewrite list_lookup_alter_eq, Hc. simpl. f_equal. by eapply IH.
    + by rewrite list_lookup_alter_ne.
Qed.

Lemma solve_children_nodeid (cs : list node) :
  Forall (λ c, ∀ ctr, (solve_node c ctr).1.2
                      = if has_decision_child c then 1 else ctr) cs →
  ∀ ctr, (solve_children solve_node cs ctr).1.2
         = if existsb (λ c, negb (is_payoff c)) cs then 1 else ctr.
Proof.
  induction 1 as [|c cs Hc _ IH]; intros ctr; [done |].
  destruct c as [i d p dec v gs | i d pay]; cbn [solve_children existsb is_payoff negb orb].
  - specialize (Hc 1). 
    destruct (solve_node (ActionNode i d p dec v gs) 1) as [[c' ctr1] r] eqn:E.
    simpl in Hc. assert (ctr1 = 1) as -> by (by destruct (has_decision_child _)).
    destruct r as [[]|e]; [|done].
    specialize (IH 1). destruct (solve_children solve_node cs 1) as [[rest' ctr2] r2].
    simpl in IH |- *. by destruct (existsb _ cs).
  - specialize (IH ctr). destruct (solve_children solve_node cs ctr) as [[rest' ctr2] r2].
    done.
Qed.

Lemma solve_node_nodeid (t : node) : ∀ ctr,
  (solve_node t ctr).1.2 = if has_decision_child t then 1 else ctr.
Proof.
  induction t as [i d p dec v cs IH | i d pay] using node_ind; intros ctr; [|done].
  pose proof (solve_children_nodeid cs IH ctr) as Hcs. simpl.
  destruct (solve_children solve_node cs ctr) as [[cs' ctr'] r]. simpl in Hcs.
  unfold has_decision_child. cbn [children]. rewrite <- Hcs.
  destruct r as [vals|e]; [|done].
  by destruct (decide_node p vals) as [[k val]|e].
Qed.

(** X2. Whether it returns or raises, [solve] touches nothing but the
    annotations of the tree under the game's root: the game keeps its
    root, configuration and node count, no random draw is made, the
    other root objects are left as they were, and every tree is the same
    once the annotations are set aside.  The class counter is left at 1
    when the root has a decision node among its children (each is
    wrapped by [branch]) and as it was otherwise. *)
Theorem solve_frame (g g' : TwoPlayerGame) (w w' : World) (r : outcome unit)
    (t : node) :
  deref w (root g) = Some t → solve g w = Some (g', w', r) →
  root g' = root g ∧ cfg g' = cfg g ∧ num_nodes g' = num_nodes g ∧
  draws w' = draws w ∧
  (∀ l, l ≠ (root g).1 → objects w' !! l = objects w !! l) ∧
  erase <$> objects w' = erase <$> objects w ∧
  Node_nodeid w' = if has_decision_child t then 1 else Node_nodeid w.
Proof.
  intros Hd Hs. unfold solve in Hs. rewrite Hd in Hs.
  pose proof (solve_node_nodeid t (Node_nodeid w)) as Hctr.
  destruct (solve_node_unfold t (Node_nodeid w)) as (ctr' & Hu).
  rewrite Hu in Hs, Hctr. simpl in Hctr.
  assert (g' = g ∨ g' = set_solved g true) as Hg.
  { destruct (solve_outcome t) as [[]|e]; inversion Hs; auto. }
  assert (w' = {| Node_nodeid := ctr';
                  objects := assign w (root g) (after_solve t);
                  draws := draws w |}) as ->.
  { destruct (solve_outcome t) as [[]|e]; by inversion Hs. }
  split_and!; try (by destruct Hg as [->| ->]).
  - intros l Hl. simpl. unfold assign. by rewrite list_lookup_alter_ne.
  - simpl. unfold assign, deref in *.
    destruct (objects w !! (root g).1) as [o|] eqn:Ho; [|done].
    apply list_eq. intros j. rewrite !list_lookup_fmap.
    destruct (decide ((root g).1 = j)) as [<-|Hne].
    + rewrite list_lookup_alter_eq, Ho. simpl. f_equal.
      eapply erase_put_node; [exact Hd | apply after_solve_erase].
    + by rewrite list_lookup_alter_ne.
Qed.

Lemma solve_frame_witness :
  root dead_end_game = root dead_end_game ∧
  cfg dead_end_game = cfg dead_end_game ∧
  num_nodes dead_end_game = num_nodes dead_end_game ∧
  draws {| Node_nodeid := 1; objects := [after_solve dead_end_tree]; draws := 0 |}
    = draws dead_end_world ∧
  (∀ l, l ≠ (root dead_end_game).1 →
        objects {| Node_nodeid := 1; objects := [after_solve dead_end_tree];
                   draws := 0 |} !! l = objects dead_end_world !! l) ∧
  erase <$> objects {| Node_nodeid := 1; objects := [after_solve dead_end_tree];
                       draws := 0 |} = erase <$> objects dead_end_world ∧
  Node_nodeid {| Node_nodeid := 1; objects := [after_solve dead_end_tree];
                 draws := 0 |}
    = if has_decision_child dead_end_tree then 1 else Node_nodeid dead_end_world.
Proof.
  exact (solve_frame dead_end_game dead_end_game dead_end_world
           {| Node_nodeid := 1; objects := [after_solve dead_end_tree]; draws := 0 |}
           (Raise ValueError) dead_end_tree eq_refl eq_refl).
Defined.

(** ** Backward induction on zero-sum trees *)

Lemma subnodes_self (n : node) : n ∈ subnodes n.
Proof. rewrite subnodes_descendants. by left. Qed.

Lemma subnodes_children (t : node) : ∀ n c,
  n ∈ subnodes t → c ∈ children n → c ∈ subnodes t.
Proof.
  induction t as [i d p dec v cs IH | i d pay] using node_ind; intros n c Hn Hc.
  - rewrite subnodes_action in Hn |- *. apply elem_of_cons in Hn as [->|Hn].
    + right. simpl in Hc. apply list_elem_of_In, in_concat.
      exists (subnodes c). split; [|apply list_elem_of_In, subnodes_self].
      apply list_elem_of_In, list_elem_of_fmap. by exists c.
    + right. apply list_elem_of_In, in_concat in Hn as (l & Hl & Hnl).
      apply list_elem_of_In, list_elem_of_fmap in Hl as (c0 & -> & Hc0).
      apply list_elem_of_In in Hnl.
      rewrite Forall_forall in IH. pose proof (IH c0 Hc0 n c Hnl Hc) as Hin.
      apply list_elem_of_In, in_concat. exists (subnodes c0).
      split; [|by apply list_elem_of_In].
      apply list_elem_of_In, list_elem_of_fmap. by exists c0.
  - simpl in Hn. apply list_elem_of_singleton in Hn as ->. simpl in Hc.
    by apply elem_of_nil in Hc.
Qed.

(** On a tree with zero-sum leaves every pair [solve] stores is zero-sum. *)
Lemma solve_zero_sum_values (t : node) :
  Forall zero_sum_leaf (subnodes t) → solve_outcome t = Ok () →
  Forall (λ n, ∃ a : Z, value_of n = (Int a, Int (- a)))
    (subnodes (after_solve t)).
Proof.
  induction t as [i d p dec v cs IH | i d pay] using node_ind.
  - rewrite Forall_subnodes_action. intros [_ Hleaves] Hok.
    destruct (children_outcomes cs) as [Hall | (pre & c & post & e & -> & Hpre & Hc)].
    + destruct (solve_action_children_Ok i d p dec v cs Hall) as [Ht Hout].
      rewrite Hok in Hout. rewrite Ht.
      destruct (decide_node p (value_of <$> (after_solve <$> cs)))
        as [[k val]|e] eqn:Hd; [|done].
      assert (Forall (λ c, Forall (λ n, ∃ a : Z, value_of n = (Int a, Int (- a)))
                             (subnodes c)) (after_solve <$> cs)) as Hcs.
      { rewrite Forall_fmap. rewrite Forall_forall in IH, Hleaves, Hall.
        apply Forall_forall. intros c Hc. simpl.
        by apply IH; [| apply Hleaves | apply Hall]. }
      rewrite Forall_subnodes_action. split; [|done].
      destruct (decide_node_Ok _ _ _ _ (children_int_pairs cs Hall) Hd) as (Hk & _).
      rewrite list_lookup_fmap in Hk.
      destruct ((after_solve <$> cs) !! k) as [c|] eqn:Hc; [|done].
      inversion Hk; subst val. simpl.
      rewrite Forall_forall in Hcs.
      pose proof (Hcs c (list_elem_of_lookup_2 _ _ _ Hc)) as Hsub.
      rewrite Forall_forall in Hsub. apply Hsub, subnodes_self.
    + destruct (solve_action_child_Raise i d p dec v pre c post e Hpre Hc)
        as [_ Hout].
      by rewrite Hok in Hout.
  - intros Hleaf _. simpl. constructor; [|constructor].
    apply Forall_inv in Hleaf. destruct pay as [a b]. simpl in Hleaf.
    exists a. simpl. unfold payoff_pair. simpl. do 2 f_equal. lia.
Qed.

(** X3. On a game whose leaves are all zero-sum [int64] pairs, once
    [solve] has returned the tree under the root is the tree it was
    given, annotations apart, and every decision node stores a zero-sum
    pair offered by one of its children: the largest first component
    among the children where player 0 acts, the smallest where player 1
    acts. *)
Theorem solve_minimax (g g' : TwoPlayerGame) (w w' : World) (t : node) :
  deref w (root g) = Some t → Forall zero_sum_leaf (subnodes t) →
  payoffs_int64 t →
  solve g w = Some (g', w', Ok ()) →
  ∃ t', deref w' (root g) = Some t' ∧ erase t' = erase t ∧
        Forall minimax_node (subnodes t').
Proof.
  intros Hd Hleaves _ Hs. destruct (solve_game g w t Hd) as (ctr' & Hs').
  rewrite Hs' in Hs. injection Hs as Hg Hw Hr. rewrite Hr in Hg. subst g' w'.
  exists (after_solve t).
  split; [simpl; by eapply deref_assign |].
  split; [apply after_solve_erase |].
  pose proof (solve_zero_sum_values t Hleaves Hr) as Hzs.
  destruct (solve_Ok_best_reply t Hr) as [_ Hbr].
  rewrite Forall_forall in Hzs, Hbr. apply Forall_forall.
  intros n Hn. specialize (Hbr n Hn).
  destruct n as [i d p dec v cs | i d pay]; [|done].
  destruct Hbr as (k & c & m & -> & Hk & -> & Hm & Hmax).
  destruct (Hzs _ Hn) as (a & Ha). simpl in Ha.
  exists a. split; [done |]. split.
  { exists c. split; [by eapply list_elem_of_lookup_2 | done]. }
  intros c' Hc'. apply list_elem_of_lookup in Hc' as [j Hj].
  destruct (Hmax j c' Hj) as (x & Hx & Hle & _).
  assert (c' ∈ subnodes (after_solve t)) as Hin.
  { eapply subnodes_children; [exact Hn |]. simpl.
    by eapply list_elem_of_lookup_2. }
  destruct (Hzs _ Hin) as (x0 & Hx0). exists x0. split; [done |].
  rewrite Ha in Hm. rewrite Hx0 in Hx. unfold tuple_get in Hm, Hx.
  repeat case_decide; simpl in *; simplify_eq; lia.
Qed.

Lemma solve_minimax_witness :
  (Forall zero_sum_leaf (subnodes small_tree) ∧ payoffs_int64 small_tree) ∧
  ∃ t', deref {| Node_nodeid := 1; objects := [after_solve small_tree];
                 draws := 7 |} (root small_generated.1)
        = Some t' ∧
        erase t' = erase small_tree ∧
        Forall minimax_node (subnodes t').
Proof.
  assert (Forall zero_sum_leaf (subnodes small_tree)) as Hl
    by (by repeat constructor).
  assert (payoffs_int64 small_tree) as Hint.
  { unfold payoffs_int64, int64. repeat constructor; simpl; lia. }
  split; [split; [exact Hl | exact Hint] |].
  exact (solve_minimax small_generated.1 (set_solved small_generated.1 true)
           small_generated.2
           {| Node_nodeid := 1; objects := [after_solve small_tree]; draws := 7 |}
           small_tree eq_refl Hl Hint eq_refl).
Defined.

(** ** The printers *)

Lemma string_app_assoc (s1 s2 s3 : string) :
  (s1 +:+ s2) +:+ s3 = s1 +:+ (s2 +:+ s3).
Proof.
  induction s1 as [|a s1 IH]; [done |].
  change (String a ((s1 +:+ s2) +:+ s3) = String a (s1 +:+ (s2 +:+ s3))).
  by rewrite IH.
Qed.

Lemma string_app_nil_r (s : string) : s +:+ "" = s.
Proof.
  induction s as [|a s IH]; [done |].
  change (String a (s +:+ "") = String a s). by rewrite IH.
Qed.

Lemma join_lines_app (l1 l2 : list string) :
  join_lines (l1 ++ l2) = join_lines l1 +:+ join_lines l2.
Proof.
  induction l1 as [|x l1 IH]; [done |].
  change (x +:+ join_lines (l1 ++ l2) = (x +:+ join_lines l1) +:+ join_lines l2).
  by rewrite IH, string_app_assoc.
Qed.

Lemma np_isnan_accepts (x : pynum) :
  np_isnan x = if isnan_accepts x then inr (match x with NaN => true | _ => false end)
               else inl TypeError.
Proof. destruct x as [|z]; [done |]. simpl. by destruct (bool_decide _). Qed.

(** [repr] raises exactly on the nodes that are not [printable], and
    what it raises is [TypeError]. *)
Lemma node_line_printable (indent : string) (n : node) :
  printable n = true → ∃ l, node_line indent n = inr l.
Proof.
  destruct n as [i d p dec v cs | i d pay]; [|by eexists].
  intros Hp. apply andb_true_iff in Hp as [Hd Hv].
  unfold node_line, node_repr, ActionNode_repr.
  rewrite !np_isnan_accepts, Hd, Hv. by eexists.
Qed.

Lemma node_line_unprintable (indent : string) (n : node) :
  printable n = false → node_line indent n = inl TypeError.
Proof.
  destruct n as [i d p dec v cs | i d pay]; [|done].
  intros Hp. apply andb_false_iff in Hp.
  unfold node_line, node_repr, ActionNode_repr. rewrite !np_isnan_accepts.
  destruct (isnan_accepts dec); [|done].
  destruct Hp as [?| ->]; done.
Qed.

Lemma str_children_spec (cs : list node) :
  Forall (λ c, ∀ ctr,
    if forallb printable (subnodes c) then
      ∃ ls, Forall2 (λ n l, str_line n = inr l) (subnodes c) ls ∧
            str_node c ctr = (inr (join_lines ls),
                              match children c with [] => ctr | _ => 1 end)
    else ∃ ctr', str_node c ctr = (inl TypeError, ctr')) cs →
  ∀ s ctr,
    if forallb printable (concat (subnodes <$> cs)) then
      ∃ ls, Forall2 (λ n l, str_line n = inr l) (concat (subnodes <$> cs)) ls ∧
            str_children str_node cs s ctr
            = (inr (s +:+ join_lines ls), match cs with [] => ctr | _ => 1 end)
    else ∃ ctr', str_children str_node cs s ctr = (inl TypeError, ctr').
Proof.
  induction 1 as [|c cs Hc _ IH]; intros s ctr.
  - simpl. exists []. split; [constructor |]. by rewrite string_app_nil_r.
  - rewrite fmap_cons, concat_cons, forallb_app. cbn [str_children].
    specialize (Hc 1).
    destruct (forallb printable (subnodes c)).
    + destruct Hc as (ls1 & HF1 & ->).
      assert (match children c with [] => 1 | _ => 1 end = 1) as ->
        by (by destruct (children c)).
      specialize (IH (s +:+ join_lines ls1) 1). cbn [andb].
      destruct (forallb printable (concat (subnodes <$> cs))).
      * destruct IH as (ls2 & HF2 & ->). exists (ls1 ++ ls2).
        split; [by apply Forall2_app |].
        rewrite join_lines_app, string_app_assoc. f_equal. by destruct cs.
      * destruct IH as (ctr' & ->). by eexists.
    + destruct Hc as (ctr' & ->). by eexists.
Qed.

Lemma str_node_spec (n : node) : ∀ ctr,
  if forallb printable (subnodes n) then
    ∃ ls, Forall2 (λ x l, str_line x = inr l) (subnodes n) ls ∧
          str_node n ctr = (inr (join_lines ls),
                            match children n with [] => ctr | _ => 1 end)
  else ∃ ctr', str_node n ctr = (inl TypeError, ctr').
Proof.
  induction n as [i d p dec v cs IH | i d pay] using node_ind; intros ctr.
  - rewrite subnodes_action. cbn [forallb str_node children].
    destruct (printable (ActionNode i d p dec v cs)) eqn:Hp.
    + destruct (node_line_printable ":-" _ Hp) as (l & Hl).
      assert (str_line (ActionNode i d p dec v cs) = inr l) as Hl' by exact Hl.
      rewrite !Hl'. cbn [andb].
      pose proof (str_children_spec cs IH l ctr) as Hcs.
      destruct (forallb printable (concat (subnodes <$> cs))).
      * destruct Hcs as (ls & HF & ->). exists (l :: ls).
        split; [by constructor | done].
      * destruct Hcs as (ctr' & ->). by eexists.
    + unfold str_line. rewrite (node_line_unprintable _ _ Hp). by eexists.
  - simpl. eexists [_]. split; [by repeat constructor |].
    simpl. by rewrite string_app_nil_r.
Qed.

Lemma printable64_printable (n : node) :
  printable64 n = true → printable n = true.
Proof.
  assert (∀ x, int64_num x = true → isnan_accepts x = true) as Hnum.
  { intros [|z]; [done |]. simpl. intros Hz%bool_decide_eq_true.
    apply bool_decide_eq_true. lia. }
  destruct n as [i d p dec v cs | i d pay]; [|done]. simpl.
  intros [Hd Hv]%andb_true_iff. apply andb_true_iff. split; by apply Hnum.
Qed.

Lemma forallb_printable64 (ns : list node) :
  forallb printable64 ns = true → forallb printable ns = true.
Proof.
  rewrite !forallb_forall. intros H n Hn. by apply printable64_printable, H.
Qed.

(** X4. [__str__] does not ask for a solved game.  When every decision
    node of the tree holds, as decision and as first value component,
    [np.nan] or a 64-bit integer, its text is one line per node of the
    tree under the root, in depth-first pre-order, each line the node's
    [repr] after [':-'] repeated [depth] times, and building the branch
    views to print the children leaves the class counter at 1 whenever
    the root has a child.  When some decision node holds an integer
    [np.isnan] does not accept (below [-2^63] or from [2^64] on), it
    raises [TypeError]. *)
Theorem str_preorder (g : TwoPlayerGame) (w : World) (t : node) :
  deref w (root g) = Some t →
  (forallb printable64 (subnodes t) = true →
   ∃ ls, Forall2 (λ n l, str_line n = inr l) (subnodes t) ls ∧
     TwoPlayerGame_str g w =
       Some (inr (join_lines ls),
             set_nodeid (match children t with
                         | [] => Node_nodeid w
                         | _ => 1
                         end) w)) ∧
  (forallb printable (subnodes t) = false →
   ∃ w', TwoPlayerGame_str g w = Some (inl TypeError, w')).
Proof.
  intros Hd. unfold TwoPlayerGame_str. rewrite Hd.
  pose proof (str_node_spec t (Node_nodeid w)) as Hn. split.
  - intros Hp. rewrite (forallb_printable64 _ Hp) in Hn.
    destruct Hn as (ls & HF & ->). by exists ls.
  - intros Hp. rewrite Hp in Hn. destruct Hn as (ctr' & ->). by eexists.
Qed.

Lemma str_preorder_witness :
  (∃ ls, Forall2 (λ n l, str_line n = inr l) (subnodes small_tree) ls ∧
     TwoPlayerGame_str small_generated.1 small_generated.2 =
       Some (inr (join_lines ls),
             set_nodeid (match children small_tree with
                         | [] => Node_nodeid small_generated.2
                         | _ => 1
                         end) small_generated.2)) ∧
  (forallb printable (subnodes small_tree) = false →
   ∃ w', TwoPlayerGame_str small_generated.1 small_generated.2
         = Some (inl TypeError, w')).
Proof.
  destruct (str_preorder small_generated.1 small_generated.2 small_tree eq_refl)
    as [H1 H2].
  split; [apply H1; reflexivity | exact H2].
Defined.

Lemma at_child_lookup {A} (go : node → A) (e : A) (cs : list node) (k : nat)
    (c : node) :
  cs !! k = Some c → at_child go e cs k = go c.
Proof.
  revert k. induction cs as [|x cs IH]; intros [|k] Hk; simplify_eq/=; auto.
Qed.

Lemma py_index_nat (len k : nat) :
  (k < len)%nat → py_index len (Z.of_nat k) = Some k.
Proof.
  intros Hk. unfold py_index. rewrite decide_True by lia.
  rewrite decide_True by lia. by rewrite Nat2Z.id.
Qed.

Lemma subnodes_child (c : node) i d p dec v cs :
  c ∈ cs → ∀ n, n ∈ subnodes c → n ∈ subnodes (ActionNode i d p dec v cs).
Proof.
  intros Hc n Hn. rewrite subnodes_action. right.
  apply list_elem_of_In, in_concat. exists (subnodes c).
  split; [|by apply list_elem_of_In].
  apply list_elem_of_In, list_elem_of_fmap. by exists c.
Qed.

(** The value stored at the root of a solved subtree is the payoff
    pair of one of its leaves. *)
Lemma solved_value_leaf (t : node) :
  solve_outcome t = Ok () →
  ∃ i d pay, PayOffNode i d pay ∈ subnodes t ∧
             value_of (after_solve t) = payoff_pair pay.
Proof.
  induction t as [i d p dec v cs IH | i d pay] using node_ind; intros Hok.
  - destruct (children_outcomes cs) as [Hall | (pre & c & post & e & -> & Hpre & Hc)].
    + destruct (solve_action_children_Ok i d p dec v cs Hall) as [Ht Hout].
      rewrite Hok in Hout. rewrite Ht.
      destruct (decide_node p (value_of <$> (after_solve <$> cs)))
        as [[k val]|e] eqn:Hd; [|done].
      destruct (decide_node_Ok _ _ _ _ (children_int_pairs cs Hall) Hd) as (Hk & _).
      rewrite !list_lookup_fmap in Hk.
      destruct (cs !! k) as [c0|] eqn:Hk0; [|done].
      simpl in Hk. inversion Hk; subst val. clear Hk.
      pose proof (list_elem_of_lookup_2 _ _ _ Hk0) as Hin.
      rewrite Forall_forall in IH, Hall.
      destruct (IH c0 Hin (Hall c0 Hin)) as (i' & d' & pay & Hleaf & Hval).
      exists i', d', pay. split; [by eapply subnodes_child | done].
    + destruct (solve_action_child_Raise i d p dec v pre c post e Hpre Hc)
        as [_ Hout].
      by rewrite Hok in Hout.
  - exists i, d, pay. split; [by left | done].
Qed.

(** The root of a solved subtree: what [solve] stored there is
    accepted by [np.isnan], and its value is the payoff pair of a leaf
    of the subtree. *)
Lemma solved_root (t : node) :
  solve_outcome t = Ok () → payoffs_int64 t → lists_fit t →
  printable (after_solve t) = true ∧
  ∃ i d pay, PayOffNode i d pay ∈ subnodes t ∧
             value_of (after_solve t) = payoff_pair pay.
Proof.
  unfold payoffs_int64, lists_fit.
  induction t as [i d p dec v cs IH | i d pay] using node_ind; intros Hok Hint Hfit.
  - rewrite Forall_subnodes_action in Hint, Hfit.
    destruct Hint as [_ Hint]. destruct Hfit as [Hlen Hfit]. cbn [children] in Hlen.
    destruct (children_outcomes cs) as [Hall | (pre & c & post & e & -> & Hpre & Hc)].
    + destruct (solve_action_children_Ok i d p dec v cs Hall) as [Ht Hout].
      rewrite Hok in Hout. rewrite Ht.
      destruct (decide_node p (value_of <$> (after_solve <$> cs)))
        as [[k val]|e] eqn:Hd; [|done].
      destruct (decide_node_Ok _ _ _ _ (children_int_pairs cs Hall) Hd) as (Hk & _).
      rewrite !list_lookup_fmap in Hk.
      destruct (cs !! k) as [c0|] eqn:Hk0; [|done].
      simpl in Hk. inversion Hk; subst val. clear Hk.
      pose proof (list_elem_of_lookup_2 _ _ _ Hk0) as Hin.
      rewrite Forall_forall in IH, Hall, Hint, Hfit.
      destruct (IH c0 Hin (Hall c0 Hin) (Hint c0 Hin) (Hfit c0 Hin))
        as (_ & i' & d' & pay & Hleaf & Hval).
      assert (int64_leaf (PayOffNode i' d' pay)) as [H1 H2].
      { pose proof (Hint c0 Hin) as Hc0. rewrite Forall_forall in Hc0.
        by apply Hc0. }
      split.
      * cbn [printable isnan_accepts]. rewrite Hval. cbn [payoff_pair fst].
        apply lookup_lt_Some in Hk0. unfold int64 in H1.
        apply andb_true_iff. split; apply bool_decide_eq_true; lia.
      * exists i', d', pay. split; [by eapply subnodes_child | done].
    + destruct (solve_action_child_Raise i d p dec v pre c post e Hpre Hc)
        as [_ Hout].
      by rewrite Hok in Hout.
  - split; [done |]. exists i, d, pay. split; [by left | done].
Qed.

(** Following the stored decisions of a solved subtree ends at a leaf
    of the subtree whose payoff pair is the value stored at its root. *)
Lemma solution_path_loop_solved (t : node) :
  solve_outcome t = Ok () → payoffs_int64 t → lists_fit t →
  ∀ s, ∃ s' i d pay,
    solution_path_loop (after_solve t) s = inr (s', PayOffNode i d pay) ∧
    payoff_pair pay = value_of (after_solve t) ∧
    PayOffNode i d pay ∈ subnodes t.
Proof.
  unfold payoffs_int64, lists_fit.
  induction t as [i d p dec v cs IH | i d pay] using node_ind;
    intros Hok Hint Hfit s.
  - rewrite Forall_subnodes_action in Hint, Hfit.
    destruct Hint as [_ Hint]. destruct Hfit as [_ Hfit].
    destruct (children_outcomes cs) as [Hall | (pre & c & post & e & -> & Hpre & Hc)].
    + destruct (solve_action_children_Ok i d p dec v cs Hall) as [Ht Hout].
      rewrite Hok in Hout. rewrite Ht.
      destruct (decide_node p (value_of <$> (after_solve <$> cs)))
        as [[k val]|e] eqn:Hd; [|done].
      destruct (decide_node_Ok _ _ _ _ (children_int_pairs cs Hall) Hd) as (Hk & _).
      rewrite list_lookup_fmap in Hk.
      destruct ((after_solve <$> cs) !! k) as [c'|] eqn:Hc'; [|done].
      inversion Hk; subst val. clear Hk.
      pose proof Hc' as Hc0. rewrite list_lookup_fmap in Hc0.
      destruct (cs !! k) as [c0|] eqn:Hk0; [|done]. inversion Hc0; subst c'.
      rewrite Forall_forall in IH, Hall, Hint, Hfit.
      pose proof (list_elem_of_lookup_2 _ _ _ Hk0) as Hin.
      cbn [solution_path_loop].
      rewrite py_index_nat by (by eapply lookup_lt_Some).
      rewrite (at_child_lookup _ _ _ _ _ Hc').
      destruct (solved_root c0 (Hall c0 Hin) (Hint c0 Hin) (Hfit c0 Hin))
        as [Hpr _].
      destruct (node_line_printable ":-" _ Hpr) as (l & ->).
      destruct (IH c0 Hin (Hall c0 Hin) (Hint c0 Hin) (Hfit c0 Hin) (s +:+ l))
        as (s' & i' & d' & pay & Hl & Hv & Hleaf).
      exists s', i', d', pay. split_and!; [done | done |].
      by eapply subnodes_child.
    + destruct (solve_action_child_Raise i d p dec v pre c post e Hpre Hc)
        as [_ Hout].
      by rewrite Hok in Hout.
  - exists s, i, d, pay. split_and!; [done | done | by left].
Qed.

(** X5. Once [solve] has returned on a game with [int64] payoffs,
    [print_solution_path] returns as well: the stored decisions lead
    from the root to a payoff leaf of the tree the game was solved on,
    the pair of that leaf is the value stored at the root, and the text
    ends with the verdict on that pair. *)
Theorem print_solution_path_solved (g g' : TwoPlayerGame) (w w' : World)
    (t : node) :
  deref w (root g) = Some t → payoffs_int64 t → lists_fit t →
  solve g w = Some (g', w', Ok ()) →
  ∃ text i d pay t',
    deref w' (root g) = Some t' ∧ erase t' = erase t ∧
    PayOffNode i d pay ∈ subnodes t ∧
    value_of t' = payoff_pair pay ∧
    print_solution_path g' w' = Some (inr (text +:+ verdict pay)).
Proof.
  intros Hd Hint Hfit Hs.
  destruct (solve_game g w t Hd) as (ctr' & Hs').
  rewrite Hs' in Hs. injection Hs as Hg Hw Hr. rewrite Hr in Hg. subst g' w'.
  assert (deref {| Node_nodeid := ctr';
                   objects := assign w (root g) (after_solve t);
                   draws := draws w |} (root g)
          = Some (after_solve t)) as Hd'.
  { by eapply deref_assign. }
  destruct (solved_root t Hr Hint Hfit) as [Hpr _].
  destruct (node_line_printable "  " _ Hpr) as (l & Hl).
  destruct (solution_path_loop_solved t Hr Hint Hfit l)
    as (s' & i & d & pay & Hloop & Hv & Hleaf).
  exists s', i, d, pay, (after_solve t).
  split_and!; [done | apply after_solve_erase | done | done |].
  unfold print_solution_path. cbn [solved set_solved root].
  rewrite Hd', Hl, Hloop. done.
Qed.

Lemma print_solution_path_solved_witness :
  (payoffs_int64 (ActionNode 0 0 0 NaN (NaN, NaN) [PayOffNode 1 1 (1, -1)]) ∧
   lists_fit (ActionNode 0 0 0 NaN (NaN, NaN) [PayOffNode 1 1 (1, -1)])) ∧
  ∃ text i d pay t',
    deref one_leaf_solved.2 (root one_leaf_generated.1) = Some t' ∧
    erase t' = erase (ActionNode 0 0 0 NaN (NaN, NaN) [PayOffNode 1 1 (1, -1)]) ∧
    PayOffNode i d pay
      ∈ subnodes (ActionNode 0 0 0 NaN (NaN, NaN) [PayOffNode 1 1 (1, -1)]) ∧
    value_of t' = payoff_pair pay ∧
    print_solution_path one_leaf_solved.1 one_leaf_solved.2
      = Some (inr (text +:+ verdict pay)).
Proof.
  assert (payoffs_int64 (ActionNode 0 0 0 NaN (NaN, NaN) [PayOffNode 1 1 (1, -1)]))
    as Hint.
  { unfold payoffs_int64, int64. repeat constructor; simpl; lia. }
  assert (lists_fit (ActionNode 0 0 0 NaN (NaN, NaN) [PayOffNode 1 1 (1, -1)]))
    as Hfit.
  { unfold lists_fit. repeat constructor; simpl; lia. }
  split; [split; [exact Hint | exact Hfit] |].
  exact (print_solution_path_solved one_leaf_generated.1 one_leaf_solved.1
           one_leaf_generated.2 one_leaf_solved.2
           (ActionNode 0 0 0 NaN (NaN, NaN) [PayOffNode 1 1 (1, -1)])
           eq_refl Hint Hfit one_leaf_game_solved).
Defined.

(** ** The value map without assumptions on the ids *)

Lemma node_entry_indexable (n : node) (p : Z) :
  -2 ≤ p ≤ 1 → is_Some (node_entry n p).
Proof.
  intros Hp. destruct n as [i d pl dec v cs | i d pay]; simpl.
  - by apply tuple_get_indexable.
  - destruct (proj2 (tuple_get_indexable pay p) Hp) as [x ->]. by eexists.
Qed.

Lemma valuemap_loop_index (p : Z) :
  -2 ≤ p ≤ 1 →
  ∀ (fuel : nat) (to_visit : list node) (vm : gmap Z pynum),
    (length (concat (subnodes <$> to_visit)) ≤ fuel)%nat →
    ∃ m, valuemap_loop fuel p to_visit vm = Some (Ok m) ∧
      (∀ n, n ∈ concat (subnodes <$> to_visit) →
         ∃ n', n' ∈ concat (subnodes <$> to_visit) ∧ nodeid n' = nodeid n ∧
               m !! nodeid n = node_entry n' p) ∧
      (∀ k, k ∉ nodeid <$> concat (subnodes <$> to_visit) → m !! k = vm !! k).
Proof.
  intros Hp fuel.
  induction fuel as [|fuel IH]; intros to_visit vm Hlen.
  - destruct to_visit as [|curr rest].
    + exists vm. split_and!; [done | | done]. intros n Hn. by apply elem_of_nil in Hn.
    + rewrite fmap_cons, concat_cons, subnodes_descendants in Hlen.
      simpl in Hlen. lia.
  - destruct to_visit as [|curr rest].
    + exists vm. split_and!; [done | | done]. intros n Hn. by apply elem_of_nil in Hn.
    + cbn [valuemap_loop].
      destruct (node_entry_indexable curr p Hp) as [x Hx]. rewrite Hx.
      pose proof (to_visit_push curr rest) as Hperm.
      assert (concat (subnodes <$> curr :: rest) =
              curr :: (descendants curr ++ concat (subnodes <$> rest))) as Hnodes.
      { by rewrite fmap_cons, concat_cons, subnodes_descendants. }
      rewrite Hnodes in Hlen |- *.
      destruct (IH (rev (children curr) ++ rest) (<[nodeid curr := x]> vm))
        as (m & Hm & Hin & Hout).
      { rewrite Hperm. simpl in Hlen. lia. }
      exists m. split; [exact Hm |]. split.
      * intros n Hn. apply elem_of_cons in Hn as [->|Hn].
        -- destruct (decide (nodeid curr ∈
                       nodeid <$> concat (subnodes <$> (rev (children curr) ++ rest))))
             as [Hid|Hid].
           ++ apply list_elem_of_fmap in Hid as (n0 & Hid0 & Hn0).
              destruct (Hin n0 Hn0) as (n' & Hn' & Hidn' & Hmn').
              exists n'. rewrite Hperm in Hn'.
              split_and!; [by right | congruence | by rewrite Hid0].
           ++ exists curr. split_and!; [by left | done |].
              by rewrite (Hout _ Hid), lookup_insert_eq.
        -- rewrite <- Hperm in Hn.
           destruct (Hin n Hn) as (n' & Hn' & Hidn' & Hmn').
           exists n'. rewrite Hperm in Hn'. split_and!; [by right | done | done].
      * intros k Hk. rewrite fmap_cons in Hk. apply not_elem_of_cons in Hk as [Hk1 Hk2].
        rewrite Hout; [by rewrite lookup_insert_ne |].
        by rewrite Hperm.
Qed.

Lemma size_list_to_set_le (l : list Z) :
  (size (list_to_set l : gset Z) ≤ length l)%nat.
Proof.
  induction l as [|x l IH]; [done |].
  cbn [list_to_set foldr length]. rewrite size_union_alt, size_singleton.
  assert (size (list_to_set l ∖ {[x]} : gset Z) ≤ size (list_to_set l : gset Z))%nat
    by (by apply subseteq_size, subseteq_difference_l).
  lia.
Qed.

(** What [valuemap] returns on a solved game rooted at a decision node,
    for a valid subscript. *)
Lemma valuemap_entries (g : TwoPlayerGame) (w : World) (t : node) (p : Z) :
  solved g = true → deref w (root g) = Some t → is_payoff t = false →
  -2 ≤ p ≤ 1 →
  ∃ m : gmap Z pynum,
    valuemap g w p = Some (Ok m) ∧
    dom m = list_to_set (nodeid <$> subnodes t) ∧
    (∀ k x, m !! k = Some x →
       ∃ n, n ∈ subnodes t ∧ nodeid n = k ∧ node_entry n p = Some x) ∧
    (NoDup (nodeid <$> subnodes t) →
       ∀ n, n ∈ subnodes t → m !! nodeid n = node_entry n p).
Proof.
  intros Hsolved Hd Hroot Hp.
  destruct t as [i d pl dec v cs | i d pay]; [|done]. clear Hroot.
  unfold valuemap. rewrite Hsolved, Hd.
  destruct (node_entry_indexable (ActionNode i d pl dec v cs) p Hp) as [x Hx].
  simpl in Hx. rewrite Hx.
  set (t := ActionNode i d pl dec v cs) in *.
  assert (concat (subnodes <$> rev cs) ≡ₚ descendants t) as Hperm.
  { apply concat_subnodes_Permutation. symmetry. apply Permutation_rev. }
  destruct (valuemap_loop_index p Hp (length (subnodes t)) (rev cs) (<[i := x]> ∅))
    as (m & Hm & Hin & Hout).
  { rewrite Hperm, subnodes_descendants. simpl. lia. }
  exists m. split; [exact Hm |].
  rewrite subnodes_descendants, fmap_cons. cbn [nodeid t].
  assert (∀ k y, m !! k = Some y →
            ∃ n, n ∈ t :: descendants t ∧ nodeid n = k ∧ node_entry n p = Some y)
    as Hvals.
  { intros k y Hk.
    destruct (decide (k ∈ nodeid <$> descendants t)) as [Hkd|Hkd].
    - apply list_elem_of_fmap in Hkd as (n & -> & Hn). rewrite <- Hperm in Hn.
      destruct (Hin n Hn) as (n' & Hn' & Hid & Hmn). rewrite Hperm in Hn'.
      exists n'. split_and!; [by right | done | by rewrite <- Hmn].
    - rewrite Hout in Hk by (by rewrite Hperm).
      destruct (decide (k = i)) as [->|Hne].
      + rewrite lookup_insert_eq in Hk. inversion Hk; subst y.
        exists t. by split_and!; [left | |].
      + by rewrite lookup_insert_ne, lookup_empty in Hk. }
  split_and!.
  - apply set_eq. intros k. rewrite elem_of_dom, elem_of_list_to_set. split.
    + intros [y Hk]. destruct (Hvals k y Hk) as (n & Hn & <- & _).
      change (nodeid n ∈ nodeid <$> t :: descendants t).
      apply list_elem_of_fmap. by exists n.
    + intros Hk. apply elem_of_cons in Hk as [->|Hk].
      * destruct (decide (i ∈ nodeid <$> descendants t)) as [Hid|Hid].
        -- apply list_elem_of_fmap in Hid as (n & Hi & Hn). rewrite <- Hperm in Hn.
           destruct (Hin n Hn) as (n' & _ & _ & Hmn). rewrite Hi, Hmn.
           by apply node_entry_indexable.
        -- rewrite Hout by (by rewrite Hperm). rewrite lookup_insert_eq. by eexists.
      * apply list_elem_of_fmap in Hk as (n & -> & Hn). rewrite <- Hperm in Hn.
        destruct (Hin n Hn) as (n' & _ & _ & Hmn). rewrite Hmn.
        by apply node_entry_indexable.
  - exact Hvals.
  - intros Hnd n Hn. destruct (node_entry_indexable n p Hp) as [y Hy].
    assert (is_Some (m !! nodeid n)) as [z Hz].
    { apply elem_of_cons in Hn as [->|Hn].
      - destruct (decide (i ∈ nodeid <$> descendants t)) as [Hid|Hid].
        + apply list_elem_of_fmap in Hid as (n & Hi & Hn). rewrite <- Hperm in Hn.
          destruct (Hin n Hn) as (n' & _ & _ & Hmn). cbn [nodeid t]. rewrite Hi, Hmn.
          by apply node_entry_indexable.
        + cbn [nodeid t]. rewrite Hout by (by rewrite Hperm).
          rewrite lookup_insert_eq. by eexists.
      - rewrite <- Hperm in Hn.
        destruct (Hin n Hn) as (n' & _ & _ & Hmn). rewrite Hmn.
        by apply node_entry_indexable. }
    rewrite Hz. destruct (Hvals _ _ Hz) as (n' & Hn' & Hid & He).
    rewrite <- He. f_equal.
    eapply (NoDup_fmap_elem_inj nodeid (t :: descendants t)); done.
Qed.

Lemma size_list_to_set_NoDup (l : list Z) :
  size (list_to_set l : gset Z) = length l ↔ NoDup l.
Proof.
  split; [|apply size_list_to_set].
  induction l as [|x l IH]; intros Hsz; [constructor |].
  cbn [list_to_set foldr length] in Hsz.
  pose proof (size_list_to_set_le l) as Hle.
  destruct (decide (x ∈ l)) as [Hx|Hx].
  - exfalso.
    assert ({[x]} ∪ list_to_set l = (list_to_set l : gset Z)) as Heq.
    { apply subseteq_union_1_L, singleton_subseteq_l. by apply elem_of_list_to_set. }
    rewrite Heq in Hsz. lia.
  - constructor; [done |]. apply IH.
    rewrite size_union, size_singleton in Hsz; [lia |].
    apply disjoint_singleton_l. by rewrite elem_of_list_to_set.
Qed.

(** X6. How a call of [valuemap] ends.  It returns a dictionary exactly
    when the game is flagged solved, its root is a decision node and the
    subscript is one a pair accepts (-2 to 1); otherwise it raises, the
    assertion first, then the missing [value] attribute of a leaf root,
    then the subscript out of range. *)
Theorem valuemap_outcome (g : TwoPlayerGame) (w : World) (t : node) (p : Z) :
  deref w (root g) = Some t →
  ((∃ m, valuemap g w p = Some (Ok m)) ↔
     solved g = true ∧ is_payoff t = false ∧ -2 ≤ p ≤ 1) ∧
  (valuemap g w p = Some (Raise AssertionError) ↔ solved g = false) ∧
  (valuemap g w p = Some (Raise AttributeError) ↔
     solved g = true ∧ is_payoff t = true) ∧
  (valuemap g w p = Some (Raise IndexError) ↔
     solved g = true ∧ is_payoff t = false ∧ ¬ -2 ≤ p ≤ 1).
Proof.
  intros Hd.
  destruct (solved g) eqn:Hs.
  - destruct (is_payoff t) eqn:Hpay.
    + assert (valuemap g w p = Some (Raise AttributeError)) as ->.
      { unfold valuemap. rewrite Hs, Hd. by destruct t. }
      split_and!; split; intros Hx; destruct_and?; try done; try (by eexists); try (by destruct Hx); try (exfalso; lia); try (exfalso; tauto).
    + destruct (decide (-2 ≤ p ≤ 1)) as [Hp|Hp].
      * destruct (valuemap_entries g w t p Hs Hd Hpay Hp) as (m & -> & _).
        split_and!; split; intros Hx; destruct_and?; try done; try (by eexists); try (by destruct Hx); try (exfalso; lia); try (exfalso; tauto).
      * assert (valuemap g w p = Some (Raise IndexError)) as ->.
        { unfold valuemap. rewrite Hs, Hd.
          destruct t as [i d pl dec v cs | i d pay]; [|done].
          destruct (tuple_get v p) as [x|] eqn:Hx; [|done].
          exfalso. apply Hp. apply (tuple_get_indexable v p). by eexists. }
        split_and!; split; intros Hx; destruct_and?; try done; try (by eexists); try (by destruct Hx); try (exfalso; lia); try (exfalso; tauto).
  - assert (valuemap g w p = Some (Raise AssertionError)) as ->.
    { unfold valuemap. by rewrite Hs. }
    split_and!; split; intros Hx; destruct_and?; try done; try (by eexists); try (by destruct Hx); try (exfalso; lia); try (exfalso; tauto).
Qed.

Lemma valuemap_outcome_witness :
  ((∃ m, valuemap one_leaf_solved.1 one_leaf_solved.2 0 = Some (Ok m)) ↔
     solved one_leaf_solved.1 = true ∧
     is_payoff (ActionNode 0 0 0 (Int 0) (Int 1, Int (-1)) [PayOffNode 1 1 (1, -1)])
       = false ∧ -2 ≤ 0 ≤ 1) ∧
  (valuemap one_leaf_solved.1 one_leaf_solved.2 0 = Some (Raise AssertionError) ↔
     solved one_leaf_solved.1 = false) ∧
  (valuemap one_leaf_solved.1 one_leaf_solved.2 0 = Some (Raise AttributeError) ↔
     solved one_leaf_solved.1 = true ∧
     is_payoff (ActionNode 0 0 0 (Int 0) (Int 1, Int (-1)) [PayOffNode 1 1 (1, -1)])
       = true) ∧
  (valuemap one_leaf_solved.1 one_leaf_solved.2 0 = Some (Raise IndexError) ↔
     solved one_leaf_solved.1 = true ∧
     is_payoff (ActionNode 0 0 0 (Int 0) (Int 1, Int (-1)) [PayOffNode 1 1 (1, -1)])
       = false ∧ ¬ -2 ≤ 0 ≤ 1).
Proof.
  exact (valuemap_outcome one_leaf_solved.1 one_leaf_solved.2 _ 0 eq_refl).
Defined.

(** X7. The dictionary [valuemap] returns, whatever ids the nodes carry:
    its keys are the ids occurring in the tree, every entry is the
    component of some node carrying that id, and it has one entry per
    node exactly when the ids of the tree are pairwise distinct (fewer
    otherwise). *)
Theorem valuemap_keys (g : TwoPlayerGame) (w : World) (t : node) (p : Z) :
  solved g = true → deref w (root g) = Some t → is_payoff t = false →
  -2 ≤ p ≤ 1 →
  ∃ m : gmap Z pynum,
    valuemap g w p = Some (Ok m) ∧
    dom m = list_to_set (nodeid <$> subnodes t) ∧
    (∀ k x, m !! k = Some x →
       ∃ n, n ∈ subnodes t ∧ nodeid n = k ∧ node_entry n p = Some x) ∧
    (size m ≤ length (subnodes t))%nat ∧
    (size m = length (subnodes t) ↔ NoDup (nodeid <$> subnodes t)).
Proof.
  intros Hs Hd Hpay Hp.
  destruct (valuemap_entries g w t p Hs Hd Hpay Hp) as (m & Hm & Hdom & Hvals & _).
  exists m. split_and!; [done | done | done | |].
  - rewrite <- size_dom, Hdom, <- (length_fmap nodeid). apply size_list_to_set_le.
  - rewrite <- size_dom, Hdom, <- (length_fmap nodeid). apply size_list_to_set_NoDup.
Qed.

Lemma valuemap_keys_witness :
  ∃ m : gmap Z pynum,
    valuemap own_root_game own_root_world (-1) = Some (Ok m) ∧
    dom m = list_to_set (nodeid <$> subnodes own_root_tree) ∧
    (∀ k x, m !! k = Some x →
       ∃ n, n ∈ subnodes own_root_tree ∧ nodeid n = k ∧ node_entry n (-1) = Some x) ∧
    (size m ≤ length (subnodes own_root_tree))%nat ∧
    (size m = length (subnodes own_root_tree) ↔
       NoDup (nodeid <$> subnodes own_root_tree)).
Proof.
  refine (valuemap_keys own_root_game own_root_world own_root_tree (-1)
            eq_refl eq_refl eq_refl _).
  lia.
Defined.

Example own_root_game_solved :
  own_root_solved = Some (own_root_game, own_root_world, Ok ()).
Proof. by vm_compute. Qed.

(** ** The shape of a generated tree *)

Lemma elem_of_concat {A} (x : A) (ls : list (list A)) :
  x ∈ concat ls ↔ ∃ l, x ∈ l ∧ l ∈ ls.
Proof.
  rewrite list_elem_of_In, in_concat. split.
  - intros (l & Hl & Hx). exists l. by rewrite !list_elem_of_In.
  - intros (l & Hx & Hl). exists l. by rewrite <- !list_elem_of_In.
Qed.

Lemma descendants_parent (t : node) : ∀ n,
  n ∈ descendants t → ∃ m, m ∈ subnodes t ∧ n ∈ children m.
Proof.
  induction t as [i d p dec v cs IH | i d pay] using node_ind; intros n Hn.
  - unfold descendants in Hn. cbn [children] in Hn.
    apply elem_of_concat in Hn as (l & Hn & Hl).
    apply list_elem_of_fmap in Hl as (c & -> & Hc).
    rewrite subnodes_descendants in Hn. apply elem_of_cons in Hn as [->|Hn].
    + exists (ActionNode i d p dec v cs). split; [apply subnodes_self | done].
    + rewrite Forall_forall in IH. destruct (IH c Hc n Hn) as (m & Hm & Hnm).
      exists m. split; [|done].
      rewrite subnodes_descendants. right. unfold descendants. cbn [children].
      apply elem_of_concat. exists (subnodes c). split; [done |].
      apply list_elem_of_fmap. by exists c.
  - by apply elem_of_nil in Hn.
Qed.

Lemma Forall_imap_intro {A B} (P : B → Prop) (f : nat → A → B) (l : list A) :
  (∀ j x, l !! j = Some x → P (f j x)) → Forall P (imap f l).
Proof.
  intros H. apply Forall_forall. intros y Hy.
  apply elem_of_lookup_imap in Hy as (j & x & -> & Hx). by apply H.
Qed.

Lemma clamped_count_range (lo hi : Z) (n : nat) :
  clamped_count lo hi n → clamped_range lo hi n.
Proof. intros (x & ->). unfold clamped_range, np_clip. lia. Qed.

Lemma generated_depths (c : config) (t : node) :
  is_payoff t = false → Forall (generated_node c) (subnodes t) →
  ∀ n, n ∈ subnodes t →
    match n with
    | PayOffNode _ d' _ => d' = Z.max (maxdepth c) (depth t + 1)
    | ActionNode _ d' _ _ _ _ => depth t ≤ d' ≤ Z.max (depth t) (maxdepth c - 1)
    end.
Proof.
  induction t as [i d p dec v cs IH | i d pay] using node_ind; [|done].
  intros _ Hgen n Hn. rewrite subnodes_descendants in Hgen, Hn.
  unfold descendants in Hgen, Hn. cbn [children] in Hgen, Hn.
  apply Forall_cons in Hgen as [Ht Hcs].
  apply Forall_concat in Hcs. rewrite Forall_fmap in Hcs.
  apply elem_of_cons in Hn as [->|Hn]; [simpl; lia |].
  apply elem_of_concat in Hn as (l & Hn & Hl).
  apply list_elem_of_fmap in Hl as (x & -> & Hx).
  rewrite Forall_forall in IH, Hcs.
  specialize (IH x Hx). specialize (Hcs x Hx). simpl in Hcs.
  cbn [generated_node] in Ht. cbn [depth]. case_decide as Hd.
  - destruct Ht as [_ Hkind]. rewrite Forall_forall in Hkind.
    destruct (Hkind x Hx) as (i' & cs' & ->).
    specialize (IH eq_refl Hcs n Hn). cbn [depth] in IH.
    destruct n as [? d' ? ? ? ? | ? d' ?]; lia.
  - destruct Ht as [_ Hkind]. rewrite Forall_forall in Hkind.
    destruct (Hkind x Hx) as (i' & a & ->).
    apply list_elem_of_singleton in Hn as ->. lia.
Qed.

Section generated_shape.
Variable poisson : Q → nat → nat.
Variable choice : nat → list Z → Z.

(** The subtree the loop builds under an open node: every node of it is
    as one turn of the loop left it, and everything below the open node
    is unannotated. *)
Lemma expand_generated (c : config) (h : nat) :
  ∀ i d p dec v cs ctr k num t' ctr' k' num',
    expand poisson choice h c (ActionNode i d p dec v cs) ctr k num
      = Some (t', ctr', k', num') →
    (∃ cs', t' = ActionNode i d p dec v cs') ∧
    Forall (generated_node c) (subnodes t') ∧
    Forall unannotated (descendants t').
Proof.
  assert (∀ i d p dec v cs ctr k num t' ctr' k' num',
    ¬ d < maxdepth c - 1 →
    match reproduce_payoffs poisson choice (ActionNode i d p dec v cs)
            (lam c) (minpayoffs c) (maxpayoffs c) (ties c) ctr k with
    | Raise _ => None
    | Ok (nd', ctr', k') =>
        Some (nd', ctr', k', num + Z.of_nat (length (children nd')))
    end = Some (t', ctr', k', num') →
    (∃ cs', t' = ActionNode i d p dec v cs') ∧
    Forall (generated_node c) (subnodes t') ∧
    Forall unannotated (descendants t')) as Hpay.
  { intros i d p dec v cs ctr k num t' ctr' k' num' Hd He.
    rewrite reproduce_payoffs_eq in He.
    destruct (poisson_accepts _); [|done]. inversion He; subst. clear He.
    split; [by eexists |].
    rewrite subnodes_descendants. unfold descendants. cbn [children].
    split; [constructor |].
    - cbn [generated_node]. rewrite decide_False by done. split.
      + exists (poisson (lam c) k). by rewrite length_imap, length_fmap, length_seq.
      + apply Forall_imap_intro. intros j x _. by eexists _, _.
    - apply Forall_concat. rewrite Forall_fmap. apply Forall_imap_intro.
      intros j x _. by constructor.
    - apply Forall_concat. rewrite Forall_fmap. apply Forall_imap_intro.
      intros j x _. by constructor. }
  induction h as [|h IH]; intros i d p dec v cs ctr k num t' ctr' k' num' He;
    cbn [expand depth] in He; case_decide as Hd.
  - done.
  - by eapply Hpay.
  - rewrite reproduce_actions_eq in He.
    destruct (poisson_accepts _); [|done]. cbn [children] in He.
    destruct (expand_children _ _ _ _ _) as [[[[cs' c2] k2] n2]|] eqn:Ecs;
      [|done].
    inversion He; subst. clear He. cbn [set_children].
    split; [by eexists |].
    assert (Forall (λ x, (∃ i' cs'', x = ActionNode i' (d + 1) ((p + 1) `mod` 2)
                                        NaN (NaN, NaN) cs'') ∧
                         Forall (generated_node c) (subnodes x) ∧
                         Forall unannotated (descendants x)) cs') as Hcs.
    { eapply expand_children_Forall; [|exact Ecs].
      rewrite Forall_fmap. apply Forall_forall.
      intros j _ ctr1 k1 num1 x' ctr1' k1' num1' Hx. simpl in Hx.
      destruct (IH _ _ _ _ _ _ _ _ _ _ _ _ _ Hx) as ((cs1 & ->) & HG & HU).
      split_and!; [by eexists _, _ | done | done]. }
    rewrite subnodes_descendants. unfold descendants. cbn [children].
    split; [constructor |].
    + cbn [generated_node]. rewrite decide_True by done. split.
      * exists (poisson (lam c) k).
        rewrite (expand_children_length _ _ _ _ _ _ _ _ _ Ecs).
        by rewrite length_fmap, length_seq.
      * eapply Forall_impl; [exact Hcs |]. by intros x [? _].
    + apply Forall_concat. rewrite Forall_fmap.
      eapply Forall_impl; [exact Hcs |]. by intros x (_ & ? & _).
    + apply Forall_concat. rewrite Forall_fmap.
      eapply Forall_impl; [exact Hcs |]. intros x ((i' & cs'' & ->) & _ & HU).
      apply Forall_cons. split; [done | exact HU].
  - by eapply Hpay.
Qed.

(** X8. How a call of [generate] ends.  Over a root that is a leaf the
    first turn of the loop raises [AttributeError] (a [PayOffNode] has
    no [reproduce_actions] or [reproduce_payoffs]).  Over a decision
    node, when [lam] is an argument [np.random.poisson] rejects
    (negative, or beyond its upper bound) the first turn raises its
    [ValueError]; otherwise the loop terminates, whatever the depth
    bound, the branching bounds and the draws, and returns the same
    game and process for every sufficient bound on its turns. *)
Theorem generate_outcome (g : TwoPlayerGame) (w : World) (t : node) :
  deref w (root g) = Some t → bounds_int64 (cfg g) →
  match t with
  | PayOffNode _ _ _ =>
      ∀ fuel, generate poisson choice (S fuel) g w = Some (Raise AttributeError)
  | ActionNode _ _ _ _ _ _ =>
      if poisson_accepts (lam (cfg g)) then
        ∃ fuel g' w', ∀ fuel', (fuel ≤ fuel')%nat →
          generate poisson choice fuel' g w = Some (Ok (g', w'))
      else
        ∀ fuel, generate poisson choice (S fuel) g w = Some (Raise ValueError)
  end.
Proof.
  intros Hd _. destruct t as [i d p dec v cs | i d pay].
  - destruct (poisson_accepts (lam (cfg g))) eqn:Hlam.
    + destruct (generate_returns poisson choice g w i d p dec v cs Hlam Hd)
        as (fuel & g' & w' & Hg).
      exists fuel, g', w'. intros fuel' Hle.
      unfold generate in Hg |- *. rewrite Hd in Hg |- *.
      destruct (generate_loop poisson choice fuel _ _) as [r|] eqn:Hl; [|done].
      by rewrite (generate_loop_mono poisson choice _ _ _ _ _ Hl Hle).
    + intros fuel. unfold generate. rewrite Hd.
      by rewrite generate_loop_rejected.
  - intros fuel. unfold generate. rewrite Hd.
    cbn [generate_loop g_nonpayoff g_tree g_nodeid g_draws g_num_nodes].
    unfold generate_step. cbn [get_node g_tree]. by case_decide.
Qed.

(** X9. What [generate] changes.  The game keeps its root, its
    configuration and its [solved] flag (a solved game stays flagged
    solved over its new tree); the other objects of the process are
    untouched; the root object keeps its id, depth, player, decision and
    value and only its child list is replaced; every node below it is
    new and unannotated, and [num_nodes] and the class counter both
    grow by the number of these nodes. *)
Theorem generate_frame (fuel : nat) (g g' : TwoPlayerGame) (w w' : World) :
  generate poisson choice fuel g w = Some (Ok (g', w')) →
  root g' = root g ∧ cfg g' = cfg g ∧ solved g' = solved g ∧
  (∀ l, l ≠ (root g).1 → objects w' !! l = objects w !! l) ∧
  ∃ t t',
    deref w (root g) = Some t ∧ deref w' (root g') = Some t' ∧
    t' = set_children t (children t') ∧
    Forall unannotated (descendants t') ∧
    num_nodes g' = num_nodes g + Z.of_nat (length (descendants t')) ∧
    Node_nodeid w' = Node_nodeid w + Z.of_nat (length (descendants t')).
Proof.
  intros Hg.
  destruct (generate_Ok _ _ _ _ _ _ _ Hg)
    as (h & i & d & p & dec & v & cs & t' & Hd & He & Hd' & Hr & Hc & Hs & Ho).
  destruct (expand_ids _ _ _ _ _ _ _ _ _ _ _ _ _ _ _ _ _ He)
    as ((cs' & ->) & Hle & Hnum & Hids).
  destruct (expand_generated _ _ _ _ _ _ _ _ _ _ _ _ _ _ _ He)
    as (_ & _ & Hun).
  assert (Z.of_nat (length (descendants (ActionNode i d p dec v cs')))
          = Node_nodeid w' - Node_nodeid w) as Hlen.
  { rewrite <- (length_fmap nodeid), Hids, length_seqZ. lia. }
  split_and!; [done | done | done | |].
  - intros l Hl. rewrite Ho. unfold assign. by rewrite list_lookup_alter_ne.
  - eexists _, _. split_and!; [exact Hd | exact Hd' | done | done | lia | lia].
Qed.

(** X10. The branching of a generated tree.  A decision node above the
    depth bound has only decision nodes for children, one level deeper
    and of the other player, as many as the action bounds allow; a
    decision node at the bound or beyond has only leaves, one level
    deeper and zero-sum, as many as the payoff bounds allow. *)
Theorem generated_branching (fuel : nat) (g g' : TwoPlayerGame)
    (w w' : World) (t' : node) :
  generate poisson choice fuel g w = Some (Ok (g', w')) →
  deref w' (root g') = Some t' →
  ∀ i d p dec v cs, ActionNode i d p dec v cs ∈ subnodes t' →
    (d < maxdepth (cfg g) - 1 →
     clamped_range (minactions (cfg g)) (maxactions (cfg g)) (length cs) ∧
     Forall (λ x, is_payoff x = false ∧ depth x = d + 1 ∧
                  indexable_player x = true ∧
                  ∃ i' dec' v' cs', x = ActionNode i' (d + 1) ((p + 1) `mod` 2)
                                          dec' v' cs') cs) ∧
    (¬ d < maxdepth (cfg g) - 1 →
     clamped_range (minpayoffs (cfg g)) (maxpayoffs (cfg g)) (length cs) ∧
     Forall (λ x, is_payoff x = true ∧ depth x = d + 1 ∧
                  ∃ i' pay, x = PayOffNode i' (d + 1) pay ∧ pay.1 = - pay.2) cs).
Proof.
  intros Hg Hd' i d p dec v cs Hin.
  destruct (generate_Ok _ _ _ _ _ _ _ Hg)
    as (h & i0 & d0 & p0 & dec0 & v0 & cs0 & t0 & _ & He & Hd0 & _).
  rewrite Hd' in Hd0. inversion Hd0; subst t0. clear Hd0.
  destruct (expand_generated _ _ _ _ _ _ _ _ _ _ _ _ _ _ _ He) as (_ & HG & _).
  rewrite Forall_forall in HG. specialize (HG _ Hin). cbn [generated_node] in HG.
  split; intros Hdepth.
  - rewrite decide_True in HG by done. destruct HG as [Hn Hcs]. split.
    + by apply clamped_count_range.
    + eapply Forall_impl; [exact Hcs |]. intros x (i' & cs' & ->).
      split_and!; [done | done | | by eexists _, _, _, _].
      cbn [indexable_player]. apply bool_decide_eq_true.
      pose proof (Z.mod_pos_bound (p + 1) 2). lia.
  - rewrite decide_False in HG by done. destruct HG as [Hn Hcs]. split.
    + by apply clamped_count_range.
    + eapply Forall_impl; [exact Hcs |]. intros x (i' & a & ->).
      split_and!; [done | done |]. eexists _, _. split; [done |]. simpl. lia.
Qed.

(** X11. The horizon of a generated tree.  Below a root of depth [d0]
    every leaf lies at the same depth, the depth bound or [d0 + 1] if
    that is greater, and no decision node lies deeper than one level
    above the bound (or than the root, if the root is already there). *)
Theorem generated_horizon (fuel : nat) (g g' : TwoPlayerGame)
    (w w' : World) (t t' : node) :
  generate poisson choice fuel g w = Some (Ok (g', w')) →
  deref w (root g) = Some t → deref w' (root g') = Some t' →
  (∀ i d pay, PayOffNode i d pay ∈ subnodes t' →
     d = Z.max (maxdepth (cfg g)) (depth t + 1)) ∧
  (∀ i d p dec v cs, ActionNode i d p dec v cs ∈ subnodes t' →
     depth t ≤ d ≤ Z.max (depth t) (maxdepth (cfg g) - 1)).
Proof.
  intros Hg Hd Hd'.
  destruct (generate_Ok _ _ _ _ _ _ _ Hg)
    as (h & i0 & d0 & p0 & dec0 & v0 & cs0 & t0 & Hd0 & He & Hd0' & _).
  rewrite Hd in Hd0. inversion Hd0; subst t. clear Hd0.
  rewrite Hd' in Hd0'. inversion Hd0'; subst t0. clear Hd0'.
  destruct (expand_generated _ _ _ _ _ _ _ _ _ _ _ _ _ _ _ He)
    as ((cs' & ->) & HG & _).
  pose proof (generated_depths (cfg g) (ActionNode i0 d0 p0 dec0 v0 cs') eq_refl HG)
    as Hdepths.
  split.
  - intros i d pay Hin. exact (Hdepths _ Hin).
  - intros i d p dec v cs Hin. exact (Hdepths _ Hin).
Qed.

(** X12. A game generated with every branching minimum at least 1 can
    be solved: over a root whose player is a valid subscript, [solve]
    returns on what [generate] built, and the value it stores at the
    root is one of the drawn payoff pairs [(-a, a)]. *)
Theorem generated_solvable (fuel : nat) (g g' : TwoPlayerGame)
    (w w' : World) (t : node) :
  choice_sound choice →
  1 ≤ minactions (cfg g) → 1 ≤ maxactions (cfg g) →
  1 ≤ minpayoffs (cfg g) → 1 ≤ maxpayoffs (cfg g) →
  deref w (root g) = Some t → indexable_player t = true →
  generate poisson choice fuel g w = Some (Ok (g', w')) →
  ∃ w'' t'' a,
    solve g' w' = Some (set_solved g' true, w'', Ok ()) ∧
    deref w'' (root g') = Some t'' ∧
    value_of t'' = (Int (- a), Int a) ∧
    a ∈ (if ties (cfg g) then [-1; 0; 1] else [-1; 1] : list Z).
Proof.
  intros Hch H1 H2 H3 H4 Hd Hp Hg.
  destruct (generate_Ok _ _ _ _ _ _ _ Hg)
    as (h & i0 & d0 & p0 & dec0 & v0 & cs0 & t' & Hd0 & He & Hd' & _).
  rewrite Hd in Hd0. inversion Hd0; subst t. clear Hd0.
  pose proof (generated_leaves_payoff poisson choice _ _ _ _ _ _
                H1 H2 H3 H4 Hg Hd') as Hchild.
  pose proof (expand_drawn_payoffs poisson choice (cfg g) Hch
                _ _ _ _ _ _ _ _ _ _ _ _ _ _ He) as Hdrawn.
  destruct (expand_generated _ _ _ _ _ _ _ _ _ _ _ _ _ _ _ He)
    as ((cs' & ->) & HG & _).
  assert (players_indexable (ActionNode i0 d0 p0 dec0 v0 cs')) as Hplayers.
  { unfold players_indexable. rewrite subnodes_descendants.
    constructor; [exact Hp |]. apply Forall_forall. intros n Hn.
    apply descendants_parent in Hn as (m & Hm & Hnm).
    rewrite Forall_forall in HG. specialize (HG m Hm).
    destruct m as [im dm pm decm vm csm | im dm paym]; [|by apply elem_of_nil in Hnm].
    cbn [generated_node children] in HG, Hnm.
    case_decide; destruct HG as [_ Hkind]; rewrite Forall_forall in Hkind.
    - destruct (Hkind n Hnm) as (i' & cs'' & ->). cbn [indexable_player].
      apply bool_decide_eq_true. pose proof (Z.mod_pos_bound (pm + 1) 2). lia.
    - by destruct (Hkind n Hnm) as (i' & a & ->). }
  pose proof (solve_total_indexable _ Hchild Hplayers) as Hok.
  destruct (solve_game g' w' _ Hd') as (ctr' & Hs). rewrite Hok in Hs.
  destruct (solved_value_leaf _ Hok) as (i & d & pay & Hleaf & Hval).
  rewrite subnodes_descendants in Hleaf.
  apply elem_of_cons in Hleaf as [Hleaf|Hleaf]; [done |].
  rewrite Forall_forall in Hdrawn.
  destruct (Hdrawn _ Hleaf) as (a & Ha & ->).
  eexists _, _, a. split_and!; [exact Hs | | by rewrite Hval | done].
  by eapply deref_assign.
Qed.
End generated_shape.

Lemma branching_game_generated :
  generate poisson_two choice_first 8 branching_game.1 branching_game.2
  = Some (Ok branching_generated).
Proof. reflexivity. Defined.

Lemma generate_outcome_witness :
  bounds_int64 (cfg branching_game.1) ∧
  ∃ fuel g' w', ∀ fuel', (fuel ≤ fuel')%nat →
    generate poisson_two choice_first fuel' branching_game.1 branching_game.2
    = Some (Ok (g', w')).
Proof.
  assert (bounds_int64 (cfg branching_game.1)) as Hb.
  { unfold bounds_int64, int64. simpl. lia. }
  split; [exact Hb |].
  exact (generate_outcome poisson_two choice_first branching_game.1
           branching_game.2 (ActionNode 0 0 0 NaN (NaN, NaN) []) eq_refl Hb).
Defined.

Lemma generate_frame_witness :
  root branching_generated.1 = root branching_game.1 ∧
  cfg branching_generated.1 = cfg branching_game.1 ∧
  solved branching_generated.1 = solved branching_game.1 ∧
  (∀ l, l ≠ (root branching_game.1).1 →
        objects branching_generated.2 !! l = objects branching_game.2 !! l) ∧
  ∃ t t',
    deref branching_game.2 (root branching_game.1) = Some t ∧
    deref branching_generated.2 (root branching_generated.1) = Some t' ∧
    t' = set_children t (children t') ∧
    Forall unannotated (descendants t') ∧
    num_nodes branching_generated.1
      = num_nodes branching_game.1 + Z.of_nat (length (descendants t')) ∧
    Node_nodeid branching_generated.2
      = Node_nodeid branching_game.2 + Z.of_nat (length (descendants t')).
Proof.
  exact (generate_frame poisson_two choice_first 8 branching_game.1
           branching_generated.1 branching_game.2 branching_generated.2
           branching_game_generated).
Defined.

Lemma generated_branching_witness :
  deref branching_generated.2 (root branching_generated.1) = Some small_tree ∧
  ∀ i d p dec v cs, ActionNode i d p dec v cs ∈ subnodes small_tree →
    (d < maxdepth branching_config - 1 →
     clamped_range (minactions branching_config) (maxactions branching_config)
       (length cs) ∧
     Forall (λ x, is_payoff x = false ∧ depth x = d + 1 ∧
                  indexable_player x = true ∧
                  ∃ i' dec' v' cs', x = ActionNode i' (d + 1) ((p + 1) `mod` 2)
                                          dec' v' cs') cs) ∧
    (¬ d < maxdepth branching_config - 1 →
     clamped_range (minpayoffs branching_config) (maxpayoffs branching_config)
       (length cs) ∧
     Forall (λ x, is_payoff x = true ∧ depth x = d + 1 ∧
                  ∃ i' pay, x = PayOffNode i' (d + 1) pay ∧ pay.1 = - pay.2) cs).
Proof.
  split; [reflexivity |].
  exact (generated_branching poisson_two choice_first 8 branching_game.1
           branching_generated.1 branching_game.2 branching_generated.2
           small_tree branching_game_generated eq_refl).
Defined.

Lemma generated_horizon_witness :
  (∀ i d pay, PayOffNode i d pay ∈ subnodes small_tree →
     d = Z.max (maxdepth branching_config) (0 + 1)) ∧
  (∀ i d p dec v cs, ActionNode i d p dec v cs ∈ subnodes small_tree →
     0 ≤ d ≤ Z.max 0 (maxdepth branching_config - 1)).
Proof.
  exact (generated_horizon poisson_two choice_first 8 branching_game.1
           branching_generated.1 branching_game.2 branching_generated.2
           (ActionNode 0 0 0 NaN (NaN, NaN) []) small_tree
           branching_game_generated eq_refl eq_refl).
Defined.

Lemma generated_solvable_witness :
  ∃ w'' t'' a,
    solve branching_generated.1 branching_generated.2
      = Some (set_solved branching_generated.1 true, w'', Ok ()) ∧
    deref w'' (root branching_generated.1) = Some t'' ∧
    value_of t'' = (Int (- a), Int a) ∧
    a ∈ ([-1; 1] : list Z).
Proof.
  refine (generated_solvable poisson_two choice_first 8 branching_game.1
            branching_generated.1 branching_game.2 branching_generated.2
            (ActionNode 0 0 0 NaN (NaN, NaN) []) choice_first_sound
            _ _ _ _ eq_refl eq_refl branching_game_generated); simpl; lia.
Defined.

(** ** A solved game whose tree is generated again *)

Lemma py_index_lt (len : nat) (z : Z) (k : nat) :
  py_index len z = Some k → (k < len)%nat.
Proof.
  unfold py_index. intros H. repeat case_decide; inversion H; lia.
Qed.

Section regenerate.
Variable poisson : Q → nat → nat.
Variable choice : nat → list Z → Z.

(** X13. [generate] does not reset what [solve] wrote.  When the tree
    under the root of a game flagged solved is generated again, through
    this game or through another one holding the same root, the flag and
    the root's stored decision and value stay while every node below is
    new.  With a stored decision and value that are 64-bit integers,
    [print_solution_path] then passes its assertion and fails later:
    above the depth bound it raises [TypeError] at the first
    unannotated child or [IndexError] when the stored decision is no
    index of the new child list; at the bound it raises [IndexError] or
    prints the verdict of whichever new leaf sits at the old index. *)
Theorem regenerate_keeps_annotation (fuel : nat) (ga gb gb' : TwoPlayerGame)
    (w w' : World) i d p (z : Z) v cs :
  solved ga = true → root gb = root ga →
  deref w (root ga) = Some (ActionNode i d p (Int z) v cs) →
  printable64 (ActionNode i d p (Int z) v cs) = true →
  generate poisson choice fuel gb w = Some (Ok (gb', w')) →
  ∃ cs',
    deref w' (root ga) = Some (ActionNode i d p (Int z) v cs') ∧
    Forall unannotated cs' ∧
    if decide (d < maxdepth (cfg gb) - 1) then
      print_solution_path ga w' = Some (inl TypeError) ∨
      print_solution_path ga w' = Some (inl (Of_exn IndexError))
    else
      print_solution_path ga w' = Some (inl (Of_exn IndexError)) ∨
      ∃ text i' pay, PayOffNode i' (d + 1) pay ∈ cs' ∧
        print_solution_path ga w' = Some (inr (text +:+ verdict pay)).
Proof.
  intros Hs Hr Hd Hpr Hg.
  destruct (generate_Ok _ _ _ _ _ _ _ Hg)
    as (h & i0 & d0 & p0 & dec0 & v0 & cs0 & t' & Hd0 & He & Hd' & Hr' & _).
  rewrite Hr, Hd in Hd0. inversion Hd0; subst. clear Hd0.
  rewrite Hr', Hr in Hd'.
  destruct (expand_generated _ _ _ _ _ _ _ _ _ _ _ _ _ _ _ _ _ He)
    as ((cs' & ->) & HG & Hun).
  rewrite subnodes_descendants in HG. apply Forall_cons in HG as [HG _].
  cbn [generated_node] in HG.
  exists cs'. split; [exact Hd' |]. split.
  { apply Forall_forall. intros c Hc. rewrite Forall_forall in Hun. apply Hun.
    unfold descendants. cbn [children]. apply elem_of_concat.
    exists (subnodes c). split; [apply subnodes_self |].
    apply list_elem_of_fmap. by exists c. }
  unfold print_solution_path. rewrite Hs, Hd'.
  destruct (node_line_printable "  " (ActionNode i0 d0 p0 (Int z) v0 cs'))
    as (l & ->); [exact (printable64_printable _ Hpr) |].
  cbn [solution_path_loop].
  destruct (py_index (length cs') z) as [k|] eqn:Hk;
    [|by case_decide; [right | left]].
  apply py_index_lt in Hk.
  destruct (lookup_lt_is_Some_2 cs' k Hk) as [c Hc].
  rewrite (at_child_lookup _ _ _ _ _ Hc).
  assert (c ∈ cs') as Hin by (by eapply list_elem_of_lookup_2).
  case_decide as Hdepth; destruct HG as [_ Hkind];
    rewrite Forall_forall in Hkind.
  - destruct (Hkind c Hin) as (i' & cs'' & ->).
    destruct (node_line_printable ":-"
                (ActionNode i' (d0 + 1) ((p0 + 1) `mod` 2) NaN (NaN, NaN) cs''))
      as (l' & ->); [done |].
    by left.
  - destruct (Hkind c Hin) as (i' & a & ->).
    destruct (node_line_printable ":-" (PayOffNode i' (d0 + 1) (- a, a)))
      as (l' & ->); [done |].
    right. cbn [solution_path_loop]. eexists _, i', (- a, a). by split.
Qed.
End regenerate.

Lemma regenerate_keeps_annotation_witness :
  ∃ cs',
    deref regenerated_world (root one_leaf_solved.1)
      = Some (ActionNode 0 0 0 (Int 0) (Int 1, Int (-1)) cs') ∧
    Forall unannotated cs' ∧
    if decide (0 < maxdepth branching_config - 1) then
      print_solution_path one_leaf_solved.1 regenerated_world = Some (inl TypeError) ∨
      print_solution_path one_leaf_solved.1 regenerated_world
        = Some (inl (Of_exn IndexError))
    else
      print_solution_path one_leaf_solved.1 regenerated_world
        = Some (inl (Of_exn IndexError)) ∨
      ∃ text i' pay, PayOffNode i' (0 + 1) pay ∈ cs' ∧
        print_solution_path one_leaf_solved.1 regenerated_world
        = Some (inr (text +:+ verdict pay)).
Proof.
  exact (regenerate_keeps_annotation poisson_two choice_first 8
           one_leaf_solved.1
           {| root := default_root; cfg := branching_config; solved := false;
              num_nodes := 1 |}
           {| root := default_root; cfg := branching_config; solved := false;
              num_nodes := 7 |}
           (set_nodeid 1 one_leaf_solved.2) regenerated_world
           0 0 0 0 (Int 1, Int (-1)) [PayOffNode 1 1 (1, -1)]
           eq_refl eq_refl eq_refl eq_refl eq_refl).
Defined.

(** ** The solver reads no annotation *)

Lemma solve_children_erase (cs1 : list node) :
  Forall (λ c1, ∀ c2 ctr1 ctr2, erase c1 = erase c2 →
            (solve_node c1 ctr1).2 = (solve_node c2 ctr2).2 ∧
            ((solve_node c1 ctr1).2 = Ok () →
             (solve_node c1 ctr1).1.1 = (solve_node c2 ctr2).1.1)) cs1 →
  ∀ cs2 ctr1 ctr2, map erase cs1 = map erase cs2 →
    (solve_children solve_node cs1 ctr1).2 = (solve_children solve_node cs2 ctr2).2 ∧
    (∀ vals, (solve_children solve_node cs1 ctr1).2 = Ok vals →
       (solve_children solve_node cs1 ctr1).1.1
       = (solve_children solve_node cs2 ctr2).1.1).
Proof.
  induction 1 as [|c1 cs1 Hc _ IH]; intros cs2 ctr1 ctr2 He.
  - destruct cs2; [done | discriminate].
  - destruct cs2 as [|c2 cs2]; [discriminate |].
    cbn [map] in He. injection He as Hce Hcs.
    destruct c1 as [i1 d1 p1 dec1 v1 gs1 | i1 d1 pay1];
      destruct c2 as [i2 d2 p2 dec2 v2 gs2 | i2 d2 pay2]; try discriminate.
    + cbn [solve_children].
      destruct (Hc (ActionNode i2 d2 p2 dec2 v2 gs2) 1 1 Hce) as [Hr Ht].
      destruct (solve_node (ActionNode i1 d1 p1 dec1 v1 gs1) 1)
        as [[c1' k1] r1] eqn:E1.
      destruct (solve_node (ActionNode i2 d2 p2 dec2 v2 gs2) 1)
        as [[c2' k2] r2] eqn:E2.
      simpl in Hr, Ht. subst r2.
      destruct r1 as [[]|e]; [|by split].
      specialize (Ht eq_refl). subst c2'.
      destruct (IH cs2 k1 k2 Hcs) as [Hr' Ht'].
      destruct (solve_children solve_node cs1 k1) as [[rest1 m1] s1].
      destruct (solve_children solve_node cs2 k2) as [[rest2 m2] s2].
      simpl in Hr', Ht' |- *. subst s2. split; [done |].
      intros vals Hv. destruct s1 as [vs|e]; [|done].
      by rewrite (Ht' vs eq_refl).
    + cbn [solve_children]. simpl in Hce. injection Hce as -> -> ->.
      destruct (IH cs2 ctr1 ctr2 Hcs) as [Hr' Ht'].
      destruct (solve_children solve_node cs1 ctr1) as [[rest1 m1] s1].
      destruct (solve_children solve_node cs2 ctr2) as [[rest2 m2] s2].
      simpl in Hr', Ht' |- *. subst s2. split; [done |].
      intros vals Hv. destruct s1 as [vs|e]; [|done].
      by rewrite (Ht' vs eq_refl).
Qed.

Lemma solve_node_erase (t1 : node) : ∀ t2 ctr1 ctr2,
  erase t1 = erase t2 →
  (solve_node t1 ctr1).2 = (solve_node t2 ctr2).2 ∧
  ((solve_node t1 ctr1).2 = Ok () →
   (solve_node t1 ctr1).1.1 = (solve_node t2 ctr2).1.1).
Proof.
  induction t1 as [i1 d1 p1 dec1 v1 cs1 IH | i1 d1 pay1] using node_ind;
    intros t2 ctr1 ctr2 He.
  - destruct t2 as [i2 d2 p2 dec2 v2 cs2 | i2 d2 pay2]; [|discriminate].
    simpl in He. injection He as -> -> -> Hcs.
    destruct (solve_children_erase cs1 IH cs2 ctr1 ctr2 Hcs) as [Hr Ht].
    cbn [solve_node].
    destruct (solve_children solve_node cs1 ctr1) as [[cs1' k1] r1].
    destruct (solve_children solve_node cs2 ctr2) as [[cs2' k2] r2].
    simpl in Hr, Ht. subst r2.
    destruct r1 as [vals|e]; [|by split].
    rewrite (Ht vals eq_refl).
    destruct (decide_node p2 vals) as [[k val]|e]; by split.
  - destruct t2 as [i2 d2 p2 dec2 v2 cs2 | i2 d2 pay2]; [discriminate |].
    simpl in He. injection He as -> -> ->. by split.
Qed.

(** X14. [solve] reads no annotation.  On two processes whose trees
    under the game's root differ only in the decisions and values
    stored at decision nodes, [solve] ends the same way, and when it
    returns it leaves the same tree: what an earlier call or a caller
    wrote into [decision] and [value] never influences the solution. *)
Theorem solve_ignores_annotations (g : TwoPlayerGame) (w1 w2 : World)
    (t1 t2 : node) :
  deref w1 (root g) = Some t1 → deref w2 (root g) = Some t2 →
  erase t1 = erase t2 →
  ∃ g' w1' w2' r,
    solve g w1 = Some (g', w1', r) ∧ solve g w2 = Some (g', w2', r) ∧
    (r = Ok () → ∃ t', deref w1' (root g) = Some t' ∧
                       deref w2' (root g) = Some t').
Proof.
  intros Hd1 Hd2 He.
  destruct (solve_game g w1 t1 Hd1) as (k1 & Hs1).
  destruct (solve_game g w2 t2 Hd2) as (k2 & Hs2).
  destruct (solve_node_erase t1 t2 1 1 He) as [Hr Ht].
  fold (solve_outcome t1) in Hr, Ht. fold (solve_outcome t2) in Hr.
  fold (after_solve t1) in Ht. fold (after_solve t2) in Ht.
  rewrite <- Hr in Hs2.
  eexists _, _, _, _. split_and!; [exact Hs1 | exact Hs2 |].
  intros Hok. exists (after_solve t1). split.
  - by eapply deref_assign.
  - rewrite (Ht Hok). by eapply deref_assign.
Qed.

Lemma solve_ignores_annotations_witness :
  ∃ g' w1' w2' r,
    solve two_leaf_obj two_leaf_world = Some (g', w1', r) ∧
    solve two_leaf_obj two_leaf_solved = Some (g', w2', r) ∧
    (r = Ok () → ∃ t', deref w1' (root two_leaf_obj) = Some t' ∧
                       deref w2' (root two_leaf_obj) = Some t').
Proof.
  exact (solve_ignores_annotations two_leaf_obj two_leaf_world two_leaf_solved
           (ActionNode 0 0 0 NaN (NaN, NaN) two_leaf_leaves)
           (ActionNode 0 0 0 (Int 0) (Int 1, Int (-1)) two_leaf_leaves)
           eq_refl eq_refl eq_refl).
Defined.

(** ** Branch views *)

(** X15. A branch view is a window on the game's own tree.  Solving the
    view built by [branch] on the node at position [q] below the root
    annotates that node's subtree in place: the game's tree afterwards
    is the old one with the solved subtree at [q], the game object
    itself is not flagged solved, and the view counts one node whatever
    the subtree holds. *)
Theorem branch_solve_in_place (g : TwoPlayerGame) (w : World) (q : list nat)
    (t c : node) (nd : ref) :
  deref w (root g) = Some t → get_node t q = Some c →
  nd = ((root g).1, (root g).2 ++ q) →
  ∃ sub' w',
    solve (branch g nd w).1 (branch g nd w).2 = Some (sub', w', solve_outcome c) ∧
    root sub' = nd ∧ num_nodes sub' = 1 ∧
    (solved sub' = true ↔ solve_outcome c = Ok ()) ∧
    deref w' nd = Some (after_solve c) ∧
    deref w' (root g) = Some (put_node t q (after_solve c)) ∧
    (∀ l, l ≠ (root g).1 → objects w' !! l = objects w !! l).
Proof.
  intros Hd Hq Hnd.
  assert (deref (branch g nd w).2 nd = Some c) as Hc.
  { unfold deref in Hd |- *. cbn [branch TwoPlayerGame_fields set_nodeid snd objects].
    subst nd. cbn [fst snd].
    destruct (objects w !! (root g).1) as [T|]; [|done].
    by rewrite get_node_app, Hd. }
  destruct (solve_game (branch g nd w).1 (branch g nd w).2 c Hc) as (ctr' & Hs).
  eexists _, _. split; [exact Hs |].
  split_and!.
  - by destruct (solve_outcome c) as [[]|e].
  - by destruct (solve_outcome c) as [[]|e].
  - by destruct (solve_outcome c) as [[]|e].
  - by eapply deref_assign.
  - unfold deref, assign in *.
    cbn [branch TwoPlayerGame_fields set_nodeid fst snd objects root] in *.
    subst nd. cbn [fst snd].
    destruct (objects w !! (root g).1) as [T|] eqn:HT; [|done].
    rewrite list_lookup_alter_eq, HT. cbn [fmap option_fmap option_map].
    rewrite (put_node_app _ _ _ _ _ Hd).
    by eapply get_put_node.
  - intros l Hl. unfold assign.
    cbn [branch TwoPlayerGame_fields set_nodeid fst snd objects root].
    subst nd. cbn [fst]. by rewrite list_lookup_alter_ne.
Qed.

Lemma branch_solve_in_place_witness :
  ∃ sub' w',
    solve (branch dead_end_game (0%nat, [0%nat]) dead_end_world).1
          (branch dead_end_game (0%nat, [0%nat]) dead_end_world).2
      = Some (sub', w',
              solve_outcome (ActionNode 1 1 1 NaN (NaN, NaN)
                               [PayOffNode 3 2 (1, -1); PayOffNode 4 2 (-1, 1)])) ∧
    root sub' = (0%nat, [0%nat]) ∧ num_nodes sub' = 1 ∧
    (solved sub' = true ↔
     solve_outcome (ActionNode 1 1 1 NaN (NaN, NaN)
                      [PayOffNode 3 2 (1, -1); PayOffNode 4 2 (-1, 1)]) = Ok ()) ∧
    deref w' (0%nat, [0%nat])
      = Some (after_solve (ActionNode 1 1 1 NaN (NaN, NaN)
                             [PayOffNode 3 2 (1, -1); PayOffNode 4 2 (-1, 1)])) ∧
    deref w' (root dead_end_game)
      = Some (put_node dead_end_tree [0%nat]
                (after_solve (ActionNode 1 1 1 NaN (NaN, NaN)
                                [PayOffNode 3 2 (1, -1); PayOffNode 4 2 (-1, 1)]))) ∧
    (∀ l, l ≠ (root dead_end_game).1 →
          objects w' !! l = objects dead_end_world !! l).
Proof.
  exact (branch_solve_in_place dead_end_game dead_end_world [0%nat]
           dead_end_tree
           (ActionNode 1 1 1 NaN (NaN, NaN)
              [PayOffNode 3 2 (1, -1); PayOffNode 4 2 (-1, 1)])
           (0%nat, [0%nat]) eq_refl eq_refl eq_refl).
Defined.

(** ** The node count *)

Section node_count.
Variable poisson : Q → nat → nat.
Variable choice : nat → list Z → Z.

Lemma generate_num_nodes (fuel : nat) (g g' : TwoPlayerGame) (w w' : World)
    (t' : node) :
  generate poisson choice fuel g w = Some (Ok (g', w')) →
  deref w' (root g') = Some t' →
  num_nodes g' = num_nodes g + Z.of_nat (length (descendants t')).
Proof.
  intros Hg Hd.
  destruct (generate_Ok _ _ _ _ _ _ _ Hg)
    as (h & i & d & p & dec & v & cs & t0 & _ & He & Hd' & _).
  rewrite Hd in Hd'. inversion Hd'; subst t0. clear Hd'.
  destruct (expand_ids _ _ _ _ _ _ _ _ _ _ _ _ _ _ _ _ _ He)
    as (_ & Hle & Hnum & Hids).
  rewrite <- (length_fmap nodeid), Hids, length_seqZ. lia.
Qed.

(** X16. What [__repr__] reports.  For a game the constructor has just
    generated, the count in ["Tree with N nodes"] is the number of nodes
    of its tree.  [generate] never resets [num_nodes]: after a second
    call on the same game the count is that of the new tree plus the
    nodes the call threw away. *)
Theorem repr_node_count (fuel1 fuel2 : nat) (r : ref) (c : config)
    (w w1 w2 : World) (g1 g2 : TwoPlayerGame) (t1 t2 : node) :
  TwoPlayerGame_init poisson choice fuel1 r c true w = Some (Ok (g1, w1)) →
  deref w1 (root g1) = Some t1 →
  generate poisson choice fuel2 g1 w1 = Some (Ok (g2, w2)) →
  deref w2 (root g2) = Some t2 →
  TwoPlayerGame_repr g1
    = "Tree with " +:+ pretty (Z.of_nat (length (subnodes t1))) +:+ " nodes" ∧
  TwoPlayerGame_repr g2
    = "Tree with "
      +:+ pretty (Z.of_nat (length (subnodes t2) + length (descendants t1)))
      +:+ " nodes".
Proof.
  rewrite TwoPlayerGame_init_generate. intros H1 Hd1 H2 Hd2.
  pose proof (generate_num_nodes _ _ _ _ _ _ H1 Hd1) as Hn1.
  pose proof (generate_num_nodes _ _ _ _ _ _ H2 Hd2) as Hn2.
  cbn [num_nodes] in Hn1. unfold TwoPlayerGame_repr.
  rewrite !subnodes_descendants. cbn [length].
  replace (num_nodes g1) with (Z.of_nat (S (length (descendants t1)))) by lia.
  replace (num_nodes g2)
    with (Z.of_nat (S (length (descendants t2)) + length (descendants t1))) by lia.
  done.
Qed.
End node_count.

Lemma repr_node_count_witness :
  TwoPlayerGame_repr branching_generated.1
    = "Tree with " +:+ pretty (Z.of_nat (length (subnodes small_tree))) +:+ " nodes" ∧
  TwoPlayerGame_repr branching_regenerated.1
    = "Tree with "
      +:+ pretty (Z.of_nat (length (subnodes regenerated_tree)
                            + length (descendants small_tree)))
      +:+ " nodes".
Proof.
  exact (repr_node_count poisson_two choice_first 8 8 default_root
           branching_config module_loaded branching_generated.2
           branching_regenerated.2 branching_generated.1 branching_regenerated.1
           small_tree regenerated_tree eq_refl eq_refl eq_refl eq_refl).
Defined.

(** ** One generation of children *)

Section reproduce.
Variable poisson : Q → nat → nat.
Variable choice : nat → list Z → Z.

(** X17. [reproduce_payoffs] on a decision node.  When [lam] is an
    argument [np.random.poisson] rejects it raises [ValueError].
    Otherwise, although every [PayOffNode] constructor call overwrites
    the parent's child list with the leaf it builds, the final
    assignment leaves all the leaves under the node: as many as the
    clamped draw, with consecutive ids from the class counter, one level
    deeper, the [j]-th carrying [(-v, v)] for the [j]-th choice drawn
    after the Poisson draw.  The children the node had before are
    gone. *)
Theorem reproduce_payoffs_leaves i d p dec v cs (l : Q) (lo hi : Z) (ts : bool)
    (ctr : Z) (k : nat) :
  int64 lo → int64 hi →
  ∃ cs',
    reproduce_payoffs poisson choice (ActionNode i d p dec v cs) l lo hi ts ctr k
      = (if poisson_accepts l then
           Ok (ActionNode i d p dec v cs', ctr + Z.of_nat (length cs'),
               (S k + length cs')%nat)
         else Raise ValueError) ∧
    length cs' = Z.to_nat (np_clip (Z.of_nat (poisson l k)) lo hi) ∧
    ∀ j, (j < length cs')%nat →
      cs' !! j = Some (PayOffNode (ctr + Z.of_nat j) (d + 1)
                         (- choice (S k + j)%nat (if ts then [-1; 0; 1] else [-1; 1]),
                          choice (S k + j)%nat (if ts then [-1; 0; 1] else [-1; 1]))).
Proof.
  intros _ _.
  exists (imap (λ j x, PayOffNode (ctr + Z.of_nat j) (d + 1) (- x, x))
            ((λ j : nat, choice (S k + j)%nat
                           (if ts then [-1; 0; 1] else [-1; 1] : list Z))
               <$> seq 0 (Z.to_nat (np_clip (Z.of_nat (poisson l k)) lo hi)))).
  rewrite reproduce_payoffs_eq.
  rewrite !length_imap, !length_fmap, !length_seq.
  split_and!; [done | done |].
  intros j Hj. rewrite list_lookup_imap, list_lookup_fmap, lookup_seq_lt by done.
  done.
Qed.

(** X18. [reproduce_actions] on a decision node.  When [lam] is an
    argument [np.random.poisson] rejects it raises [ValueError].
    Otherwise it replaces the node's children by as many new decision
    nodes as the clamped draw: consecutive ids from the class counter,
    one level deeper, unannotated and childless, all of player
    [(player + 1) % 2], which is 0 or 1 whatever the node's own player
    is.  It makes one draw. *)
Theorem reproduce_actions_children i d p dec v cs (l : Q) (lo hi : Z)
    (ctr : Z) (k : nat) :
  int64 lo → int64 hi →
  ∃ cs',
    reproduce_actions poisson (ActionNode i d p dec v cs) l lo hi ctr k
      = (if poisson_accepts l then
           Ok (ActionNode i d p dec v cs', ctr + Z.of_nat (length cs'), S k)
         else Raise ValueError) ∧
    length cs' = Z.to_nat (np_clip (Z.of_nat (poisson l k)) lo hi) ∧
    0 ≤ (p + 1) `mod` 2 ≤ 1 ∧
    ∀ j, (j < length cs')%nat →
      cs' !! j = Some (ActionNode (ctr + Z.of_nat j) (d + 1) ((p + 1) `mod` 2)
                         NaN (NaN, NaN) []).
Proof.
  intros _ _.
  exists ((λ j : nat, ActionNode (ctr + Z.of_nat j) (d + 1) ((p + 1) `mod` 2)
                       NaN (NaN, NaN) [])
            <$> seq 0 (Z.to_nat (np_clip (Z.of_nat (poisson l k)) lo hi))).
  rewrite reproduce_actions_eq.
  rewrite !length_fmap, !length_seq.
  split_and!; [done | done | | |].
  - pose proof (Z.mod_pos_bound (p + 1) 2). lia.
  - pose proof (Z.mod_pos_bound (p + 1) 2). lia.
  - intros j Hj. by rewrite list_lookup_fmap, lookup_seq_lt.
Qed.
End reproduce.

Lemma reproduce_payoffs_leaves_witness :
  (int64 1 ∧ int64 99) ∧
  ∃ cs',
    reproduce_payoffs poisson_two choice_first
      (ActionNode 0 0 0 NaN (NaN, NaN) [PayOffNode 9 1 (0, 0)]) 2%Q 1 99 false 1 0
      = (if poisson_accepts 2%Q then
           Ok (ActionNode 0 0 0 NaN (NaN, NaN) cs', 1 + Z.of_nat (length cs'),
               (1 + length cs')%nat)
         else Raise ValueError) ∧
    length cs' = Z.to_nat (np_clip (Z.of_nat (poisson_two 2%Q 0)) 1 99) ∧
    ∀ j, (j < length cs')%nat →
      cs' !! j = Some (PayOffNode (1 + Z.of_nat j) (0 + 1)
                         (- choice_first (1 + j)%nat [-1; 1],
                          choice_first (1 + j)%nat [-1; 1])).
Proof.
  assert (int64 1 ∧ int64 99) as Hb by (unfold int64; lia).
  split; [exact Hb |].
  exact (reproduce_payoffs_leaves poisson_two choice_first 0 0 0 NaN (NaN, NaN)
           [PayOffNode 9 1 (0, 0)] 2%Q 1 99 false 1 0%nat
           (proj1 Hb) (proj2 Hb)).
Defined.

Lemma reproduce_actions_children_witness :
  (int64 1 ∧ int64 99) ∧
  ∃ cs',
    reproduce_actions poisson_two
      (ActionNode 0 0 0 NaN (NaN, NaN) [PayOffNode 9 1 (0, 0)]) 2%Q 1 99 1 0
      = (if poisson_accepts 2%Q then
           Ok (ActionNode 0 0 0 NaN (NaN, NaN) cs', 1 + Z.of_nat (length cs'), 1%nat)
         else Raise ValueError) ∧
    length cs' = Z.to_nat (np_clip (Z.of_nat (poisson_two 2%Q 0)) 1 99) ∧
    0 ≤ (0 + 1) `mod` 2 ≤ 1 ∧
    ∀ j, (j < length cs')%nat →
      cs' !! j = Some (ActionNode (1 + Z.of_nat j) (0 + 1) ((0 + 1) `mod` 2)
                         NaN (NaN, NaN) []).
Proof.
  assert (int64 1 ∧ int64 99) as Hb by (unfold int64; lia).
  split; [exact Hb |].
  exact (reproduce_actions_children poisson_two 0 0 0 NaN (NaN, NaN)
           [PayOffNode 9 1 (0, 0)] 2%Q 1 99 1 0%nat (proj1 Hb) (proj2 Hb)).
Defined.

(** ** From the constructor to the value map *)

Lemma nodeid_erase (n : node) : nodeid (erase n) = nodeid n.
Proof. by destruct n. Qed.

Lemma after_solve_ids (t : node) :
  nodeid <$> subnodes (after_solve t) = nodeid <$> subnodes t.
Proof.
  assert (∀ n, nodeid <$> subnodes (erase n) = nodeid <$> subnodes n) as He.
  { intros n. rewrite subnodes_erase, <- list_fmap_compose.
    apply list_fmap_ext. intros _ x _. apply nodeid_erase. }
  by rewrite <- He, after_solve_erase, He.
Qed.

Lemma size_ids_root (i : Z) (L : list Z) (n : Z) :
  L ≡ₚ seqZ 1 n → 0 ≤ n →
  Z.of_nat (size (list_to_set (i :: L) : gset Z))
  = if decide (1 ≤ i < 1 + n) then n else n + 1.
Proof.
  intros HL Hn.
  assert (NoDup L) as Hnd by (rewrite HL; apply NoDup_seqZ).
  assert (Z.of_nat (length L) = n) as Hlen by (rewrite HL, length_seqZ; lia).
  assert (i ∈ L ↔ 1 ≤ i < 1 + n) as Hin by (rewrite HL; apply elem_of_seqZ).
  cbn [list_to_set foldr].
  change (foldr (λ x S, {[x]} ∪ S) ∅ L) with (list_to_set L : gset Z).
  case_decide as Hi.
  - assert ({[i]} ∪ list_to_set L = (list_to_set L : gset Z)) as ->.
    { apply subseteq_union_1_L, singleton_subseteq_l, elem_of_list_to_set.
      by apply Hin. }
    by rewrite size_list_to_set.
  - rewrite size_union, size_singleton, size_list_to_set by
      (done || (apply disjoint_singleton_l; rewrite elem_of_list_to_set; tauto)).
    lia.
Qed.

Section end_to_end.
Variable poisson : Q → nat → nat.
Variable choice : nat → list Z → Z.

(** X19. From the constructor to the value map.  For a game the
    constructor has generated and [solve] has solved, [valuemap] returns
    a dictionary with one entry per node counted in [num_nodes], except
    when the id of the root (assigned before the constructor reset the
    class counter) is one of the ids 1, 2, ... handed out by the
    generation: then the root shares its key with a node below it and
    the dictionary has one entry less. *)
Theorem constructed_valuemap_size (fuel : nat) (r : ref) (c : config)
    (w w1 w2 : World) (g1 g2 : TwoPlayerGame) (t1 : node) (p : Z) :
  TwoPlayerGame_init poisson choice fuel r c true w = Some (Ok (g1, w1)) →
  deref w1 (root g1) = Some t1 →
  solve g1 w1 = Some (g2, w2, Ok ()) →
  -2 ≤ p ≤ 1 →
  ∃ m : gmap Z pynum,
    valuemap g2 w2 p = Some (Ok m) ∧
    Z.of_nat (size m)
    = if decide (1 ≤ nodeid t1 < num_nodes g1) then num_nodes g1 - 1
      else num_nodes g1.
Proof.
  rewrite TwoPlayerGame_init_generate. intros Hg Hd Hs Hp.
  destruct (generate_Ok _ _ _ _ _ _ _ Hg)
    as (h & i & d & pl & dec & v & cs & t0 & _ & He & Hd' & _).
  rewrite Hd in Hd'. inversion Hd'; subst t0. clear Hd'.
  destruct (expand_ids _ _ _ _ _ _ _ _ _ _ _ _ _ _ _ _ _ He)
    as ((cs' & ->) & Hle & Hnum & Hids).
  cbn [set_nodeid Node_nodeid num_nodes] in Hle, Hnum, Hids.
  destruct (solve_game g1 w1 _ Hd) as (ctr' & Hs').
  rewrite Hs in Hs'. injection Hs' as Hg2 Hw2 Hok.
  rewrite <- Hok in Hg2. subst g2.
  assert (deref w2 (root (set_solved g1 true))
          = Some (after_solve (ActionNode i d pl dec v cs'))) as Hd2.
  { rewrite Hw2. by eapply deref_assign. }
  assert (is_payoff (after_solve (ActionNode i d pl dec v cs')) = false) as Hpay.
  { pose proof (after_solve_erase (ActionNode i d pl dec v cs')) as Hera.
    by destruct (after_solve _). }
  destruct (valuemap_entries (set_solved g1 true) w2 _ p eq_refl Hd2 Hpay Hp)
    as (m & Hm & Hdom & _).
  exists m. split; [exact Hm |].
  rewrite <- size_dom, Hdom, after_solve_ids, subnodes_descendants, fmap_cons.
  rewrite (size_ids_root _ _ _ Hids) by lia.
  cbn [nodeid]. rewrite Hnum.
  repeat case_decide; lia.
Qed.
End end_to_end.

Lemma own_root_game_constructed :
  TwoPlayerGame_init poisson_two choice_first 8 (1%nat, []) one_leaf_config true
    (GameRootNode_new module_loaded).2 = Some (Ok own_root_generated).
Proof. reflexivity. Defined.

Lemma constructed_valuemap_size_witness :
  ∃ m : gmap Z pynum,
    valuemap own_root_game own_root_world 0 = Some (Ok m) ∧
    Z.of_nat (size m)
    = if decide (1 ≤ nodeid (ActionNode 1 0 0 NaN (NaN, NaN) [PayOffNode 1 1 (1, -1)])
                   < num_nodes own_root_generated.1)
      then num_nodes own_root_generated.1 - 1
      else num_nodes own_root_generated.1.
Proof.
  refine (constructed_valuemap_size poisson_two choice_first 8 (1%nat, [])
            one_leaf_config (GameRootNode_new module_loaded).2
            own_root_generated.2 own_root_world own_root_generated.1
            own_root_game
            (ActionNode 1 0 0 NaN (NaN, NaN) [PayOffNode 1 1 (1, -1)]) 0
            own_root_game_constructed eq_refl eq_refl _).
  lia.
Defined.

(** ** The exceptions of the solver *)

Lemma decide_node_not_indexable (p : Z) (vals : list (pynum * pynum)) :
  vals ≠ [] → ¬ -2 ≤ p ≤ 1 → decide_node p vals = Raise IndexError.
Proof.
  intros Hne Hp. unfold decide_node.
  destruct (column vals p) as [col|] eqn:Hcol; [|done].
  exfalso. apply Hp. eapply column_Some_indexable; [exact Hne |].
  by rewrite Hcol.
Qed.

Lemma solve_outcome_Raise_kinds (t : node) (e : exn) :
  solve_outcome t = Raise e →
  (e = ValueError ∧ ∃ i d p dec v, ActionNode i d p dec v [] ∈ subnodes t) ∨
  (e = IndexError ∧
   ∃ i d p dec v cs, ActionNode i d p dec v cs ∈ subnodes t ∧ cs ≠ [] ∧
                     ¬ -2 ≤ p ≤ 1).
Proof.
  induction t as [i d p dec v cs IH | i d pay] using node_ind; [|done].
  intros Hr. destruct (children_outcomes cs) as [Hall | (pre & c & post & e' & -> & Hpre & Hc)].
  - destruct (solve_action_children_Ok i d p dec v cs Hall) as [_ Hout].
    rewrite Hr in Hout.
    destruct cs as [|c0 cs].
    + simpl in Hout. inversion Hout; subst. left. split; [done |].
      eexists i, d, p, dec, v. apply subnodes_self.
    + destruct (decide (-2 ≤ p ≤ 1)) as [Hp|Hp].
      * destruct (decide_node_indexable p
                    (value_of <$> (after_solve <$> c0 :: cs))
                    (children_int_pairs _ Hall) Hp) as (k & val & Hd); [done |].
        by rewrite Hd in Hout.
      * rewrite decide_node_not_indexable in Hout by done.
        inversion Hout; subst. right. split; [done |].
        eexists i, d, p, dec, v, (c0 :: cs). split_and!; [apply subnodes_self | done | done].
  - destruct (solve_action_child_Raise i d p dec v pre c post e' Hpre Hc) as [_ Hout].
    rewrite Hr in Hout. inversion Hout; subst e'. clear Hout.
    rewrite Forall_forall in IH.
    assert (c ∈ pre ++ c :: post) as Hin.
    { apply elem_of_app. right. by left. }
    assert (∀ n, n ∈ subnodes c → n ∈ subnodes (ActionNode i d p dec v (pre ++ c :: post)))
      as Hsub.
    { intros n Hn. rewrite subnodes_descendants. right.
      unfold descendants. cbn [children]. apply elem_of_concat.
      exists (subnodes c). split; [done |]. apply list_elem_of_fmap. by exists c. }
    destruct (IH c Hin Hc) as [(-> & i' & d' & p' & dec' & v' & Hn)
                              | (-> & i' & d' & p' & dec' & v' & cs' & Hn & Hne & Hp)].
    + left. split; [done |]. eexists _, _, _, _, _. by apply Hsub.
    + right. split; [done |]. eexists _, _, _, _, _, _. split_and!; [by apply Hsub | done | done].
Qed.

(** X20. The exceptions of [solve].  When [solve] raises, the exception
    is the [ValueError] of [np.argmax] on an empty list, and the tree
    has a decision node without children, or it is the [IndexError] of
    subscripting a pair with the acting player, and the tree has a
    decision node with children whose player is none of -2, -1, 0, 1.
    Nothing else is ever raised. *)
Theorem solve_raise_kinds (g g' : TwoPlayerGame) (w w' : World) (t : node)
    (e : exn) :
  deref w (root g) = Some t → solve g w = Some (g', w', Raise e) →
  (e = ValueError ∧ ∃ i d p dec v, ActionNode i d p dec v [] ∈ subnodes t) ∨
  (e = IndexError ∧
   ∃ i d p dec v cs, ActionNode i d p dec v cs ∈ subnodes t ∧ cs ≠ [] ∧
                     ¬ -2 ≤ p ≤ 1).
Proof.
  intros Hd Hs. destruct (solve_game g w t Hd) as (ctr' & Hs').
  rewrite Hs in Hs'. injection Hs' as _ _ Hr.
  by apply solve_outcome_Raise_kinds.
Qed.

Lemma solve_raise_kinds_witness :
  (ValueError = ValueError ∧
   ∃ i d p dec v, ActionNode i d p dec v [] ∈ subnodes dead_end_tree) ∨
  (ValueError = IndexError ∧
   ∃ i d p dec v cs, ActionNode i d p dec v cs ∈ subnodes dead_end_tree ∧
                     cs ≠ [] ∧ ¬ -2 ≤ p ≤ 1).
Proof.
  exact (solve_raise_kinds dead_end_game dead_end_game dead_end_world
           {| Node_nodeid := 1; objects := [after_solve dead_end_tree]; draws := 0 |}
           dead_end_tree ValueError eq_refl eq_refl).
Defined.
